(** * BGP propagation engine: a shallow embedding of [bgp_simulator.cpp]
      and [main.cpp], with the properties of the specification checked
      against it.

    Conventions of the embedding.
    - An [int] AS number is a [Z]; the code only stores and compares ASNs.
      Counters ([customer_count], totals) are [Z] too and never leave the
      range of [int] for inputs that fit in memory.
    - [std::unordered_map] is a [gmap], [std::unordered_set] a [gset];
      [m[k]] on a missing key reads the default value, which is [m !!! k].
      The iteration order of the unordered containers is not fixed by C++;
      the model iterates in the order of [map_to_list] and [elements].
    - A [std::shared_ptr<Route>] is modelled by the [Route] value: a route
      is never written to after [std::make_shared]. *)

From Stdlib Require Import Strings.Ascii.
From stdpp Require Import gmap strings list fin_maps sorting.

Local Open Scope Z_scope.

(** ** Data model ([bgp_simulator.h]) *)

Inductive RelationType :=
  | PROVIDER_TO_CUSTOMER
  | PEER_TO_PEER
  | CUSTOMER_TO_PROVIDER.

Inductive AnnouncementType :=
  | LEARNED_FROM_CUSTOMER
  | LEARNED_FROM_PEER
  | LEARNED_FROM_PROVIDER.

#[global] Instance RelationType_eq_dec : EqDecision RelationType.
Proof. solve_decision. Defined.

#[global] Instance AnnouncementType_eq_dec : EqDecision AnnouncementType.
Proof. solve_decision. Defined.

Record Route := mkRoute {
  prefix : string;
  as_path : list Z;
  announcement_type : AnnouncementType;
  rov_invalid : bool
}.

#[global] Instance Route_eq_dec : EqDecision Route.
Proof. solve_decision. Defined.

(** [Route::prepend] and [Route::copy]. *)
Definition prepend (asn : Z) (r : Route) : Route :=
  mkRoute (prefix r) (asn :: as_path r) (announcement_type r) (rov_invalid r).

Definition copy (r : Route) : Route :=
  mkRoute (prefix r) (as_path r) (announcement_type r) (rov_invalid r).


(** ** Export policy and decision process *)

Definition relationship_to_announcement_type (rel_type : RelationType)
    : AnnouncementType :=
  match rel_type with
  | CUSTOMER_TO_PROVIDER => LEARNED_FROM_CUSTOMER
  | PEER_TO_PEER => LEARNED_FROM_PEER
  | PROVIDER_TO_CUSTOMER => LEARNED_FROM_PROVIDER
  end.

Definition can_export (route : Route) (export_relationship : RelationType)
    : bool :=
  match announcement_type route with
  | LEARNED_FROM_CUSTOMER => true
  | LEARNED_FROM_PROVIDER =>
      bool_decide (export_relationship = PROVIDER_TO_CUSTOMER)
  | LEARNED_FROM_PEER =>
      bool_decide (export_relationship = PROVIDER_TO_CUSTOMER)
  end.

(** The conditional expression the code uses for the preference of a
    route: customer 2, peer 1, anything else 0. *)
Definition pref_of (t : AnnouncementType) : Z :=
  if decide (t = LEARNED_FROM_CUSTOMER) then 2
  else if decide (t = LEARNED_FROM_PEER) then 1 else 0.

(** [as_path[1]] when the path has two elements or more, else
    [as_path[0]].  Reading [as_path[0]] of an empty vector is outside the
    vector; the model reads 0 there ([!!!]).  No route built by the
    simulator has an empty path ([as_path_nonempty_step] below). *)
Definition next_hop (p : list Z) : Z :=
  if decide (2 ≤ length p)%nat then p !!! 1%nat else p !!! 0%nat.

Definition better_route (rov_enabled_asns : gset Z)
    (new_route existing_route : Route) (deciding_asn : Z) : bool :=
  (* ROV filtering *)
  if bool_decide (deciding_asn ∈ rov_enabled_asns)
     && negb (bool_decide (rov_invalid new_route = rov_invalid existing_route))
  then negb (rov_invalid new_route)
  else
  (* Relationship preference *)
  let new_pref := pref_of (announcement_type new_route) in
  let existing_pref := pref_of (announcement_type existing_route) in
  if negb (bool_decide (new_pref = existing_pref)) then
    bool_decide (new_pref > existing_pref)
  (* AS path length *)
  else if negb (bool_decide (length (as_path new_route)
                             = length (as_path existing_route))) then
    bool_decide (length (as_path new_route)
                 < length (as_path existing_route))%nat
  else
  (* Tie-breaker: next-hop ASN *)
    let new_next_hop := next_hop (as_path new_route) in
    let existing_next_hop := next_hop (as_path existing_route) in
    bool_decide (new_next_hop < existing_next_hop).

(** [better_route] with its first clause (the ROV test) deleted and the
    rest unchanged.  It is not part of the program; it serves to state what
    the ROV clause contributes to a run. *)
Definition better_route_without_rov (rov_enabled_asns : gset Z)
    (new_route existing_route : Route) (deciding_asn : Z) : bool :=
  let new_pref := pref_of (announcement_type new_route) in
  let existing_pref := pref_of (announcement_type existing_route) in
  if negb (bool_decide (new_pref = existing_pref)) then
    bool_decide (new_pref > existing_pref)
  else if negb (bool_decide (length (as_path new_route)
                             = length (as_path existing_route))) then
    bool_decide (length (as_path new_route)
                 < length (as_path existing_route))%nat
  else
    let new_next_hop := next_hop (as_path new_route) in
    let existing_next_hop := next_hop (as_path existing_route) in
    bool_decide (new_next_hop < existing_next_hop).

(** ** AS graph *)

Record ASGraph := mkASGraph {
  adjacency : gmap Z (list (Z * RelationType));
  all_asns : gset Z
}.

Definition empty_graph : ASGraph := mkASGraph ∅ ∅.

Definition add_relationship (g : ASGraph) (asn1 asn2 : Z)
    (rel_type : RelationType) : ASGraph :=
  let adj1 :=
    <[asn1 := (adjacency g !!! asn1) ++ [(asn2, rel_type)]]> (adjacency g) in
  let reverse_rel :=
    match rel_type with
    | PROVIDER_TO_CUSTOMER => CUSTOMER_TO_PROVIDER
    | CUSTOMER_TO_PROVIDER => PROVIDER_TO_CUSTOMER
    | PEER_TO_PEER => PEER_TO_PEER
    end in
  let adj2 := <[asn2 := (adj1 !!! asn2) ++ [(asn1, reverse_rel)]]> adj1 in
  mkASGraph adj2 ({[asn2]} ∪ ({[asn1]} ∪ all_asns g)).

Definition get_neighbors (g : ASGraph) (asn : Z) : list (Z * RelationType) :=
  match adjacency g !! asn with
  | Some l => l
  | None => []
  end.

(** ** Simulator state *)

Record BGPSimulator := mkSim {
  graph : ASGraph;
  rov_enabled_asns : gset Z;
  ribs : gmap Z (gmap string Route);
  message_queues : gmap Z (gmap string (list Route));
  asn_to_rank : gmap Z nat;
  rank_to_asns : list (list Z)
}.

Definition new_simulator (g : ASGraph) : BGPSimulator :=
  mkSim g ∅ ∅ ∅ ∅ [].

Definition set_rov_asns (s : BGPSimulator) (rov_asns : gset Z) : BGPSimulator :=
  mkSim (graph s) rov_asns (ribs s) (message_queues s)
        (asn_to_rank s) (rank_to_asns s).

(** [ribs[asn][prefix] = route]. *)
Definition rib_store (asn : Z) (p : string) (route : Route)
    (rs : gmap Z (gmap string Route)) : gmap Z (gmap string Route) :=
  <[asn := <[p := route]> (rs !!! asn)]> rs.

(** [message_queues[asn][prefix].push_back(route)]. *)
Definition queue_push (asn : Z) (p : string) (route : Route)
    (qs : gmap Z (gmap string (list Route)))
    : gmap Z (gmap string (list Route)) :=
  <[asn := <[p := (qs !!! asn) !!! p ++ [route]]> (qs !!! asn)]> qs.

Definition with_ribs (s : BGPSimulator) (rs : gmap Z (gmap string Route))
    : BGPSimulator :=
  mkSim (graph s) (rov_enabled_asns s) rs (message_queues s)
        (asn_to_rank s) (rank_to_asns s).

Definition with_queues (s : BGPSimulator)
    (qs : gmap Z (gmap string (list Route))) : BGPSimulator :=
  mkSim (graph s) (rov_enabled_asns s) (ribs s) qs
        (asn_to_rank s) (rank_to_asns s).

Definition seed_announcement (s : BGPSimulator) (origin_asn : Z)
    (p : string) (rov_inv : bool) : BGPSimulator :=
  let g := mkASGraph (adjacency (graph s))
                     ({[origin_asn]} ∪ all_asns (graph s)) in
  let route := mkRoute p [origin_asn] LEARNED_FROM_CUSTOMER rov_inv in
  mkSim g (rov_enabled_asns s) (rib_store origin_asn p route (ribs s))
        (message_queues s) (asn_to_rank s) (rank_to_asns s).

(** The route that [send_route_to_neighbor] materialises for the receiver. *)
Definition sent_route (receiver_asn : Z) (route : Route)
    (relationship : RelationType) : Route :=
  let r := prepend receiver_asn (copy route) in
  mkRoute (prefix r) (as_path r)
          (relationship_to_announcement_type relationship) (rov_invalid r).

Definition send_route_to_neighbor (s : BGPSimulator)
    (sender_asn receiver_asn : Z) (route : Route)
    (relationship : RelationType) : BGPSimulator :=
  if bool_decide (receiver_asn ∈ as_path route) then s
  else if negb (can_export route relationship) then s
  else
    with_queues s
      (queue_push receiver_asn (prefix route)
                  (sent_route receiver_asn route relationship)
                  (message_queues s)).

(** ** Graph flattening *)

Record FlattenState := mkFlatten {
  customer_count : gmap Z Z;
  zero_customer_queue : list Z;
  fl_asn_to_rank : gmap Z nat;
  fl_rank_to_asns : list (list Z);
  current_rank : nat
}.

(** [customer_count[asn] = 0], then one increment per
    [PROVIDER_TO_CUSTOMER] neighbour, for every AS. *)
Definition count_customers (g : ASGraph) : gmap Z Z :=
  foldl (λ cc asn,
           foldl (λ cc (neighbor : Z * RelationType),
                    if decide (neighbor.2 = PROVIDER_TO_CUSTOMER)
                    then <[asn := cc !!! asn + 1]> cc else cc)
                 (<[asn := 0]> cc) (get_neighbors g asn))
        ∅ (elements (all_asns g)).

(** The queue after pushing every entry of [customer_count] that is zero. *)
Definition initial_queue (cc : gmap Z Z) : list Z :=
  (filter (λ entry : Z * Z, entry.2 = 0) (map_to_list cc)).*1.

(** Body of the loop over the neighbours of a drained AS. *)
Definition release_provider (st : FlattenState)
    (neighbor : Z * RelationType) : FlattenState :=
  if decide (neighbor.2 = CUSTOMER_TO_PROVIDER) then
    let cc := <[neighbor.1 := customer_count st !!! neighbor.1 - 1]>
                (customer_count st) in
    mkFlatten cc
      (if decide (cc !!! neighbor.1 = 0)
       then zero_customer_queue st ++ [neighbor.1]
       else zero_customer_queue st)
      (fl_asn_to_rank st) (fl_rank_to_asns st) (current_rank st)
  else st.

(** One turn of the [for] loop: pop the front of the queue, rank it,
    release its providers.  The queue holds at least [level_size - i]
    elements at turn [i], so the empty case is not reached. *)
Definition rank_front (g : ASGraph) (st : FlattenState) : FlattenState :=
  match zero_customer_queue st with
  | [] => st
  | asn :: q =>
      foldl release_provider
        (mkFlatten (customer_count st) q
           (<[asn := current_rank st]> (fl_asn_to_rank st))
           (alter (λ l, l ++ [asn]) (current_rank st) (fl_rank_to_asns st))
           (current_rank st))
        (get_neighbors g asn)
  end.

(** One turn of the [while] loop. *)
Definition rank_level (g : ASGraph) (st : FlattenState) : FlattenState :=
  let level_size := length (zero_customer_queue st) in
  let st1 := mkFlatten (customer_count st) (zero_customer_queue st)
               (fl_asn_to_rank st) (fl_rank_to_asns st ++ [[]])
               (current_rank st) in
  let st2 := Nat.iter level_size (rank_front g) st1 in
  mkFlatten (customer_count st2) (zero_customer_queue st2)
    (fl_asn_to_rank st2) (fl_rank_to_asns st2) (S (current_rank st2)).

(** The [while (!zero_customer_queue.empty())] loop, at most [fuel] turns.
    [flatten_ranks_inv] shows that the turns given by [flatten_ranks] are
    enough for the loop to leave through its exit test. *)
Fixpoint flatten_loop (g : ASGraph) (fuel : nat) (st : FlattenState)
    : FlattenState :=
  match fuel with
  | O => st
  | S fuel' =>
      match zero_customer_queue st with
      | [] => st
      | _ :: _ => flatten_loop g fuel' (rank_level g st)
      end
  end.

Definition flatten_start (g : ASGraph) : FlattenState :=
  let cc := count_customers g in
  mkFlatten cc (initial_queue cc) ∅ [] 0.

Definition flatten_ranks (g : ASGraph) : FlattenState :=
  flatten_loop g (size (all_asns g)) (flatten_start g).

(** [flatten_graph].  Its closing report reads [rank_to_asns[0]]; when no
    rank was produced that read is outside the vector, and the model
    returns [None]. *)
Definition flatten_graph (s : BGPSimulator) : option BGPSimulator :=
  let st := flatten_ranks (graph s) in
  match fl_rank_to_asns st with
  | [] => None
  | _ :: _ =>
      Some (mkSim (graph s) (rov_enabled_asns s) (ribs s) (message_queues s)
                  (fl_asn_to_rank st) (fl_rank_to_asns st))
  end.

(** The sum of the sizes of all RIBs, as [propagate] and [get_rib_count]
    compute it. *)
Definition count_routes (rs : gmap Z (gmap string Route)) : Z :=
  map_fold (λ _ (rib : gmap string Route) acc, acc + Z.of_nat (size rib)) 0 rs.

(** ** Receiving and the propagation driver

    The driver is written over the decision function it calls, so that the
    run with [better_route] can be compared with the run that uses
    [better_route_without_rov]; the program is the instance at
    [better_route]. *)

Section Engine.
Variable decision : gset Z → Route → Route → Z → bool.

(** Body of the inner loop of [process_messages]: one queued route. *)
Definition process_route_with (s : BGPSimulator) (asn : Z) (p : string)
    (route : Route) : BGPSimulator :=
  if bool_decide (asn ∈ rov_enabled_asns s) && rov_invalid route then s
  else
    match ribs s !! asn with
    | None => with_ribs s (rib_store asn p route (ribs s))
    | Some rib =>
        match rib !! p with
        | None => with_ribs s (rib_store asn p route (ribs s))
        | Some existing_route =>
            if decision (rov_enabled_asns s) route existing_route asn
            then with_ribs s (rib_store asn p route (ribs s))
            else s
        end
    end.

Definition process_messages_with (s : BGPSimulator) (asn : Z)
    : BGPSimulator :=
  match message_queues s !! asn with
  | None => s
  | Some queue =>
      let s' :=
        foldl (λ s (prefix_entry : string * list Route),
                 foldl (λ s route,
                          process_route_with s asn prefix_entry.1 route)
                       s prefix_entry.2)
              s (map_to_list queue) in
      with_queues s' (<[asn := ∅]> (message_queues s'))
  end.

(** The sending block shared by the three phases: every route of the RIB
    of [asn] goes to every neighbour whose edge has type [edge]. *)
Definition send_routes (edge : RelationType) (s : BGPSimulator) (asn : Z)
    : BGPSimulator :=
  match ribs s !! asn with
  | None => s
  | Some rib =>
      foldl (λ s (route_entry : string * Route),
               foldl (λ s (neighbor : Z * RelationType),
                        if decide (neighbor.2 = edge)
                        then send_route_to_neighbor s asn neighbor.1
                               route_entry.2 neighbor.2
                        else s)
                     s (get_neighbors (graph s) asn))
            s (map_to_list rib)
  end.

(** Phase 1: customers send to providers, rank by rank upwards; the next
    rank processes. *)
Definition phase_up_with (s : BGPSimulator) : BGPSimulator :=
  let ranks := rank_to_asns s in
  foldl (λ s rank,
           let s := foldl (send_routes CUSTOMER_TO_PROVIDER) s
                          (ranks !!! rank) in
           if decide (rank + 1 < length ranks)%nat
           then foldl process_messages_with s (ranks !!! (rank + 1)%nat)
           else s)
        s (seq 0 (length ranks)).

(** Phase 2: peers send to peers; the same rank processes. *)
Definition phase_peer_with (s : BGPSimulator) : BGPSimulator :=
  let ranks := rank_to_asns s in
  foldl (λ s rank,
           let s := foldl (send_routes PEER_TO_PEER) s (ranks !!! rank) in
           foldl process_messages_with s (ranks !!! rank))
        s (seq 0 (length ranks)).

(** Phase 3: providers send to customers, from the top rank down to 0;
    the rank below processes. *)
Definition phase_down_with (s : BGPSimulator) : BGPSimulator :=
  let ranks := rank_to_asns s in
  foldl (λ s rank,
           let s := foldl (send_routes PROVIDER_TO_CUSTOMER) s
                          (ranks !!! rank) in
           if decide (0 < rank)%nat
           then foldl process_messages_with s (ranks !!! (rank - 1)%nat)
           else s)
        s (reverse (seq 0 (length ranks))).

Definition run_iteration_with (s : BGPSimulator) : BGPSimulator :=
  phase_down_with (phase_peer_with (phase_up_with s)).

(** The [while (true)] loop of [propagate].  [remaining] is
    [20 - iteration]: the loop returns at the latest when [iteration]
    reaches 20, so 20 turns from [iteration = 0] cover it. *)
Fixpoint propagate_loop_with (remaining : nat) (iteration : Z)
    (prev_total_routes : Z) (s : BGPSimulator) : bool * BGPSimulator :=
  match remaining with
  | O => (false, s)
  | S remaining' =>
      let iteration := iteration + 1 in
      let s := run_iteration_with s in
      let total_routes := count_routes (ribs s) in
      if bool_decide (total_routes = prev_total_routes) then (true, s)
      else if bool_decide (iteration >= 20) then (false, s)
      else propagate_loop_with remaining' iteration total_routes s
  end.

Definition propagate_with (s : BGPSimulator) : option (bool * BGPSimulator) :=
  match flatten_graph s with
  | None => None
  | Some s => Some (propagate_loop_with 20 0 0 s)
  end.
End Engine.

Definition process_route := process_route_with better_route.
Definition process_messages := process_messages_with better_route.
Definition phase_up := phase_up_with better_route.
Definition phase_peer := phase_peer_with better_route.
Definition phase_down := phase_down_with better_route.
Definition run_iteration := run_iteration_with better_route.
Definition propagate_loop := propagate_loop_with better_route.
Definition propagate := propagate_with better_route.

Definition get_rib_count (s : BGPSimulator) : Z := count_routes (ribs s).

(** ** Customer-provider cycle check *)

Inductive Color := WHITE | GRAY | BLACK.

#[global] Instance Color_eq_dec : EqDecision Color.
Proof. solve_decision. Defined.

(** [color[v]] on a key that is not in the map reads the first enumerator. *)
#[global] Instance Color_inhabited : Inhabited Color := populate WHITE.

(** The loop over the neighbours of [u] inside [dfs]; [recurse] is the
    recursive call [dfs(v)]. *)
Fixpoint dfs_neighbors
    (recurse : gmap Z Color → Z → option (bool * gmap Z Color))
    (color : gmap Z Color) (nbrs : list (Z * RelationType))
    : option (bool * gmap Z Color) :=
  match nbrs with
  | [] => Some (false, color)
  | neighbor :: rest =>
      if decide (neighbor.2 ≠ CUSTOMER_TO_PROVIDER) then
        dfs_neighbors recurse color rest
      else if decide (color !!! neighbor.1 = GRAY) then
        Some (true, color)
      else if decide (color !!! neighbor.1 = WHITE) then
        match recurse color neighbor.1 with
        | None => None
        | Some (true, color') => Some (true, color')
        | Some (false, color') => dfs_neighbors recurse color' rest
        end
      else dfs_neighbors recurse color rest
  end.

(** The recursive lambda [dfs].  [fuel] bounds the depth of the recursion;
    [None] means the bound was too small, which [has_cycle_total] excludes
    for the bound that [has_customer_provider_cycle] passes. *)
Fixpoint dfs (g : ASGraph) (fuel : nat) (color : gmap Z Color) (u : Z)
    : option (bool * gmap Z Color) :=
  match fuel with
  | O => None
  | S fuel' =>
      match dfs_neighbors (dfs g fuel') (<[u := GRAY]> color)
                          (get_neighbors g u) with
      | None => None
      | Some (true, color') => Some (true, color')
      | Some (false, color') => Some (false, <[u := BLACK]> color')
      end
  end.

(** The loop that starts [dfs] from every AS that is still white. *)
Fixpoint dfs_from_all (g : ASGraph) (fuel : nat) (color : gmap Z Color)
    (asns : list Z) : option bool :=
  match asns with
  | [] => Some false
  | asn :: rest =>
      if decide (color !!! asn = WHITE) then
        match dfs g fuel color asn with
        | None => None
        | Some (true, _) => Some true
        | Some (false, color') => dfs_from_all g fuel color' rest
        end
      else dfs_from_all g fuel color rest
  end.

Definition has_customer_provider_cycle (g : ASGraph) : option bool :=
  dfs_from_all g (size (all_asns g)) (gset_to_gmap WHITE (all_asns g))
               (elements (all_asns g)).

(** ** Input files ([main.cpp], [ASGraph::load_from_file]) *)

Local Open Scope string_scope.

Inductive Exception := runtime_error | invalid_argument | out_of_range.

Inductive Result (A : Type) :=
  | Returned (a : A)
  | Thrown (e : Exception).
Arguments Returned {A} a.
Arguments Thrown {A} e.

(** [std::getline(stream, str, delim)] on the rest of a stream: fails when
    nothing is left, else reads up to the delimiter, which it discards. *)
Fixpoint read_until (delim : ascii) (input : string) : string * string :=
  match input with
  | "" => ("", "")
  | String c rest =>
      if decide (c = delim) then ("", rest)
      else let '(field, rest') := read_until delim rest in
           (String c field, rest')
  end.

Definition getline (delim : ascii) (input : string)
    : option (string * string) :=
  match input with
  | "" => None
  | _ => Some (read_until delim input)
  end.

(** The lines that [while (std::getline(file, line))] goes through. *)
Fixpoint lines_of (input : string) : list string :=
  match input with
  | "" => []
  | String c rest =>
      if decide (c = "010"%char) then "" :: lines_of rest
      else match lines_of rest with
           | [] => [String c ""]
           | line :: others => String c line :: others
           end
  end.

(** [isspace] in the C locale. *)
Definition is_space (c : ascii) : bool :=
  bool_decide (c ∈ [" "; "009"; "010"; "011"; "012"; "013"]%char).

Definition digit_value (c : ascii) : option Z :=
  let n := Z.of_nat (nat_of_ascii c) in
  if decide (48 ≤ n ≤ 57)%Z then Some (n - 48)%Z else None.

Fixpoint skip_space (input : string) : string :=
  match input with
  | String c rest => if is_space c then skip_space rest else input
  | "" => ""
  end.

Fixpoint read_digits (acc : Z) (input : string) : Z * string :=
  match input with
  | String c rest =>
      match digit_value c with
      | Some d => read_digits (10 * acc + d)%Z rest
      | None => (acc, input)
      end
  | "" => (acc, "")
  end.

(** Decimal integer at the head of the input, as [strtol] and [operator>>]
    read it: white space, an optional sign, at least one digit. *)
Definition read_integer (input : string) : option (Z * string) :=
  let input := skip_space input in
  let '(negative, digits) :=
    match input with
    | String "-" rest => (true, rest)
    | String "+" rest => (false, rest)
    | _ => (false, input)
    end in
  match digits with
  | String c _ =>
      match digit_value c with
      | Some _ =>
          let '(v, rest) := read_digits 0 digits in
          Some (if negative then (- v)%Z else v, rest)
      | None => None
      end
  | "" => None
  end.

Definition int_range (v : Z) : Prop := (- 2147483648 ≤ v ≤ 2147483647)%Z.

(** [iss >> n] for an [int]: fails on no digits and on overflow. *)
Definition extract_int (input : string) : option (Z * string) :=
  match read_integer input with
  | Some (v, rest) => if decide (int_range v) then Some (v, rest) else None
  | None => None
  end.

(** [std::stoi]: throws [invalid_argument] without digits, [out_of_range]
    when the value does not fit an [int]; text after the number is
    ignored. *)
Definition stoi (str : string) : Result Z :=
  match read_integer str with
  | Some (v, _) =>
      if decide (int_range v) then Returned v else Thrown out_of_range
  | None => Thrown invalid_argument
  end.

Fixpoint replace_char (old new : ascii) (str : string) : string :=
  match str with
  | "" => ""
  | String c rest =>
      String (if decide (c = old) then new else c) (replace_char old new rest)
  end.

(** [str.find(needle) != npos]. *)
Fixpoint contains (needle str : string) : bool :=
  String.prefix needle str ||
  match str with
  | "" => false
  | String _ rest => contains needle rest
  end.

(** The file system as the program sees it: [open_file name] is the
    content of a file that can be opened for reading, [None] when it
    cannot; [can_create name] tells whether the file can be opened for
    writing. *)
Record Files := mkFiles {
  open_file : string → option string;
  can_create : string → bool
}.

(** Body of the loop of [load_from_file] for one line. *)
Definition load_relationship_line (g : ASGraph) (line : string) : ASGraph :=
  match line with
  | "" => g
  | String "#" _ => g
  | _ =>
      let line := replace_char "|" " " line in
      match extract_int line with
      | None => g
      | Some (asn1, rest) =>
          match extract_int rest with
          | None => g
          | Some (asn2, rest) =>
              match extract_int rest with
              | None => g
              | Some (rel_type_int, _) =>
                  if decide (rel_type_int = -1)%Z then
                    add_relationship g asn1 asn2 PROVIDER_TO_CUSTOMER
                  else if decide (rel_type_int = 0)%Z then
                    add_relationship g asn1 asn2 PEER_TO_PEER
                  else g
              end
          end
      end
  end.

Definition load_from_file (fs : Files) (g : ASGraph) (filename : string)
    : Result ASGraph :=
  match open_file fs filename with
  | None => Thrown runtime_error
  | Some content => Returned (foldl load_relationship_line g (lines_of content))
  end.

Definition is_blank (c : ascii) : bool :=
  bool_decide (c ∈ [" "; "009"; "013"; "010"]%char).

Fixpoint trim_left (str : string) : string :=
  match str with
  | String c rest => if is_blank c then trim_left rest else str
  | "" => ""
  end.

Fixpoint trim_right (str : string) : string :=
  match str with
  | "" => ""
  | String c rest =>
      match trim_right rest with
      | "" => if is_blank c then "" else String c ""
      | rest' => String c rest'
      end
  end.

Definition load_rov_asn_line (rov_asns : gset Z) (line : string) : gset Z :=
  let line := trim_right (trim_left line) in
  match line with
  | "" => rov_asns
  | String "#" _ => rov_asns
  | _ =>
      match stoi line with
      | Returned asn => {[asn]} ∪ rov_asns
      | Thrown _ => rov_asns
      end
  end.

Definition load_rov_asns (fs : Files) (filename : string) : gset Z :=
  match open_file fs filename with
  | None => ∅
  | Some content => foldl load_rov_asn_line ∅ (lines_of content)
  end.

(** Body of the loop of [load_announcements] for one line. *)
Definition load_announcement_line (sim : BGPSimulator) (line : string)
    : Result BGPSimulator :=
  match getline "," line with
  | None => Returned sim
  | Some (seed_asn_str, rest) =>
      match getline "," rest with
      | None => Returned sim
      | Some (p, rest) =>
          match getline "010" rest with
          | None => Returned sim
          | Some (rov_invalid_str, _) =>
              match stoi seed_asn_str with
              | Thrown e => Thrown e
              | Returned seed_asn =>
                  let rov_inv :=
                    contains "True" rov_invalid_str
                    || contains "true" rov_invalid_str
                    || contains "1" rov_invalid_str in
                  Returned (seed_announcement sim seed_asn p rov_inv)
              end
          end
      end
  end.

Fixpoint load_announcement_lines (sim : BGPSimulator) (lines : list string)
    : Result BGPSimulator :=
  match lines with
  | [] => Returned sim
  | line :: rest =>
      match load_announcement_line sim line with
      | Thrown e => Thrown e
      | Returned sim => load_announcement_lines sim rest
      end
  end.

Definition load_announcements (fs : Files) (sim : BGPSimulator)
    (filename : string) : Result BGPSimulator :=
  match open_file fs filename with
  | None => Thrown runtime_error
  | Some content =>
      (* the first line is the header *)
      load_announcement_lines sim (tail (lines_of content))
  end.

(** ** The program *)

(** The options after [getopt_long]; an option that was not given is the
    empty string. *)
Record Options := mkOptions {
  relationships_file : string;
  announcements_file : string;
  rov_asns_file : string
}.

(** How a run ends: the exit code and, when [ribs.csv] was written, the
    RIBs it was written from (its rendering is not modelled); or the
    out-of-range read of [flatten_graph]. *)
Inductive Outcome :=
  | Exit (code : Z) (ribs_csv : option (gmap Z (gmap string Route)))
  | OutOfRange.

(** [main] from the validation of the required arguments on.  [None] only
    when the cycle check runs out of fuel, which [main_total] excludes. *)
Definition main (fs : Files) (opts : Options) : option Outcome :=
  if bool_decide (relationships_file opts = "")
     || bool_decide (announcements_file opts = "")
  then Some (Exit 1 None)
  else
    match load_from_file fs empty_graph (relationships_file opts) with
    | Thrown _ => Some (Exit 1 None)
    | Returned g =>
        match has_customer_provider_cycle g with
        | None => None
        | Some true => Some (Exit 1 None)
        | Some false =>
            let sim := new_simulator g in
            let sim :=
              if negb (bool_decide (rov_asns_file opts = ""))
              then set_rov_asns sim (load_rov_asns fs (rov_asns_file opts))
              else sim in
            match load_announcements fs sim (announcements_file opts) with
            | Thrown _ => Some (Exit 1 None)
            | Returned sim =>
                match propagate sim with
                | None => Some OutOfRange
                | Some (false, _) => Some (Exit 1 None)
                | Some (true, sim) =>
                    if can_create fs "ribs.csv"
                    then Some (Exit 0 (Some (ribs sim)))
                    else Some (Exit 1 None)
                end
            end
        end
    end.

Local Close Scope string_scope.

(** ** Runs of the simulator

    A run creates the simulator over the loaded graph, sets the ROV set,
    seeds the announcements in order and then propagates.  Every write to
    the RIBs and queues during propagation is one of the steps below. *)

Definition Announcement : Type := Z * string * bool.

Definition seed_all (s : BGPSimulator) (anns : list Announcement)
    : BGPSimulator :=
  foldl (λ s (a : Announcement), seed_announcement s a.1.1 a.1.2 a.2) s anns.

Inductive step : BGPSimulator → BGPSimulator → Prop :=
  | step_flatten s s' :
      flatten_graph s = Some s' → step s s'
  | step_send s asn rib p route nbr rel :
      ribs s !! asn = Some rib → rib !! p = Some route →
      step s (send_route_to_neighbor s asn nbr route rel)
  | step_receive s asn queue p routes route :
      message_queues s !! asn = Some queue → queue !! p = Some routes →
      route ∈ routes →
      step s (process_route s asn p route)
  | step_clear s asn :
      step s (with_queues s (<[asn := ∅]> (message_queues s))).

Definition run_start (g : ASGraph) (rov : gset Z) (anns : list Announcement)
    : BGPSimulator :=
  seed_all (set_rov_asns (new_simulator g) rov) anns.

(** The states a run goes through: while seeding, and from the seeded
    state on. *)
Definition run_state (g : ASGraph) (rov : gset Z) (anns : list Announcement)
    (s : BGPSimulator) : Prop :=
  (∃ k, s = run_start g rov (take k anns)) ∨ rtc step (run_start g rov anns) s.

(** Every route of every RIB satisfies [P asn prefix route]. *)
Definition ribs_all (P : Z → string → Route → Prop) (s : BGPSimulator) : Prop :=
  ∀ asn rib p route,
    ribs s !! asn = Some rib → rib !! p = Some route → P asn p route.

(** Every queued route satisfies [P asn prefix route]. *)
Definition queues_all (P : Z → string → Route → Prop) (s : BGPSimulator)
    : Prop :=
  ∀ asn queue p routes route,
    message_queues s !! asn = Some queue → queue !! p = Some routes →
    route ∈ routes → P asn p route.

(** ** Notions of the specification *)

(** Local preference by learning source (section 4.3, criterion 2). *)
Definition local_pref (t : AnnouncementType) : Z :=
  match t with
  | LEARNED_FROM_CUSTOMER => 2
  | LEARNED_FROM_PEER => 1
  | LEARNED_FROM_PROVIDER => 0
  end.

(** The next-hop ASN of a non-empty path (section 4.3, criterion 4). *)
Definition next_hop_asn (p : list Z) : option Z :=
  match p with
  | [] => None
  | [a] => Some a
  | _ :: b :: _ => Some b
  end.

(** Candidate [C] is strictly better than incumbent [E] at an AS that is
    ROV-enabled or not: the first criterion that separates them is in
    favour of [C]. *)
Inductive strictly_better (rov_enabled : bool) (C E : Route) : Prop :=
  | better_by_rov :
      rov_enabled = true → rov_invalid C ≠ rov_invalid E →
      rov_invalid C = false →
      strictly_better rov_enabled C E
  | better_by_pref :
      ¬ (rov_enabled = true ∧ rov_invalid C ≠ rov_invalid E) →
      local_pref (announcement_type C) > local_pref (announcement_type E) →
      strictly_better rov_enabled C E
  | better_by_length :
      ¬ (rov_enabled = true ∧ rov_invalid C ≠ rov_invalid E) →
      local_pref (announcement_type C) = local_pref (announcement_type E) →
      (length (as_path C) < length (as_path E))%nat →
      strictly_better rov_enabled C E
  | better_by_next_hop c e :
      ¬ (rov_enabled = true ∧ rov_invalid C ≠ rov_invalid E) →
      local_pref (announcement_type C) = local_pref (announcement_type E) →
      length (as_path C) = length (as_path E) →
      next_hop_asn (as_path C) = Some c → next_hop_asn (as_path E) = Some e →
      c < e →
      strictly_better rov_enabled C E.

(** The total after [k] iterations of the loop of [propagate] started in
    [s], and the value of [prev_total_routes] at that point (0 before the
    first iteration). *)
Definition total_after (s : BGPSimulator) (k : nat) : Z :=
  count_routes (ribs (Nat.iter k run_iteration s)).

Definition prev_total (s : BGPSimulator) (k : nat) : Z :=
  match k with
  | O => 0
  | S _ => total_after s k
  end.

(** Graphs the program can build: [add_relationship] from the empty graph,
    and the insertion into [all_asns] that [seed_announcement] does. *)
Inductive built_graph : ASGraph → Prop :=
  | built_empty : built_graph empty_graph
  | built_add g asn1 asn2 rel :
      built_graph g → built_graph (add_relationship g asn1 asn2 rel)
  | built_seed g asn :
      built_graph g →
      built_graph (mkASGraph (adjacency g) ({[asn]} ∪ all_asns g)).

(** [c] is a customer of [a]: [a] has an outgoing [PROVIDER_TO_CUSTOMER]
    entry for [c]. *)
Definition customer_of (g : ASGraph) (c a : Z) : Prop :=
  (c, PROVIDER_TO_CUSTOMER) ∈ get_neighbors g a.

(** A customer→provider edge from [c] to [a]. *)
Definition cp_edge (g : ASGraph) (c a : Z) : Prop :=
  (a, CUSTOMER_TO_PROVIDER) ∈ get_neighbors g c.

Definition acyclic (g : ASGraph) : Prop := ∀ a, ¬ tc (cp_edge g) a a.

(** [chain g n a]: a chain of [n] customer→provider edges ends at [a]. *)
Inductive chain (g : ASGraph) : nat → Z → Prop :=
  | chain_here a : chain g 0 a
  | chain_edge n c a : chain g n c → cp_edge g c a → chain g (S n) a.

(** The shape of the run invariants: the ROV set is [rov], every RIB
    route satisfies [P] and every queued route satisfies [Q]. *)
Definition run_invariant (rov : gset Z) (P Q : Z → string → Route → Prop)
    (s : BGPSimulator) : Prop :=
  rov_enabled_asns s = rov ∧ ribs_all P s ∧ queues_all Q s.

(** A RIB route at an ROV-enabled AS is not [rov_invalid]. *)
Definition rov_clean (rov : gset Z) (asn : Z) (p : string) (r : Route) : Prop :=
  asn ∈ rov → rov_invalid r = false.

Definition any_route (asn : Z) (p : string) (r : Route) : Prop := True.

Definition no_route (asn : Z) (p : string) (r : Route) : Prop := False.

(** The invariant of [ASGraph] that [add_relationship] maintains: both
    ends of every adjacency entry are in [all_asns], and [a] lists [b] as
    a customer as many times as [b] lists [a] as a provider. *)
Definition count_entry (e : Z * RelationType) (l : list (Z * RelationType))
    : nat :=
  length (filter (λ x, x = e) l).

Definition wf_graph (g : ASGraph) : Prop :=
  (∀ a nb rel, (nb, rel) ∈ get_neighbors g a →
               a ∈ all_asns g ∧ nb ∈ all_asns g)
  ∧ (∀ a b, count_entry (b, PROVIDER_TO_CUSTOMER) (get_neighbors g a)
            = count_entry (a, CUSTOMER_TO_PROVIDER) (get_neighbors g b)).

(** Number of ASes that the cycle check has not reached yet. *)
Definition white_count (g : ASGraph) (color : gmap Z Color) : nat :=
  length (filter (λ a, color !!! a = WHITE) (elements (all_asns g))).

(** ** Notions for the rank index *)

(** Number of customer entries of [a] whose AS has no rank yet. *)
Definition unranked_customers (g : ASGraph) (rk : gmap Z nat) (a : Z) : Z :=
  Z.of_nat (length (filter (λ e : Z * RelationType,
                              e.2 = PROVIDER_TO_CUSTOMER ∧ rk !! e.1 = None)
                           (get_neighbors g a))).

(** [a] is due at rank [r]: its customers are ranked below [r], and one of
    them is ranked just below when [r] is not 0. *)
Definition due (g : ASGraph) (rk : gmap Z nat) (r : nat) (a : Z) : Prop :=
  (∀ c, customer_of g c a → ∃ j, rk !! c = Some j ∧ (j < r)%nat)
  ∧ (∀ r', r = S r' → ∃ c, customer_of g c a ∧ rk !! c = Some r').

(** The invariant of the loops of [flatten_graph]: [n] elements at the
    front of the queue belong to the level being ranked, [pending] are the
    neighbours of the AS just ranked that the inner loop has not visited
    yet. *)
Record flatten_inv (g : ASGraph) (st : FlattenState) (n : nat)
    (pending : list (Z * RelationType)) : Prop := {
  fi_rank : ∀ a k, fl_asn_to_rank st !! a = Some k →
                   (k ≤ current_rank st)%nat ∧ a ∈ all_asns g
                   ∧ due g (fl_asn_to_rank st) k a;
  fi_count : ∀ a, a ∈ all_asns g →
                  customer_count st !!! a
                  = unranked_customers g (fl_asn_to_rank st) a
                    + Z.of_nat (count_entry (a, CUSTOMER_TO_PROVIDER) pending);
  fi_nodup : NoDup (zero_customer_queue st);
  fi_queue : ∀ a, a ∈ zero_customer_queue st
                  ↔ a ∈ all_asns g ∧ fl_asn_to_rank st !! a = None
                    ∧ customer_count st !!! a = 0;
  fi_front : ∀ i a, zero_customer_queue st !! i = Some a → (i < n)%nat →
                    due g (fl_asn_to_rank st) (current_rank st) a;
  fi_back : ∀ i a, zero_customer_queue st !! i = Some a → (n ≤ i)%nat →
                   due g (fl_asn_to_rank st) (S (current_rank st)) a;
  fi_len : (n ≤ length (zero_customer_queue st))%nat
}.

(** The rank groups hold exactly the ASes of each rank. *)
Definition groups_inv (st : FlattenState) (len : nat) : Prop :=
  length (fl_rank_to_asns st) = len
  ∧ ∀ a k, fl_asn_to_rank st !! a = Some k
           ↔ ∃ l, fl_rank_to_asns st !! k = Some l ∧ a ∈ l.

(** ASes without a rank. *)
Definition unranked_count (g : ASGraph) (st : FlattenState) : nat :=
  length (filter (λ a, fl_asn_to_rank st !! a = None)
                 (elements (all_asns g))).

(** A list of ASes in which each is a customer of the next. *)
Fixpoint is_chain (g : ASGraph) (l : list Z) : Prop :=
  match l with
  | [] => True
  | c :: l' =>
      match l' with
      | [] => True
      | a :: _ => cp_edge g c a ∧ is_chain g l'
      end
  end.

(** ** Scenarios of section 8 of the specification *)

(** S1: AS 1 is the provider of 2 and of 3. *)
Definition triangle : ASGraph :=
  add_relationship
    (add_relationship empty_graph 1 2 PROVIDER_TO_CUSTOMER)
    1 3 PROVIDER_TO_CUSTOMER.

(** S2: 1 provider of 2, 3 provider of 4, 2 and 3 peers. *)
Definition valley : ASGraph :=
  add_relationship
    (add_relationship
       (add_relationship empty_graph 1 2 PROVIDER_TO_CUSTOMER)
       3 4 PROVIDER_TO_CUSTOMER)
    2 3 PEER_TO_PEER.

(** S3: 1 provider of 2. *)
Definition pair : ASGraph :=
  add_relationship empty_graph 1 2 PROVIDER_TO_CUSTOMER.

(** S4: 10 and 20 providers of 40, 30 provider of 10 and of 20. *)
Definition diamond : ASGraph :=
  add_relationship
    (add_relationship
       (add_relationship
          (add_relationship empty_graph 10 40 PROVIDER_TO_CUSTOMER)
          20 40 PROVIDER_TO_CUSTOMER)
       30 10 PROVIDER_TO_CUSTOMER)
    30 20 PROVIDER_TO_CUSTOMER.

(** Levels of the ASes of S4, to show that it has no cycle. *)
Definition diamond_level (a : Z) : nat :=
  if decide (a = 30) then 2%nat else if decide (a = 40) then 0%nat else 1%nat.

(** ** Input files used as examples *)

Definition unlines (lines : list string) : string :=
  fold_right (λ line rest, (line +:+ String "010" rest)%string) ""%string lines.

(** The relationships of S3, an announcements file, an optional ROV file;
    any other name cannot be opened. *)
Definition example_files (announcements : string) (rov : option string)
    : Files :=
  mkFiles (λ name, if decide (name = "rel.txt") then
                     Some (unlines ["# provider|customer|-1"; "1|2|-1|bgp"])
                   else if decide (name = "anns.csv") then Some announcements
                   else if decide (name = "rov.txt") then rov
                   else None)
          (λ _, true).

Definition example_options (rov_file : string) : Options :=
  mkOptions "rel.txt" "anns.csv" rov_file.

(** ** Notions for the further properties *)

(** ** Further notions used for the properties of the code *)

(** The route comes from one of the announcements for its prefix: same
    prefix as the key it is stored under, the origin at the end of the path,
    the flag of the announcement. *)
Definition from_announcement (anns : list Announcement) (asn : Z) (p : string)
    (r : Route) : Prop :=
  prefix r = p
  ∧ ∃ a : Announcement,
      a ∈ anns ∧ a.1.2 = p ∧ last (as_path r) = Some a.1.1
      ∧ rov_invalid r = a.2.

(** The AS that holds or is about to receive the route is the head of its
    path. *)
Definition owner_is_head (asn : Z) (p : string) (r : Route) : Prop :=
  head (as_path r) = Some asn.

(** The RIB entry of [asn] for prefix [p], if any. *)
Definition rib_entry (s : BGPSimulator) (asn : Z) (p : string) : option Route :=
  match ribs s !! asn with
  | Some rib => rib !! p
  | None => None
  end.

(** The routes queued at [asn] for prefix [p]. *)
Definition queued (s : BGPSimulator) (asn : Z) (p : string) : list Route :=
  match message_queues s !! asn with
  | Some queue =>
      match queue !! p with
      | Some routes => routes
      | None => []
      end
  | None => []
  end.

(** What the body of the loop of [process_messages] does to the RIB entry
    of the prefix of the route: drop at an ROV-enabled AS, install when
    there is no entry, replace when [better_route] says so. *)
Definition select_route (rov : gset Z) (asn : Z) (entry : option Route)
    (route : Route) : option Route :=
  if bool_decide (asn ∈ rov) && rov_invalid route then entry
  else
    match entry with
    | None => Some route
    | Some existing_route =>
        if better_route rov route existing_route asn then Some route
        else entry
    end.

(** The queued routes that the ingress drop of [asn] lets through. *)
Definition admitted (rov : gset Z) (asn : Z) (routes : list Route)
    : list Route :=
  filter (λ r, bool_decide (asn ∈ rov) && rov_invalid r = false) routes.

(** The invariant of the colouring in the cycle check: the finished
    (black) ASes are closed under customer→provider edges, and none of
    them is on a cycle. *)
Definition black_closed (g : ASGraph) (color : gmap Z Color) : Prop :=
  (∀ x y, color !!! x = BLACK → cp_edge g x y → color !!! y = BLACK)
  ∧ (∀ x, color !!! x = BLACK → ¬ tc (cp_edge g) x x).

(** Every AS on the recursion stack (gray) reaches [u]. *)
Definition gray_reach (g : ASGraph) (color : gmap Z Color) (u : Z) : Prop :=
  ∀ x, color !!! x = GRAY → rtc (cp_edge g) x u.

(** What a call of [dfs] that finds no cycle may change: white ASes may
    turn black, nothing else. *)
Definition finished_more (color color' : gmap Z Color) : Prop :=
  (∀ x, color !!! x ≠ WHITE → color' !!! x = color !!! x)
  ∧ (∀ x, color !!! x = WHITE → color' !!! x = WHITE ∨ color' !!! x = BLACK).

(** A customer-provider cycle whose first AS is a customer of its last:
    the same graph with one more edge from [asn1] up to [asn2]. *)
Definition ring3 : ASGraph :=
  add_relationship
    (add_relationship
       (add_relationship empty_graph 1 2 PROVIDER_TO_CUSTOMER)
       2 3 PROVIDER_TO_CUSTOMER)
    3 1 PROVIDER_TO_CUSTOMER.

(** A route as [ribs.csv] may show it: stored under its own prefix, at the
    AS that heads its path, with no AS twice on the path. *)
Definition well_formed_route (asn : Z) (p : string) (r : Route) : Prop :=
  prefix r = p ∧ head (as_path r) = Some asn ∧ NoDup (as_path r).

(** The graph that [load_from_file] builds from the relationships file of
    the options, when the file can be opened. *)
Definition relationships_of (fs : Files) (opts : Options) : option ASGraph :=
  match open_file fs (relationships_file opts) with
  | Some content =>
      Some (foldl load_relationship_line empty_graph (lines_of content))
  | None => None
  end.

(** A relationships file with a customer-provider cycle 1 → 2 → 3 → 1. *)
Definition ring_files : Files :=
  mkFiles (λ name, if decide (name = "rel.txt"%string) then
                     Some (unlines ["2|1|-1"; "3|2|-1"; "1|3|-1"]%string)
                   else if decide (name = "anns.csv"%string) then
                     Some (unlines ["asn,prefix,rov_invalid"; "1,p,False"]%string)
                   else None)
          (λ _, true).

(** The steps of [propagate] with what the three phases guarantee of a
    send: the receiver and the relationship are an entry of the adjacency
    list of the sender. *)
Inductive link_step : BGPSimulator → BGPSimulator → Prop :=
  | link_flatten s s' :
      flatten_graph s = Some s' → link_step s s'
  | link_send s asn rib p route nbr rel :
      ribs s !! asn = Some rib → rib !! p = Some route →
      (nbr, rel) ∈ get_neighbors (graph s) asn →
      link_step s (send_route_to_neighbor s asn nbr route rel)
  | link_receive s asn queue p routes route :
      message_queues s !! asn = Some queue → queue !! p = Some routes →
      route ∈ routes →
      link_step s (process_route s asn p route)
  | link_clear s asn :
      link_step s (with_queues s (<[asn := ∅]> (message_queues s))).

(** [hops g path rels]: [path] runs along adjacency entries of [g]; the
    relationship of the entry over which the i-th AS of the path received
    the route from the (i+1)-th is the i-th element of [rels], as the
    sender has it. *)
Fixpoint hops (g : ASGraph) (path : list Z) (rels : list RelationType)
    : Prop :=
  match path, rels with
  | [_], [] => True
  | receiver :: (sender :: _) as path', rel :: rels' =>
      (receiver, rel) ∈ get_neighbors g sender ∧ hops g path' rels'
  | _, _ => False
  end.

Definition all_up (rels : list RelationType) : bool :=
  forallb (λ rel, bool_decide (rel = CUSTOMER_TO_PROVIDER)) rels.

(** Read from the AS that holds the route back to the origin: hops down
    to a customer, then at most one hop across a peering, then only hops
    up to a provider.  From the origin on: up, at most once across, down. *)
Fixpoint valley_free (rels : list RelationType) : bool :=
  match rels with
  | [] => true
  | PROVIDER_TO_CUSTOMER :: rels' => valley_free rels'
  | _ :: rels' => all_up rels'
  end.

(** How a route with these hops was learned by the AS that holds it. *)
Definition learned_over (rels : list RelationType) : AnnouncementType :=
  match rels with
  | [] => LEARNED_FROM_CUSTOMER
  | rel :: _ => relationship_to_announcement_type rel
  end.

Definition valley_free_route (g : ASGraph) (asn : Z) (p : string)
    (r : Route) : Prop :=
  head (as_path r) = Some asn
  ∧ ∃ rels, hops g (as_path r) rels
            ∧ valley_free rels = true
            ∧ announcement_type r = learned_over rels.

(** The relationship that [add_relationship] stores for the other end. *)
Definition reverse_rel (rel : RelationType) : RelationType :=
  match rel with
  | PROVIDER_TO_CUSTOMER => CUSTOMER_TO_PROVIDER
  | CUSTOMER_TO_PROVIDER => PROVIDER_TO_CUSTOMER
  | PEER_TO_PEER => PEER_TO_PEER
  end.

(** The announcements for [p] at [asn], in the order of the file. *)
Definition announced (anns : list Announcement) (asn : Z) (p : string)
    : list Announcement :=
  filter (λ a : Announcement, a.1.1 = asn ∧ a.1.2 = p) anns.

(** What the phases of [propagate] use of the rank index: every neighbour
    is ranked, providers are ranked above and customers below, and the
    rank groups hold exactly the ASes of each rank. *)
Definition ranking (g : ASGraph) (rank : gmap Z nat)
    (groups : list (list Z)) : Prop :=
  (∀ a nb rel, (nb, rel) ∈ get_neighbors g a → is_Some (rank !! nb))
  ∧ (∀ a b r, rank !! a = Some r → cp_edge g a b →
              ∃ j, rank !! b = Some j ∧ (r < j)%nat)
  ∧ (∀ a c r, rank !! a = Some r → customer_of g c a →
              ∃ j, rank !! c = Some j ∧ (j < r)%nat)
  ∧ (∀ a k, rank !! a = Some k ↔ ∃ l, groups !! k = Some l ∧ a ∈ l).

(** The state works on the adjacency lists of [g] with the rank groups
    [groups], and every AS with a queued route satisfies [C]. *)
Definition drained_to (g : ASGraph) (groups : list (list Z))
    (C : Z → Prop) (s : BGPSimulator) : Prop :=
  adjacency (graph s) = adjacency g
  ∧ rank_to_asns s = groups
  ∧ ∀ a p, queued s a p ≠ [] → C a.

(** Nothing is queued anywhere. *)
Definition queues_empty (s : BGPSimulator) : Prop :=
  ∀ a p, queued s a p = [].

(** The state of phase 1 of the first iteration before the ASes of rank
    [r] send, for an announcement of [p] at [o]: so far every route was
    learned from a customer; every AS up to rank [r] that [o] reaches
    along customer→provider edges has a route for [p]; and every provider
    above rank [r] of such an AS below rank [r] has a route for [p] in its
    queue. *)
Definition climbing (g : ASGraph) (rov : gset Z) (anns : list Announcement)
    (rank : gmap Z nat) (groups : list (list Z)) (o : Z) (p : string)
    (r : nat) (s : BGPSimulator) : Prop :=
  rtc link_step (run_start g rov anns) s
  ∧ rank_to_asns s = groups
  ∧ (∀ a q route, rib_entry s a q = Some route →
                  announcement_type route = LEARNED_FROM_CUSTOMER)
  ∧ (∀ a q route, route ∈ queued s a q →
                  announcement_type route = LEARNED_FROM_CUSTOMER)
  ∧ is_Some (rib_entry s o p)
  ∧ (∀ a k, rtc (cp_edge g) o a → rank !! a = Some k → (k ≤ r)%nat →
            is_Some (rib_entry s a p))
  ∧ (∀ a b ka kb,
       rtc (cp_edge g) o a → cp_edge g a b →
       rank !! a = Some ka → rank !! b = Some kb →
       (ka < r)%nat → (r < kb)%nat → queued s b p ≠ []).

(** [a] lists [c] as a peer. *)
Definition peer_edge (g : ASGraph) (a c : Z) : Prop :=
  (c, PEER_TO_PEER) ∈ get_neighbors g a.

(** [a] lists [b] as a customer. *)
Definition down_edge (g : ASGraph) (a b : Z) : Prop :=
  (b, PROVIDER_TO_CUSTOMER) ∈ get_neighbors g a.

(** [c] is reached from [o] by going up to providers and then at most
    once across a peering. *)
Definition across (g : ASGraph) (o c : Z) : Prop :=
  rtc (cp_edge g) o c ∨ ∃ a, rtc (cp_edge g) o a ∧ peer_edge g a c.

(** There is a valley-free walk from [o] to [b]: up to providers, at most
    once across a peering, down to customers. *)
Definition valley_reach (g : ASGraph) (o b : Z) : Prop :=
  ∃ c, across g o c ∧ rtc (down_edge g) c b.

(** Every AS on the path of a RIB route holds a route for the prefix, and
    so does every AS behind the receiver on the path of a queued route. *)
Definition holders (s : BGPSimulator) : Prop :=
  (∀ a q route, rib_entry s a q = Some route →
                ∀ x, x ∈ as_path route →
                     is_Some (rib_entry s x (prefix route)))
  ∧ (∀ a q route, route ∈ queued s a q →
                  ∀ x, x ∈ tail (as_path route) →
                       is_Some (rib_entry s x (prefix route))).

(** The prefix has reached the AS: it holds a route for it or has one in
    its queue. *)
Definition reached (p : string) (s : BGPSimulator) (c : Z) : Prop :=
  is_Some (rib_entry s c p) ∨ queued s c p ≠ [].

(** Every AS that [o] reaches upwards holds a route for [p] that it
    learned from a customer. *)
Definition climbed (g : ASGraph) (o : Z) (p : string) (s : BGPSimulator)
    : Prop :=
  ∀ a, rtc (cp_edge g) o a →
       ∃ route, rib_entry s a p = Some route
                ∧ announcement_type route = LEARNED_FROM_CUSTOMER.

(** ** Writing [ribs.csv] ([BGPSimulator::export_ribs_csv]) *)

Local Open Scope string_scope.

Definition digit_char (d : Z) : ascii := ascii_of_nat (48 + Z.to_nat d).

(** The decimal digits of [n ≥ 0], most significant first, in front of
    [acc]. *)
Fixpoint digits (fuel : nat) (n : Z) (acc : string) : string :=
  match fuel with
  | O => acc
  | S fuel' =>
      let acc' := String (digit_char (n mod 10)) acc in
      if bool_decide (n < 10) then acc' else digits fuel' (n / 10) acc'
  end.

(** [stream << n] for an [int]. *)
Definition to_string (n : Z) : string :=
  let fuel := S (Z.to_nat (Z.log2 (Z.abs n))) in
  if bool_decide (n < 0) then String "-" (digits fuel (- n) "")
  else digits fuel n "".

(** The loop over [as_path] from index [i] on. *)
Fixpoint render_elements (i : nat) (path : list Z) : string :=
  match path with
  | [] => ""
  | asn :: rest =>
      (if decide (0 < i)%nat then ", " else "")
      +:+ to_string asn +:+ render_elements (S i) rest
  end.

(** [path_str]: the path as a tuple, with the comma of a 1-tuple. *)
Definition render_path (path : list Z) : string :=
  "(" +:+ render_elements 0 path
  +:+ (if decide (length path = 1%nat) then "," else "") +:+ ")".

(** The vector [entries] before it is sorted. *)
Definition csv_entries (rs : gmap Z (gmap string Route))
    : list (Z * string * string) :=
  map_to_list rs ≫= λ asn_entry,
    (λ route_entry : string * Route,
       (asn_entry.1, route_entry.1, render_path (as_path route_entry.2)))
    <$> map_to_list asn_entry.2.

(** [operator<] of [std::tuple<int, std::string, std::string>]. *)
Definition tuple_ltb (x y : Z * string * string) : bool :=
  bool_decide (x.1.1 < y.1.1)
  || (negb (bool_decide (y.1.1 < x.1.1))
      && (String.ltb x.1.2 y.1.2
          || (negb (String.ltb y.1.2 x.1.2) && String.ltb x.2 y.2))).

(** [x] may stand before [y] in the sorted vector: [y < x] is false. *)
Definition not_after (x y : Z * string * string) : Prop :=
  tuple_ltb y x = false.

#[global] Instance not_after_dec x y : Decision (not_after x y).
Proof. unfold not_after. apply _. Defined.

(** [std::sort(entries.begin(), entries.end())]. *)
Definition sorted_entries (rs : gmap Z (gmap string Route))
    : list (Z * string * string) :=
  merge_sort not_after (csv_entries rs).

Definition quote : string := String "034" "".

Definition render_row (entry : Z * string * string) : string :=
  to_string entry.1.1 +:+ "," +:+ entry.1.2 +:+ "," +:+ quote
  +:+ entry.2 +:+ quote +:+ String "010" "".

(** The text that [export_ribs_csv] writes, or the exception when the
    file cannot be created. *)
Definition export_ribs_csv (fs : Files) (filename : string)
    (s : BGPSimulator) : Result string :=
  if can_create fs filename then
    Returned ("asn,prefix,as_path" +:+ String "010" ""
              +:+ foldr (λ entry rest, render_row entry +:+ rest) ""
                        (sorted_entries (ribs s)))
  else Thrown runtime_error.

Local Close Scope string_scope.

(** The order of the rows: by ASN, then by prefix as a byte string. *)
Definition row_before (x y : Z * string * string) : Prop :=
  x.1.1 < y.1.1 ∨ (x.1.1 = y.1.1 ∧ String.ltb x.1.2 y.1.2 = true).

(** ** Graph statistics ([ASGraph::print_stats]) *)

(** The numbers that [print_stats] prints. *)
Record Stats := mkStats {
  stats_asns : nat;
  customer_relationships : Z;
  peer_relationships : Z;
  provider_relationships : Z
}.

(** The [switch] on the relationship of one neighbour. *)
Definition tally (st : Stats) (neighbor : Z * RelationType) : Stats :=
  match neighbor.2 with
  | CUSTOMER_TO_PROVIDER =>
      mkStats (stats_asns st) (customer_relationships st + 1)
              (peer_relationships st) (provider_relationships st)
  | PEER_TO_PEER =>
      mkStats (stats_asns st) (customer_relationships st)
              (peer_relationships st + 1) (provider_relationships st)
  | PROVIDER_TO_CUSTOMER =>
      mkStats (stats_asns st) (customer_relationships st)
              (peer_relationships st) (provider_relationships st + 1)
  end.

Definition print_stats (g : ASGraph) : Stats :=
  map_fold (λ _ (neighbors : list (Z * RelationType)) st,
              foldl tally st neighbors)
           (mkStats (size (all_asns g)) 0 0 0) (adjacency g).

(** Number of entries with relationship [rel] in a list. *)
Definition count_rel (rel : RelationType) (l : list (Z * RelationType))
    : Z :=
  Z.of_nat (length (filter (λ e, e.2 = rel) l)).

(** [read_integer] on a text whose first characters are known. *)
Ltac read_known_head :=
  unfold read_integer; cbn [skip_space];
  change (is_space _) with false; cbn -[read_digits digit_value];
  match goal with
  | |- context [digit_value ?c] =>
      let v := eval vm_compute in (digit_value c) in
      change (digit_value c) with v
  end;
  cbn -[read_digits]; by destruct (read_digits _ _).

(** Input files without any AS: a relationships file of comments only and
    an announcements file that ends after its header. *)
Definition empty_files : Files :=
  mkFiles (λ name, if decide (name = "rel.txt"%string) then
                     Some (unlines ["# no relationships"]%string)
                   else if decide (name = "anns.csv"%string) then
                     Some (unlines ["asn,prefix,rov_invalid"]%string)
                   else None)
          (λ _, true).

(** An invalid route held by [asn] has crossed no ROV-enabled AS: all
    ASes of its path but the origin are outside [rov]. *)
Definition rov_avoided (rov : gset Z) (asn : Z) (p : string) (r : Route)
    : Prop :=
  rov_invalid r = true →
  ∃ l o, as_path r = l ++ [o] ∧ ∀ x, x ∈ l → x ∉ rov.

(** The same for a route queued at [asn], where [asn] itself has not
    looked at the route yet. *)
Definition rov_avoided_before (rov : gset Z) (asn : Z) (p : string)
    (r : Route) : Prop :=
  rov_invalid r = true →
  ∃ l o, as_path r = asn :: l ++ [o] ∧ ∀ x, x ∈ l → x ∉ rov.

(** * Properties *)

(** ** Decision process and export policy *)

Lemma pref_of_local_pref t : pref_of t = local_pref t.
Proof. by destruct t. Qed.

Lemma next_hop_asn_next_hop p : p ≠ [] → next_hop_asn p = Some (next_hop p).
Proof.
  destruct p as [|a [|b p]]; [done|done|].
  by intros _.
Qed.

Lemma better_route_without_rov_spec rov C E D :
  as_path C ≠ [] → as_path E ≠ [] →
  better_route_without_rov rov C E D = true ↔
    local_pref (announcement_type C) > local_pref (announcement_type E)
    ∨ (local_pref (announcement_type C) = local_pref (announcement_type E)
       ∧ (length (as_path C) < length (as_path E))%nat)
    ∨ (local_pref (announcement_type C) = local_pref (announcement_type E)
       ∧ length (as_path C) = length (as_path E)
       ∧ next_hop (as_path C) < next_hop (as_path E)).
Proof.
  intros HC HE. unfold better_route_without_rov.
  rewrite !pref_of_local_pref.
  repeat case_bool_decide; simpl; split; intros; try done; try lia;
    try naive_solver lia.
Qed.

#[local] Arguments better_route_without_rov : simpl never.

Lemma better_route_unfold rov C E D :
  better_route rov C E D =
    if bool_decide (D ∈ rov)
       && negb (bool_decide (rov_invalid C = rov_invalid E))
    then negb (rov_invalid C)
    else better_route_without_rov rov C E D.
Proof. done. Qed.

Lemma strictly_better_rov C E :
  rov_invalid C ≠ rov_invalid E →
  strictly_better true C E ↔ rov_invalid C = false.
Proof.
  intros Hne. split.
  - intros [_ _ H|H _|H _ _|c e H _ _ _ _ _]; [done|destruct H; done..].
  - intros H. by apply better_by_rov.
Qed.

Lemma strictly_better_tail b C E :
  as_path C ≠ [] → as_path E ≠ [] →
  ¬ (b = true ∧ rov_invalid C ≠ rov_invalid E) →
  strictly_better b C E ↔
    local_pref (announcement_type C) > local_pref (announcement_type E)
    ∨ (local_pref (announcement_type C) = local_pref (announcement_type E)
       ∧ (length (as_path C) < length (as_path E))%nat)
    ∨ (local_pref (announcement_type C) = local_pref (announcement_type E)
       ∧ length (as_path C) = length (as_path E)
       ∧ next_hop (as_path C) < next_hop (as_path E)).
Proof.
  intros HC HE Hno. split.
  - intros [Hb Hne _|_ H|_ H1 H2|c e _ H1 H2 Hc He Hlt].
    + destruct Hno; done.
    + by left.
    + right; left; done.
    + rewrite next_hop_asn_next_hop in Hc, He by done.
      injection Hc as <-. injection He as <-. right; right; done.
  - intros [H|[[H1 H2]|(H1 & H2 & H3)]].
    + by apply better_by_pref.
    + by apply better_by_length.
    + by eapply better_by_next_hop; eauto using next_hop_asn_next_hop.
Qed.

(** C1. [better_route C E D] is true exactly when the candidate is strictly
    better than the incumbent under the ordered criteria (ROV at an
    ROV-enabled AS, then local preference 2/1/0, then shorter path, then
    lower next-hop ASN), for routes with a non-empty path; in particular it
    is false when the candidate is the incumbent, which remains. *)
Theorem better_route_strict (rov : gset Z) (C E : Route) (D : Z) :
  as_path C ≠ [] → as_path E ≠ [] →
  (better_route rov C E D = true
   ↔ strictly_better (bool_decide (D ∈ rov)) C E)
  ∧ better_route rov E E D = false.
Proof.
  intros HC HE. split.
  - rewrite better_route_unfold.
    destruct (decide (D ∈ rov)) as [HD|HD];
      [rewrite !(bool_decide_eq_true_2 _ HD)
      |rewrite !(bool_decide_eq_false_2 _ HD)];
      (destruct (decide (rov_invalid C = rov_invalid E)) as [Hrov|Hrov];
        [rewrite !(bool_decide_eq_true_2 _ Hrov)
        |rewrite !(bool_decide_eq_false_2 _ Hrov)]); simpl.
    + rewrite better_route_without_rov_spec, strictly_better_tail by tauto.
      done.
    + rewrite strictly_better_rov by done. by destruct (rov_invalid C).
    + rewrite better_route_without_rov_spec, strictly_better_tail
        by (try done; intros [? ?]; done).
      done.
    + rewrite better_route_without_rov_spec, strictly_better_tail
        by (try done; intros [? ?]; done).
      done.
  - rewrite better_route_unfold. rewrite (bool_decide_eq_true_2 (_ = _)) by done.
    rewrite andb_false_r. unfold better_route_without_rov.
    repeat case_bool_decide; simpl; try done; lia.
Qed.

Lemma better_route_strict_witness :
  let C := mkRoute "p" [30; 10; 40] LEARNED_FROM_PROVIDER false in
  let E := mkRoute "p" [30; 20; 40] LEARNED_FROM_PROVIDER false in
  as_path C ≠ [] ∧ as_path E ≠ []
  ∧ better_route ∅ C E 30 = true ∧ better_route ∅ E E 30 = false.
Proof.
  intros C E.
  assert (HC : as_path C ≠ []) by done.
  assert (HE : as_path E ≠ []) by done.
  split; [done|]. split; [done|].
  destruct (better_route_strict ∅ C E 30 HC HE) as [_ H2].
  split; [reflexivity|exact H2].
Defined.

(** C2. [can_export] permits the export exactly when the route was learned
    from a customer or the export edge is provider-to-customer. *)
Theorem can_export_gao_rexford (R : Route) (rel : RelationType) :
  can_export R rel = true
  ↔ announcement_type R = LEARNED_FROM_CUSTOMER ∨ rel = PROVIDER_TO_CUSTOMER.
Proof.
  unfold can_export.
  destruct (announcement_type R), rel; simpl; split; intros H;
    first [done | by left | by right | by destruct H].
Qed.

(** The table of section 4.4, entry by entry. *)
Lemma can_export_table (p : string) (path : list Z) (inv : bool) :
  let R t := mkRoute p path t inv in
  can_export (R LEARNED_FROM_CUSTOMER) CUSTOMER_TO_PROVIDER = true
  ∧ can_export (R LEARNED_FROM_CUSTOMER) PEER_TO_PEER = true
  ∧ can_export (R LEARNED_FROM_CUSTOMER) PROVIDER_TO_CUSTOMER = true
  ∧ can_export (R LEARNED_FROM_PEER) CUSTOMER_TO_PROVIDER = false
  ∧ can_export (R LEARNED_FROM_PEER) PEER_TO_PEER = false
  ∧ can_export (R LEARNED_FROM_PEER) PROVIDER_TO_CUSTOMER = true
  ∧ can_export (R LEARNED_FROM_PROVIDER) CUSTOMER_TO_PROVIDER = false
  ∧ can_export (R LEARNED_FROM_PROVIDER) PEER_TO_PEER = false
  ∧ can_export (R LEARNED_FROM_PROVIDER) PROVIDER_TO_CUSTOMER = true.
Proof. done. Qed.

(** ** The steps of a run *)

Lemma lookup_rib_store asn p route (rs : gmap Z (gmap string Route)) a rib q r :
  rib_store asn p route rs !! a = Some rib → rib !! q = Some r →
  (a = asn ∧ q = p ∧ r = route)
  ∨ (∃ rib', rs !! a = Some rib' ∧ rib' !! q = Some r).
Proof.
  unfold rib_store. intros Hrib Hr.
  destruct (decide (a = asn)) as [->|Hne].
  - rewrite lookup_insert_eq in Hrib. injection Hrib as <-.
    destruct (decide (q = p)) as [->|Hq].
    + rewrite lookup_insert_eq in Hr. injection Hr as <-. by left.
    + rewrite lookup_insert_ne in Hr by done. right.
      rewrite lookup_total_alt in Hr.
      destruct (rs !! asn) as [rib'|]; [by exists rib'|done].
  - rewrite lookup_insert_ne in Hrib by done. right. by exists rib.
Qed.

Lemma lookup_queue_push asn p route
    (qs : gmap Z (gmap string (list Route))) a queue q routes r :
  queue_push asn p route qs !! a = Some queue → queue !! q = Some routes →
  r ∈ routes →
  (a = asn ∧ q = p ∧ r = route)
  ∨ (∃ queue' routes',
       qs !! a = Some queue' ∧ queue' !! q = Some routes' ∧ r ∈ routes').
Proof.
  unfold queue_push. intros Hqueue Hroutes Hr.
  destruct (decide (a = asn)) as [->|Hne].
  - rewrite lookup_insert_eq in Hqueue. injection Hqueue as <-.
    rewrite !(lookup_total_alt qs) in Hroutes.
    destruct (qs !! asn) as [queue'|] eqn:Hq'; simpl in Hroutes.
    + destruct (decide (q = p)) as [->|Hq].
      * rewrite lookup_insert_eq in Hroutes. injection Hroutes as <-.
        apply elem_of_app in Hr as [Hr|Hr%list_elem_of_singleton];
          [|by left].
        right. rewrite lookup_total_alt in Hr.
        destruct (queue' !! p) as [routes'|] eqn:Hp; simpl in Hr.
        -- by exists queue', routes'.
        -- by apply elem_of_nil in Hr.
      * rewrite lookup_insert_ne in Hroutes by done.
        right. by exists queue', routes.
    + destruct (decide (q = p)) as [->|Hq].
      * rewrite lookup_insert_eq in Hroutes. injection Hroutes as <-.
        rewrite lookup_total_empty in Hr. simpl in Hr.
        apply list_elem_of_singleton in Hr. by left.
      * rewrite lookup_insert_ne, lookup_empty in Hroutes by done. done.
  - rewrite lookup_insert_ne in Hqueue by done. right.
    by exists queue, routes.
Qed.

Lemma ribs_all_store P s asn p route :
  ribs_all P s → P asn p route →
  ribs_all P (with_ribs s (rib_store asn p route (ribs s))).
Proof.
  intros Hall HP a rib q r Hrib Hr. simpl in Hrib.
  destruct (lookup_rib_store _ _ _ _ _ _ _ _ Hrib Hr)
    as [(-> & -> & ->)|(rib' & ? & ?)]; [done|by eapply Hall].
Qed.

Lemma message_queues_process_route d s asn p route :
  message_queues (process_route_with d s asn p route) = message_queues s.
Proof.
  unfold process_route_with.
  repeat (case_match; try done).
Qed.

Lemma rov_process_route d s asn p route :
  rov_enabled_asns (process_route_with d s asn p route) = rov_enabled_asns s.
Proof.
  unfold process_route_with.
  repeat (case_match; try done).
Qed.

Lemma ribs_send s sender receiver route rel :
  ribs (send_route_to_neighbor s sender receiver route rel) = ribs s.
Proof. unfold send_route_to_neighbor. repeat (case_match; try done). Qed.

Lemma rov_send s sender receiver route rel :
  rov_enabled_asns (send_route_to_neighbor s sender receiver route rel)
  = rov_enabled_asns s.
Proof. unfold send_route_to_neighbor. repeat (case_match; try done). Qed.

Lemma flatten_graph_Some s s1 :
  flatten_graph s = Some s1 →
  s1 = mkSim (graph s) (rov_enabled_asns s) (ribs s) (message_queues s)
             (fl_asn_to_rank (flatten_ranks (graph s)))
             (fl_rank_to_asns (flatten_ranks (graph s))).
Proof.
  unfold flatten_graph. destruct (fl_rank_to_asns _); [done|].
  by intros [= <-].
Qed.

Section Invariant.
Variable rov : gset Z.
Variables P Q : Z → string → Route → Prop.

(** What a send and a receive must guarantee. *)
Hypothesis send_ok : ∀ asn nbr p route rel,
  P asn p route → nbr ∉ as_path route → can_export route rel = true →
  Q nbr (prefix route) (sent_route nbr route rel).
Hypothesis receive_ok : ∀ asn p route,
  Q asn p route → bool_decide (asn ∈ rov) && rov_invalid route = false →
  P asn p route.

Lemma run_invariant_send s asn rib p route nbr rel :
  ribs s !! asn = Some rib → rib !! p = Some route →
  run_invariant rov P Q s →
  run_invariant rov P Q (send_route_to_neighbor s asn nbr route rel).
Proof using send_ok.
  intros Hrib Hroute (Hrov & HP & HQ). unfold send_route_to_neighbor.
  case_bool_decide as Hin; [done|].
  destruct (can_export route rel) eqn:Hexp; simpl; [|done].
  split; [done|]. split; [done|].
  intros a queue q routes r Hqueue Hroutes Hr. simpl in Hqueue.
  destruct (lookup_queue_push _ _ _ _ _ _ _ _ _ Hqueue Hroutes Hr)
    as [(-> & -> & ->)|(queue' & routes' & ? & ? & ?)].
  - eapply send_ok; eauto.
  - by eapply HQ.
Qed.

Lemma run_invariant_receive s asn queue p routes route :
  message_queues s !! asn = Some queue → queue !! p = Some routes →
  route ∈ routes →
  run_invariant rov P Q s →
  run_invariant rov P Q (process_route s asn p route).
Proof using receive_ok.
  intros Hqueue Hroutes Hr (Hrov & HP & HQ).
  assert (HQr : Q asn p route) by by eapply HQ.
  unfold process_route.
  split; [by rewrite rov_process_route|].
  split; [|by intros ?; rewrite message_queues_process_route; apply HQ].
  unfold process_route_with. rewrite Hrov.
  destruct (bool_decide (asn ∈ rov) && rov_invalid route) eqn:Hdrop;
    [done|].
  pose proof (receive_ok _ _ _ HQr Hdrop) as HPr.
  repeat case_match; try done; by apply ribs_all_store.
Qed.

Lemma run_invariant_clear s asn :
  run_invariant rov P Q s →
  run_invariant rov P Q (with_queues s (<[asn := ∅]> (message_queues s))).
Proof.
  intros (Hrov & HP & HQ). split; [done|]. split; [done|].
  intros a queue q routes r Hqueue Hroutes Hr. simpl in Hqueue.
  destruct (decide (a = asn)) as [->|Hne].
  - rewrite lookup_insert_eq in Hqueue. injection Hqueue as <-.
    by rewrite lookup_empty in Hroutes.
  - rewrite lookup_insert_ne in Hqueue by done. by eapply HQ.
Qed.

Lemma run_invariant_flatten s s' :
  flatten_graph s = Some s' →
  run_invariant rov P Q s → run_invariant rov P Q s'.
Proof.
  unfold flatten_graph. intros Hfl Hinv.
  destruct (fl_rank_to_asns _); [done|]. by injection Hfl as <-.
Qed.

Lemma run_invariant_step s s' :
  step s s' → run_invariant rov P Q s → run_invariant rov P Q s'.
Proof using send_ok receive_ok.
  destruct 1; eauto using run_invariant_flatten, run_invariant_send,
    run_invariant_receive, run_invariant_clear.
Qed.

Lemma run_invariant_steps s s' :
  rtc step s s' → run_invariant rov P Q s → run_invariant rov P Q s'.
Proof using send_ok receive_ok.
  induction 1; eauto using run_invariant_step.
Qed.

Lemma run_invariant_seed s origin p flag :
  P origin p (mkRoute p [origin] LEARNED_FROM_CUSTOMER flag) →
  run_invariant rov P Q s →
  run_invariant rov P Q (seed_announcement s origin p flag).
Proof.
  intros Hseed (Hrov & HP & HQ). split; [done|]. split; [|done].
  intros a rib q r Hrib Hr. simpl in Hrib.
  destruct (lookup_rib_store _ _ _ _ _ _ _ _ Hrib Hr)
    as [(-> & -> & ->)|(rib' & ? & ?)]; [done|by eapply HP].
Qed.

Lemma run_invariant_new g :
  run_invariant rov P Q (set_rov_asns (new_simulator g) rov).
Proof.
  split; [done|]. split.
  - by intros a rib q r Hrib.
  - by intros a queue q routes r Hqueue.
Qed.

Lemma run_invariant_seed_all s anns :
  (∀ a, a ∈ anns →
        P a.1.1 a.1.2 (mkRoute a.1.2 [a.1.1] LEARNED_FROM_CUSTOMER a.2)) →
  run_invariant rov P Q s → run_invariant rov P Q (seed_all s anns).
Proof.
  revert s. induction anns as [|a anns IH]; intros s Hanns Hinv; [done|].
  simpl. apply IH.
  - intros a' Ha'. apply Hanns. by right.
  - apply run_invariant_seed; [|done]. apply Hanns. by left.
Qed.

(** The invariant holds in every state of a run whose seeds satisfy
    [P]. *)
Lemma run_invariant_run g anns s :
  (∀ a, a ∈ anns →
        P a.1.1 a.1.2 (mkRoute a.1.2 [a.1.1] LEARNED_FROM_CUSTOMER a.2)) →
  run_state g rov anns s → run_invariant rov P Q s.
Proof using send_ok receive_ok.
  intros Hanns [[k ->]|Hsteps].
  - apply run_invariant_seed_all; [|apply run_invariant_new].
    intros a Ha. apply Hanns. by eapply subseteq_take.
  - eapply run_invariant_steps; [done|].
    apply run_invariant_seed_all; [done|apply run_invariant_new].
Qed.
End Invariant.

(** ** [propagate] is a sequence of steps *)

Lemma foldl_steps {A} (f : BGPSimulator → A → BGPSimulator) l s :
  (∀ s x, x ∈ l → rtc step s (f s x)) → rtc step s (foldl f s l).
Proof.
  revert s. induction l as [|x l IH]; intros s Hf; [done|].
  simpl. etrans; [apply Hf; by left|].
  apply IH. intros s' y Hy. apply Hf. by right.
Qed.

Lemma process_routes_steps s asn queue p routes l :
  message_queues s !! asn = Some queue → queue !! p = Some routes →
  l ⊆ routes →
  rtc step s (foldl (λ s route, process_route s asn p route) s l)
  ∧ message_queues (foldl (λ s route, process_route s asn p route) s l)
    = message_queues s.
Proof.
  intros Hqueue Hroutes. revert s Hqueue.
  induction l as [|r l IH]; intros s Hqueue Hl; [done|].
  simpl.
  assert (Hmq : message_queues (process_route s asn p r) = message_queues s)
    by apply message_queues_process_route.
  destruct (IH (process_route s asn p r)) as [Hsteps Heq].
  - by rewrite Hmq.
  - intros x Hx. apply Hl. by right.
  - split; [|by rewrite Heq].
    eapply rtc_l; [|done].
    eapply step_receive; [done..|]. apply Hl. by left.
Qed.

Lemma process_entries_steps s asn queue entries :
  message_queues s !! asn = Some queue →
  (∀ e, e ∈ entries → queue !! e.1 = Some e.2) →
  let s' := foldl (λ s (prefix_entry : string * list Route),
                     foldl (λ s route, process_route s asn prefix_entry.1 route)
                           s prefix_entry.2) s entries in
  rtc step s s' ∧ message_queues s' = message_queues s.
Proof.
  revert s. induction entries as [|e entries IH]; intros s Hqueue He; [done|].
  simpl.
  destruct (process_routes_steps s asn queue e.1 e.2 e.2) as [Hsteps Heq];
    [done|apply He; by left|done|].
  destruct (IH (foldl (λ s route, process_route s asn e.1 route) s e.2))
    as [Hsteps' Heq'].
  - by rewrite Heq.
  - intros e' He'. apply He. by right.
  - split; [by etrans|by rewrite Heq'].
Qed.

Lemma process_messages_steps s asn : rtc step s (process_messages s asn).
Proof.
  unfold process_messages, process_messages_with.
  destruct (message_queues s !! asn) as [queue|] eqn:Hqueue; [|done].
  destruct (process_entries_steps s asn queue (map_to_list queue))
    as [Hsteps _]; [done| |].
  - intros [p routes] He. by apply elem_of_map_to_list.
  - eapply rtc_r; [exact Hsteps|]. apply step_clear.
Qed.

Lemma send_neighbors_steps edge s asn rib p route nbrs :
  ribs s !! asn = Some rib → rib !! p = Some route →
  let s' := foldl (λ s (neighbor : Z * RelationType),
                     if decide (neighbor.2 = edge)
                     then send_route_to_neighbor s asn neighbor.1 route
                            neighbor.2
                     else s) s nbrs in
  rtc step s s' ∧ ribs s' = ribs s ∧ graph s' = graph s.
Proof.
  intros Hrib Hroute. revert s Hrib.
  induction nbrs as [|n nbrs IH]; intros s Hrib; [done|].
  simpl. case_decide.
  - destruct (IH (send_route_to_neighbor s asn n.1 route n.2))
      as (Hsteps & Hr & Hg); [by rewrite ribs_send|].
    split; [|split].
    + eapply rtc_l; [|exact Hsteps]. by eapply step_send.
    + by rewrite Hr, ribs_send.
    + rewrite Hg. unfold send_route_to_neighbor.
      repeat (case_match; try done).
  - by apply IH.
Qed.

Lemma send_entries_steps edge s asn rib entries :
  ribs s !! asn = Some rib →
  (∀ e, e ∈ entries → rib !! e.1 = Some e.2) →
  let s' := foldl (λ s (route_entry : string * Route),
                     foldl (λ s (neighbor : Z * RelationType),
                              if decide (neighbor.2 = edge)
                              then send_route_to_neighbor s asn neighbor.1
                                     route_entry.2 neighbor.2
                              else s)
                           s (get_neighbors (graph s) asn)) s entries in
  rtc step s s' ∧ ribs s' = ribs s.
Proof.
  revert s. induction entries as [|e entries IH]; intros s Hrib He; [done|].
  simpl.
  destruct (send_neighbors_steps edge s asn rib e.1 e.2
              (get_neighbors (graph s) asn)) as (Hsteps & Hr & Hg);
    [done|apply He; by left|].
  match goal with |- context [foldl _ ?s0 entries] =>
    destruct (IH s0) as [Hsteps' Hr'] end.
  - by rewrite Hr.
  - intros e' He'. apply He. by right.
  - split; [by etrans|by rewrite Hr'].
Qed.

Lemma send_routes_steps edge s asn : rtc step s (send_routes edge s asn).
Proof.
  unfold send_routes.
  destruct (ribs s !! asn) as [rib|] eqn:Hrib; [|done].
  apply (send_entries_steps edge s asn rib (map_to_list rib)); [done|].
  intros [p route] He. by apply elem_of_map_to_list.
Qed.

Lemma phase_up_steps s : rtc step s (phase_up s).
Proof.
  unfold phase_up, phase_up_with. apply foldl_steps. intros s' rank _.
  cbv zeta.
  trans (foldl (send_routes CUSTOMER_TO_PROVIDER) s' (rank_to_asns s !!! rank));
    [apply foldl_steps; intros; apply send_routes_steps|].
  case_decide; [|done].
  apply foldl_steps. intros. apply process_messages_steps.
Qed.

Lemma phase_peer_steps s : rtc step s (phase_peer s).
Proof.
  unfold phase_peer, phase_peer_with. apply foldl_steps. intros s' rank _.
  cbv zeta.
  trans (foldl (send_routes PEER_TO_PEER) s' (rank_to_asns s !!! rank));
    [apply foldl_steps; intros; apply send_routes_steps|].
  apply foldl_steps. intros. apply process_messages_steps.
Qed.

Lemma phase_down_steps s : rtc step s (phase_down s).
Proof.
  unfold phase_down, phase_down_with. apply foldl_steps. intros s' rank _.
  cbv zeta.
  trans (foldl (send_routes PROVIDER_TO_CUSTOMER) s' (rank_to_asns s !!! rank));
    [apply foldl_steps; intros; apply send_routes_steps|].
  case_decide; [|done].
  apply foldl_steps. intros. apply process_messages_steps.
Qed.

Lemma run_iteration_steps s : rtc step s (run_iteration s).
Proof.
  unfold run_iteration, run_iteration_with.
  etrans; [apply phase_up_steps|].
  etrans; [apply phase_peer_steps|apply phase_down_steps].
Qed.

Lemma propagate_loop_steps remaining iteration prev s :
  rtc step s (propagate_loop remaining iteration prev s).2.
Proof.
  revert iteration prev s.
  induction remaining as [|n IH]; intros iteration prev s; [done|].
  simpl. repeat case_bool_decide; simpl;
    try apply run_iteration_steps.
  etrans; [apply run_iteration_steps|apply IH].
Qed.

Lemma propagate_steps s b s' :
  propagate s = Some (b, s') → rtc step s s'.
Proof.
  unfold propagate, propagate_with.
  destruct (flatten_graph s) as [s1|] eqn:Hfl; [|done].
  pose proof (propagate_loop_steps 20 0 0 s1) as Hsteps.
  unfold propagate_loop in Hsteps.
  destruct (propagate_loop_with better_route 20 0 0 s1) as [b1 s1'].
  intros [= -> ->].
  eapply rtc_l; [by apply step_flatten|done].
Qed.

(** The state in which a run ends is a state of the run. *)
Lemma run_state_propagate g rov anns b s' :
  propagate (run_start g rov anns) = Some (b, s') → run_state g rov anns s'.
Proof. intros H. right. by eapply propagate_steps. Qed.

Lemma run_state_seeded g rov anns : run_state g rov anns (run_start g rov anns).
Proof. by right. Qed.

(** ** Seeding *)

(** C10. [seed_announcement] installs the single-hop route [[origin]] as a
    customer route in the RIB of the origin whatever the ROV set and the
    flag are, whereas [process_messages] discards a queued route that is
    [rov_invalid] at an ROV-enabled AS. *)
Theorem seed_bypasses_rov_drop (s : BGPSimulator) (origin : Z) (p : string)
    (flag : bool) :
  (∃ rib, ribs (seed_announcement s origin p flag) !! origin = Some rib
          ∧ rib !! p = Some (mkRoute p [origin] LEARNED_FROM_CUSTOMER flag))
  ∧ (∀ asn q route,
       asn ∈ rov_enabled_asns s → rov_invalid route = true →
       process_route s asn q route = s).
Proof.
  split.
  - eexists. simpl. unfold rib_store. rewrite lookup_insert_eq.
    split; [done|]. by rewrite lookup_insert_eq.
  - intros asn q route Hrov Hinv. unfold process_route, process_route_with.
    by rewrite bool_decide_eq_true_2, Hinv.
Qed.

(** The origin is ROV-enabled and the announcement is invalid: the seed is
    in the RIB all the same, and the same route arriving through the queue
    would be dropped. *)
Lemma seed_bypasses_rov_drop_witness :
  let s := set_rov_asns (new_simulator pair) {[1]} in
  (∃ rib, ribs (seed_announcement s 1 "p" true) !! 1 = Some rib
          ∧ rib !! "p" = Some (mkRoute "p" [1] LEARNED_FROM_CUSTOMER true))
  ∧ process_route s 1 "p" (mkRoute "p" [1] LEARNED_FROM_CUSTOMER true) = s.
Proof.
  intros s.
  destruct (seed_bypasses_rov_drop s 1 "p" true) as [Hseed Hdrop].
  split; [exact Hseed|].
  apply Hdrop; [simpl; by apply elem_of_singleton_2|done].
Defined.

(** ** Invariants of a run *)

(** Routes never have an empty path, so [better_route] never reads outside
    a path. *)
Lemma as_path_nonempty_step g rov anns s :
  run_state g rov anns s →
  ribs_all (λ _ _ r, as_path r ≠ []) s
  ∧ queues_all (λ _ _ r, as_path r ≠ []) s.
Proof.
  intros Hrun.
  eapply (run_invariant_run rov (λ _ _ r, as_path r ≠ [])
            (λ _ _ r, as_path r ≠ [])) in Hrun.
  - by destruct Hrun as (_ & ? & ?).
  - done.
  - done.
  - done.
Qed.

Lemma send_route_to_neighbor_cases s sender receiver route rel :
  send_route_to_neighbor s sender receiver route rel = s
  ∨ ((receiver ∉ as_path route) ∧ can_export route rel = true
     ∧ send_route_to_neighbor s sender receiver route rel
       = with_queues s (queue_push receiver (prefix route)
                          (sent_route receiver route rel)
                          (message_queues s))).
Proof.
  unfold send_route_to_neighbor.
  case_bool_decide; [by left|].
  destruct (can_export route rel); simpl; [by right|by left].
Qed.

(** C4. Loop-freedom: in every state of a run, no route of any RIB has an
    ASN twice in its path; and [send_route_to_neighbor] does nothing when
    the receiver is already on the path, whatever the export policy says. *)
Theorem loop_freedom (g : ASGraph) (rov : gset Z) (anns : list Announcement)
    (s : BGPSimulator) :
  run_state g rov anns s →
  ribs_all (λ _ _ r, NoDup (as_path r)) s
  ∧ (∀ sender receiver route rel,
       receiver ∈ as_path route →
       send_route_to_neighbor s sender receiver route rel = s).
Proof.
  intros Hrun. split.
  - eapply (run_invariant_run rov (λ _ _ r, NoDup (as_path r))
              (λ _ _ r, NoDup (as_path r))) in Hrun.
    + by destruct Hrun as (_ & ? & _).
    + intros asn nbr p route rel Hnd Hnotin _. simpl. by constructor.
    + done.
    + intros a _. simpl. apply NoDup_singleton.
  - intros sender receiver route rel Hin. unfold send_route_to_neighbor.
    by rewrite bool_decide_eq_true_2.
Qed.

Lemma loop_freedom_witness :
  ∃ s, propagate (run_start valley ∅ [(4, "p", false)]) = Some (true, s)
       ∧ ribs_all (λ _ _ r, NoDup (as_path r)) s
       ∧ send_route_to_neighbor s 2 3
           (mkRoute "p" [2; 3; 4] LEARNED_FROM_PEER false) PEER_TO_PEER = s.
Proof.
  destruct (propagate (run_start valley ∅ [(4, "p", false)]))
    as [[b s]|] eqn:Hp; [|by vm_compute in Hp].
  assert (b = true) as ->.
  { apply (f_equal (λ r, match r with Some (b, _) => b | None => false end))
      in Hp. by vm_compute in Hp. }
  exists s. split; [reflexivity|].
  destruct (loop_freedom valley ∅ [(4, "p", false)] s
              (run_state_propagate _ _ _ _ _ Hp)) as [Hrib Hsend].
  split; [exact Hrib|].
  apply Hsend. simpl. apply list_elem_of_In. simpl. tauto.
Defined.

(** C6. Origin preservation: when exactly one announcement
    [(origin, P, flag)] seeds prefix [P], every route for [P] in any RIB in
    any state of the run ends in [origin] and carries [flag]; the route
    that a send enqueues is the sent route with the receiver in front, the
    same last element and the same [rov_invalid]. *)
Theorem origin_preservation (g : ASGraph) (rov : gset Z)
    (anns : list Announcement) (s : BGPSimulator)
    (P : string) (origin : Z) (flag : bool) :
  filter (λ a : Announcement, a.1.2 = P) anns = [(origin, P, flag)] →
  run_state g rov anns s →
  ribs_all (λ _ p r, p = P →
              last (as_path r) = Some origin ∧ rov_invalid r = flag) s
  ∧ (∀ receiver route rel,
       as_path (sent_route receiver route rel) = receiver :: as_path route
       ∧ (as_path route ≠ [] →
          last (as_path (sent_route receiver route rel))
          = last (as_path route))
       ∧ rov_invalid (sent_route receiver route rel) = rov_invalid route
       ∧ prefix (sent_route receiver route rel) = prefix route).
Proof.
  intros Hseed Hrun. split.
  - set (I := λ (_ : Z) (p : string) (r : Route),
               prefix r = p
               ∧ (p = P → last (as_path r) = Some origin
                          ∧ rov_invalid r = flag)).
    eapply (run_invariant_run rov I I) in Hrun.
    + destruct Hrun as (_ & Hribs & _).
      intros asn rib p r Hrib Hr. by apply (Hribs asn rib p r).
    + intros asn nbr p route rel [Hp Hlast] _ _. split; [done|].
      intros HP. destruct Hlast as [Hlast Hflag]; [congruence|].
      split; [|done]. simpl.
      destruct (as_path route) as [|a path]; [done|]. done.
    + done.
    + intros a Ha. split; [done|]. intros HP. simpl.
      assert (Hin : a ∈ filter (λ a : Announcement, a.1.2 = P) anns)
        by by apply list_elem_of_filter.
      rewrite Hseed in Hin. apply list_elem_of_singleton in Hin.
      by subst a.
  - intros receiver route rel. repeat split.
    intros Hne. simpl. by destruct (as_path route).
Qed.

Lemma origin_preservation_witness :
  ∃ s, propagate (run_start valley ∅ [(4, "p", false)]) = Some (true, s)
       ∧ ribs_all (λ _ p r, p = "p" →
                     last (as_path r) = Some 4 ∧ rov_invalid r = false) s.
Proof.
  destruct (propagate (run_start valley ∅ [(4, "p", false)]))
    as [[b s]|] eqn:Hp; [|by vm_compute in Hp].
  assert (b = true) as ->.
  { apply (f_equal (λ r, match r with Some (b, _) => b | None => false end))
      in Hp. by vm_compute in Hp. }
  exists s. split; [reflexivity|].
  assert (Hseed : filter (λ a : Announcement, a.1.2 = "p") [(4, "p", false)]
                  = [(4, "p", false)]) by reflexivity.
  exact (proj1 (origin_preservation valley ∅ [(4, "p", false)] s "p" 4 false
                  Hseed (run_state_propagate _ _ _ _ _ Hp))).
Defined.

(** ** The ROV clause of the decision process *)

Lemma better_route_agree rov C E D :
  bool_decide (D ∈ rov) && negb (bool_decide (rov_invalid C = rov_invalid E))
  = false →
  better_route rov C E D = better_route_without_rov rov C E D.
Proof. intros H. by rewrite better_route_unfold, H. Qed.

Lemma rov_clean_send rov asn nbr p route rel :
  rov_clean rov asn p route → nbr ∉ as_path route →
  can_export route rel = true →
  any_route nbr (prefix route) (sent_route nbr route rel).
Proof. done. Qed.

Lemma rov_clean_receive rov asn p route :
  any_route asn p route →
  bool_decide (asn ∈ rov) && rov_invalid route = false →
  rov_clean rov asn p route.
Proof.
  intros _ Hdrop Hin. rewrite bool_decide_eq_true_2 in Hdrop by done.
  by destruct (rov_invalid route).
Qed.

Lemma rov_clean_steps rov s s' :
  rtc step s s' →
  run_invariant rov (rov_clean rov) any_route s →
  run_invariant rov (rov_clean rov) any_route s'.
Proof.
  apply run_invariant_steps;
    eauto using rov_clean_send, rov_clean_receive.
Qed.

Lemma process_route_same rov s asn p route :
  run_invariant rov (rov_clean rov) any_route s →
  process_route_with better_route_without_rov s asn p route
  = process_route s asn p route.
Proof.
  intros (Hrov & HP & _). unfold process_route, process_route_with.
  destruct (bool_decide (asn ∈ rov_enabled_asns s) && rov_invalid route)
    eqn:Hdrop; [done|].
  destruct (ribs s !! asn) as [rib|] eqn:Hrib; [|done].
  destruct (rib !! p) as [existing|] eqn:Hp; [|done].
  rewrite better_route_agree; [done|].
  destruct (decide (asn ∈ rov_enabled_asns s)) as [Hin|Hout].
  - rewrite bool_decide_eq_true_2 in Hdrop |- * by done. simpl in *.
    rewrite Hdrop, (HP asn rib p existing Hrib Hp) by by rewrite <-Hrov.
    done.
  - by rewrite bool_decide_eq_false_2.
Qed.

Lemma foldl_same {A} (f f' : BGPSimulator → A → BGPSimulator)
    (I : BGPSimulator → Prop) l s :
  I s → (∀ s x, x ∈ l → I s → f' s x = f s x ∧ I (f s x)) →
  foldl f' s l = foldl f s l ∧ I (foldl f s l).
Proof.
  revert s. induction l as [|x l IH]; intros s Hs Hf; [done|].
  simpl. destruct (Hf s x) as [-> Hs']; [by left|done|].
  apply IH; [done|]. intros s' y Hy. apply Hf. by right.
Qed.

Lemma process_routes_same rov s asn queue p routes l :
  run_invariant rov (rov_clean rov) any_route s →
  message_queues s !! asn = Some queue → queue !! p = Some routes →
  l ⊆ routes →
  foldl (λ s route, process_route_with better_route_without_rov s asn p route)
        s l
  = foldl (λ s route, process_route s asn p route) s l.
Proof.
  intros Hinv Hqueue Hroutes. revert s Hinv Hqueue.
  induction l as [|r l IH]; intros s Hinv Hqueue Hl; [done|].
  simpl. rewrite (process_route_same rov) by done.
  apply IH.
  - eapply rov_clean_steps; [|done]. apply rtc_once.
    eapply step_receive; [done..|]. apply Hl. by left.
  - unfold process_route. by rewrite message_queues_process_route.
  - intros x Hx. apply Hl. by right.
Qed.

Lemma process_entries_same rov s asn queue entries :
  run_invariant rov (rov_clean rov) any_route s →
  message_queues s !! asn = Some queue →
  (∀ e, e ∈ entries → queue !! e.1 = Some e.2) →
  foldl (λ s (prefix_entry : string * list Route),
           foldl (λ s route,
                    process_route_with better_route_without_rov s asn
                      prefix_entry.1 route) s prefix_entry.2) s entries
  = foldl (λ s (prefix_entry : string * list Route),
             foldl (λ s route, process_route s asn prefix_entry.1 route)
                   s prefix_entry.2) s entries.
Proof.
  revert s. induction entries as [|e entries IH]; intros s Hinv Hqueue He;
    [done|].
  simpl.
  rewrite (process_routes_same rov s asn queue e.1 e.2 e.2);
    [|done|done|apply He; by left|done].
  destruct (process_routes_steps s asn queue e.1 e.2 e.2) as [Hsteps Heq];
    [done|apply He; by left|done|].
  apply IH.
  - by eapply rov_clean_steps.
  - by rewrite Heq.
  - intros e' He'. apply He. by right.
Qed.

Lemma process_messages_same rov s asn :
  run_invariant rov (rov_clean rov) any_route s →
  process_messages_with better_route_without_rov s asn = process_messages s asn
  ∧ run_invariant rov (rov_clean rov) any_route (process_messages s asn).
Proof.
  intros Hinv. split;
    [|by eapply rov_clean_steps; [apply process_messages_steps|]].
  unfold process_messages, process_messages_with.
  destruct (message_queues s !! asn) as [queue|] eqn:Hqueue; [|done].
  rewrite (process_entries_same rov s asn queue); [done..|].
  intros [p routes] He. by apply elem_of_map_to_list.
Qed.

Lemma process_rank_same rov s l :
  run_invariant rov (rov_clean rov) any_route s →
  foldl (process_messages_with better_route_without_rov) s l
  = foldl process_messages s l
  ∧ run_invariant rov (rov_clean rov) any_route (foldl process_messages s l).
Proof.
  intros Hinv. apply foldl_same; [done|].
  intros s' x _ Hs'. by apply process_messages_same.
Qed.

Lemma send_rank_inv rov edge s l :
  run_invariant rov (rov_clean rov) any_route s →
  run_invariant rov (rov_clean rov) any_route (foldl (send_routes edge) s l).
Proof.
  intros Hinv. eapply rov_clean_steps; [|done].
  apply foldl_steps. intros. apply send_routes_steps.
Qed.

Lemma phase_up_same rov s :
  run_invariant rov (rov_clean rov) any_route s →
  phase_up_with better_route_without_rov s = phase_up s
  ∧ run_invariant rov (rov_clean rov) any_route (phase_up s).
Proof.
  intros Hinv. unfold phase_up, phase_up_with. apply foldl_same; [done|].
  intros s' rank _ Hs'. cbv zeta.
  pose proof (send_rank_inv rov CUSTOMER_TO_PROVIDER s'
                (rank_to_asns s !!! rank) Hs') as Hsent.
  case_decide; [|done]. by apply process_rank_same.
Qed.

Lemma phase_peer_same rov s :
  run_invariant rov (rov_clean rov) any_route s →
  phase_peer_with better_route_without_rov s = phase_peer s
  ∧ run_invariant rov (rov_clean rov) any_route (phase_peer s).
Proof.
  intros Hinv. unfold phase_peer, phase_peer_with. apply foldl_same; [done|].
  intros s' rank _ Hs'. cbv zeta.
  pose proof (send_rank_inv rov PEER_TO_PEER s'
                (rank_to_asns s !!! rank) Hs') as Hsent.
  by apply process_rank_same.
Qed.

Lemma phase_down_same rov s :
  run_invariant rov (rov_clean rov) any_route s →
  phase_down_with better_route_without_rov s = phase_down s
  ∧ run_invariant rov (rov_clean rov) any_route (phase_down s).
Proof.
  intros Hinv. unfold phase_down, phase_down_with. apply foldl_same; [done|].
  intros s' rank _ Hs'. cbv zeta.
  pose proof (send_rank_inv rov PROVIDER_TO_CUSTOMER s'
                (rank_to_asns s !!! rank) Hs') as Hsent.
  case_decide; [|done]. by apply process_rank_same.
Qed.

Lemma run_iteration_same rov s :
  run_invariant rov (rov_clean rov) any_route s →
  run_iteration_with better_route_without_rov s = run_iteration s
  ∧ run_invariant rov (rov_clean rov) any_route (run_iteration s).
Proof.
  intros Hinv. unfold run_iteration, run_iteration_with.
  destruct (phase_up_same rov s Hinv) as [-> Hup].
  destruct (phase_peer_same rov _ Hup) as [-> Hpeer].
  by apply phase_down_same.
Qed.

Lemma propagate_loop_same rov remaining iteration prev s :
  run_invariant rov (rov_clean rov) any_route s →
  propagate_loop_with better_route_without_rov remaining iteration prev s
  = propagate_loop_with better_route remaining iteration prev s.
Proof.
  revert iteration prev s.
  induction remaining as [|n IH]; intros iteration prev s Hinv; [done|].
  simpl.
  destruct (run_iteration_same rov s Hinv) as [-> Hinv'].
  fold run_iteration.
  repeat case_bool_decide; try done. by apply IH.
Qed.

Lemma propagate_same rov s :
  run_invariant rov (rov_clean rov) any_route s →
  propagate_with better_route_without_rov s = propagate s.
Proof.
  intros Hinv. unfold propagate, propagate_with.
  destruct (flatten_graph s) as [s1|] eqn:Hfl; [|done].
  rewrite (propagate_loop_same rov); [reflexivity|].
  eapply rov_clean_steps; [|done]. apply rtc_once. by apply step_flatten.
Qed.

(** The claim that the clause never decides fails when an ROV-enabled AS
    seeds an invalid announcement itself.  AS 1 (ROV-enabled, provider of
    AS 2) seeds [p] as invalid, AS 2 seeds [p] as valid.  When AS 1
    processes the route sent by AS 2, candidate and incumbent differ on
    [rov_invalid], the ROV clause makes the candidate win, and without the
    clause the incumbent would stay: the final RIBs differ. *)
Lemma rov_clause_decides :
  let rov : gset Z := {[1]} in
  let anns : list Announcement := [(1, "p", true); (2, "p", false)] in
  let candidate := mkRoute "p" [1; 2] LEARNED_FROM_CUSTOMER false in
  let incumbent := mkRoute "p" [1] LEARNED_FROM_CUSTOMER true in
  ∃ s1 s,
    flatten_graph (run_start pair rov anns) = Some s1
    ∧ s = send_route_to_neighbor s1 2 1
            (mkRoute "p" [2] LEARNED_FROM_CUSTOMER false) CUSTOMER_TO_PROVIDER
    ∧ run_state pair rov anns s
    ∧ 1 ∈ rov_enabled_asns s
    ∧ (message_queues s !!! 1) !! "p" = Some [candidate]
    ∧ (ribs s !!! 1) !! "p" = Some incumbent
    ∧ rov_invalid candidate ≠ rov_invalid incumbent
    ∧ better_route rov candidate incumbent 1 = true
    ∧ better_route_without_rov rov candidate incumbent 1 = false
    ∧ (ribs (process_messages s 1) !!! 1) !! "p" = Some candidate
    ∧ (ribs (process_messages_with better_route_without_rov s 1) !!! 1) !! "p"
      = Some incumbent
    ∧ (snd <$> propagate (run_start pair rov anns))
      ≠ (snd <$> propagate_with better_route_without_rov
                   (run_start pair rov anns)).
Proof.
  intros rov anns candidate incumbent.
  destruct (flatten_graph (run_start pair rov anns)) as [s1|] eqn:Hfl;
    [|by vm_compute in Hfl].
  exists s1, (send_route_to_neighbor s1 2 1
               (mkRoute "p" [2] LEARNED_FROM_CUSTOMER false)
               CUSTOMER_TO_PROVIDER).
  pose proof (flatten_graph_Some _ _ Hfl) as Hs1.
  split; [done|]. split; [done|]. split.
  { right. eapply rtc_l; [by apply step_flatten|]. apply rtc_once.
    eapply (step_send s1 2 _ "p"); rewrite Hs1; by vm_compute. }
  rewrite Hs1. repeat split; by vm_compute.
Qed.

(** C7, amended.  In a run where no ROV-enabled AS seeds an invalid
    announcement, every RIB route at an ROV-enabled AS is valid; so whenever
    [better_route] compares a candidate that passed the ingress drop with an
    incumbent there, the two agree on [rov_invalid], the ROV clause does not
    decide, and the run with the clause removed gives the same result. *)
Theorem rov_clause_idle (g : ASGraph) (rov : gset Z)
    (anns : list Announcement) :
  (∀ a, a ∈ anns → a.1.1 ∈ rov → a.2 = false) →
  (∀ s asn rib p existing candidate,
     run_state g rov anns s →
     asn ∈ rov_enabled_asns s →
     bool_decide (asn ∈ rov_enabled_asns s) && rov_invalid candidate = false →
     ribs s !! asn = Some rib → rib !! p = Some existing →
     rov_invalid candidate = rov_invalid existing
     ∧ better_route (rov_enabled_asns s) candidate existing asn
       = better_route_without_rov (rov_enabled_asns s) candidate existing asn)
  ∧ (∀ s, run_state g rov anns s →
          ∀ asn, process_messages_with better_route_without_rov s asn
                 = process_messages s asn)
  ∧ propagate_with better_route_without_rov (run_start g rov anns)
    = propagate (run_start g rov anns).
Proof.
  intros Hseeds.
  assert (Hinv : ∀ s, run_state g rov anns s →
                      run_invariant rov (rov_clean rov) any_route s).
  { intros s Hrun.
    eapply run_invariant_run;
      eauto using rov_clean_send, rov_clean_receive. }
  split; [|split].
  - intros s asn rib p existing candidate Hrun Hin Hpass Hrib Hp.
    destruct (Hinv s Hrun) as (Hrov & HP & _).
    rewrite bool_decide_eq_true_2 in Hpass by done. simpl in Hpass.
    assert (Hex : rov_invalid existing = false).
    { apply (HP asn rib p existing Hrib Hp). by rewrite <-Hrov. }
    split; [congruence|].
    apply better_route_agree.
    rewrite (bool_decide_eq_true_2 (_ = _)) by congruence.
    apply andb_false_r.
  - intros s Hrun asn. by apply (process_messages_same rov), Hinv.
  - apply (propagate_same rov), Hinv, run_state_seeded.
Qed.

Lemma rov_clause_idle_witness :
  let anns : list Announcement := [(1, "p", true)] in
  (∀ a, a ∈ anns → a.1.1 ∈ ({[2]} : gset Z) → a.2 = false)
  ∧ propagate_with better_route_without_rov (run_start pair {[2]} anns)
    = propagate (run_start pair {[2]} anns).
Proof.
  intros anns.
  assert (Hseeds : ∀ a, a ∈ anns → a.1.1 ∈ ({[2]} : gset Z) → a.2 = false).
  { intros a Ha. apply list_elem_of_singleton in Ha. subst a. simpl.
    intros H2. apply elem_of_singleton_1 in H2. discriminate H2. }
  split; [exact Hseeds|].
  exact (proj2 (proj2 (rov_clause_idle pair {[2]} anns Hseeds))).
Defined.

(** ** Convergence of [propagate] *)

Lemma count_routes_insert (rs : gmap Z (gmap string Route)) asn rib :
  count_routes (<[asn := rib]> rs)
  = count_routes (delete asn rs) + Z.of_nat (size rib).
Proof.
  rewrite <-insert_delete_eq. unfold count_routes.
  rewrite map_fold_insert_L; [done| |apply lookup_delete_eq].
  intros. lia.
Qed.

Lemma count_routes_lookup (rs : gmap Z (gmap string Route)) asn :
  count_routes rs
  = count_routes (delete asn rs) + Z.of_nat (size (rs !!! asn)).
Proof.
  rewrite lookup_total_alt. destruct (rs !! asn) as [rib|] eqn:Hrib; simpl.
  - rewrite <-(insert_id rs asn rib) at 1 by done.
    apply count_routes_insert.
  - rewrite delete_id by done. rewrite map_size_empty. lia.
Qed.

Lemma count_routes_nonneg (rs : gmap Z (gmap string Route)) :
  0 ≤ count_routes rs.
Proof.
  unfold count_routes.
  apply (map_fold_weak_ind (λ acc _, 0 ≤ acc)); [done|].
  intros asn rib m acc _ Hacc. simpl. lia.
Qed.

Lemma count_routes_store asn p route (rs : gmap Z (gmap string Route)) :
  count_routes rs ≤ count_routes (rib_store asn p route rs).
Proof.
  unfold rib_store. rewrite count_routes_insert, (count_routes_lookup rs asn).
  pose proof (map_size_insert p route (rs !!! asn)) as Hsize.
  destruct ((rs !!! asn) !! p); unfold id in Hsize; lia.
Qed.

Lemma count_routes_step s s' :
  step s s' → count_routes (ribs s) ≤ count_routes (ribs s').
Proof.
  destruct 1 as [s s' Hfl|s asn rib p route nbr rel _ _
                |s asn queue p routes route _ _ _|s asn].
  - unfold flatten_graph in Hfl. destruct (fl_rank_to_asns _); [done|].
    by injection Hfl as <-.
  - by rewrite ribs_send.
  - unfold process_route, process_route_with.
    repeat case_match; try done; apply count_routes_store.
  - done.
Qed.

Lemma count_routes_steps s s' :
  rtc step s s' → count_routes (ribs s) ≤ count_routes (ribs s').
Proof.
  induction 1 as [|s s1 s' Hstep _ IH]; [done|].
  etrans; [by apply count_routes_step|done].
Qed.

Lemma total_after_mono s k : total_after s k ≤ total_after s (S k).
Proof. apply count_routes_steps. simpl. apply run_iteration_steps. Qed.

(** The loop after [j] iterations, with [n] iterations left before the
    cap. *)
Lemma propagate_loop_true s (n j : nat) :
  (j + n = 20)%nat →
  (propagate_loop n (Z.of_nat j) (prev_total s j)
                  (Nat.iter j run_iteration s)).1 = true
  ↔ ∃ k, (j < k ≤ 20)%nat ∧ total_after s k = prev_total s (k - 1).
Proof.
  revert j. induction n as [|n IH]; intros j Hj.
  - simpl. split; [done|]. intros (k & ? & _). lia.
  - unfold propagate_loop. simpl. fold run_iteration.
    change (run_iteration (Nat.iter j run_iteration s))
      with (Nat.iter (S j) run_iteration s).
    change (count_routes (ribs (Nat.iter (S j) run_iteration s)))
      with (total_after s (S j)).
    case_bool_decide as Hconv; simpl.
    { split; [|done]. intros _. exists (S j).
      split; [lia|]. by replace (S j - 1)%nat with j by lia. }
    case_bool_decide as Hcap; simpl.
    { split; [done|]. intros (k & Hk & Heq).
      assert (k = S j) as -> by lia.
      by replace (S j - 1)%nat with j in Heq by lia. }
    specialize (IH (S j)).
    replace (Z.of_nat j + 1) with (Z.of_nat (S j)) by lia.
    change (total_after s (S j)) with (prev_total s (S j)) at 1.
    unfold propagate_loop in IH. rewrite IH by lia.
    split; intros (k & Hk & Heq); exists k; (split; [|done]); [lia|].
    destruct (decide (k = S j)) as [->|]; [|lia].
    by replace (S j - 1)%nat with j in Heq by lia.
Qed.

Lemma count_routes_zero_no_route s :
  count_routes (ribs s) = 0 → ribs_all no_route s.
Proof.
  intros Hzero asn rib p r Hrib Hr.
  rewrite (count_routes_lookup (ribs s) asn) in Hzero.
  pose proof (count_routes_nonneg (delete asn (ribs s))) as Hnonneg.
  rewrite lookup_total_alt, Hrib in Hzero. simpl in Hzero.
  assert (Hsize : size rib ≠ 0%nat) by by eapply map_size_ne_0_lookup_2.
  lia.
Qed.

Lemma no_route_count_routes_zero s :
  ribs_all no_route s → count_routes (ribs s) = 0.
Proof.
  unfold ribs_all, count_routes. generalize (ribs s). intros rs.
  apply (map_fold_weak_ind
           (λ acc (m : gmap Z (gmap string Route)),
              (∀ asn rib p route,
                 m !! asn = Some rib → rib !! p = Some route →
                 no_route asn p route) → acc = 0)); [done|].
  intros asn rib m acc Hnone IH Hall.
  rewrite IH.
  - assert (Hrib : rib = ∅).
    { apply map_empty. intros p. destruct (rib !! p) as [r|] eqn:Hr; [|done].
      destruct (Hall asn rib p r); [apply lookup_insert_eq|done]. }
    subst rib. by rewrite map_size_empty.
  - intros asn' rib' p r Hrib' Hr. apply (Hall asn' rib' p r); [|done].
    rewrite lookup_insert_ne; [done|]. intros <-. congruence.
Qed.

Lemma no_route_steps s s' :
  rtc step s s' →
  ribs_all no_route s → queues_all no_route s →
  ribs_all no_route s'.
Proof.
  intros Hsteps Hribs Hqueues.
  apply (run_invariant_steps (rov_enabled_asns s) no_route no_route)
    in Hsteps; [by destruct Hsteps as (_ & ? & _)|done..].
Qed.

(** In a state without queued routes, an iteration that ends with no RIB
    entry is followed by one that ends with none either. *)
Lemma total_after_zero s :
  queues_all no_route s → total_after s 1 = 0 → total_after s 2 = 0.
Proof.
  intros Hqueues Hone.
  pose proof (total_after_mono s 0) as Hmono.
  assert (Hzero : count_routes (ribs s) = 0).
  { pose proof (count_routes_nonneg (ribs s)).
    unfold total_after in Hmono at 1. simpl in Hmono. lia. }
  apply no_route_count_routes_zero.
  eapply no_route_steps; [|by apply count_routes_zero_no_route|done].
  simpl. etrans; apply run_iteration_steps.
Qed.

(** C3. In the loop of [propagate], started in the flattened state [s1],
    the total number of RIB entries never decreases from one iteration to
    the next; [propagate] returns true exactly when some iteration up to the
    20th ends with the total recorded at the end of the previous one
    ([prev_total_routes], which is 0 before the first iteration); it
    returns false when no iteration up to the 20th does.  When no route is
    queued at the start, as in a run, this is the same as: some iteration
    [k], [2 ≤ k ≤ 20], of the loop ends with the total of iteration
    [k - 1]. *)
Theorem propagate_convergence (s s1 : BGPSimulator) :
  flatten_graph s = Some s1 →
  (∀ k, total_after s1 k ≤ total_after s1 (S k))
  ∧ ∃ r, propagate s = Some r
         ∧ (r.1 = true
            ↔ ∃ k, (1 ≤ k ≤ 20)%nat
                   ∧ total_after s1 k = prev_total s1 (k - 1))
         ∧ ((∀ k, (1 ≤ k ≤ 20)%nat
                  → total_after s1 k ≠ prev_total s1 (k - 1))
            → r.1 = false)
         ∧ (queues_all no_route s →
            r.1 = true
            ↔ ∃ k, (2 ≤ k ≤ 20)%nat
                   ∧ total_after s1 k = total_after s1 (k - 1)).
Proof.
  intros Hfl. split; [apply total_after_mono|].
  unfold propagate, propagate_with. rewrite Hfl.
  eexists. split; [done|].
  pose proof (propagate_loop_true s1 20 0 eq_refl) as Hloop.
  change (Z.of_nat 0) with 0 in Hloop.
  change (prev_total s1 0) with 0 in Hloop.
  change (Nat.iter 0 run_iteration s1) with s1 in Hloop.
  unfold propagate_loop in Hloop.
  destruct (propagate_loop_with better_route 20 0 0 s1) as [b s'].
  cbn [fst] in *.
  assert (Hiff : b = true
                 ↔ ∃ k, (1 ≤ k ≤ 20)%nat
                        ∧ total_after s1 k = prev_total s1 (k - 1)).
  { rewrite Hloop.
    split; intros (k & ? & ?); exists k; (split; [lia|done]). }
  split; [done|]. split.
  - intros Hnever. destruct b; [|done].
    destruct (proj1 Hiff eq_refl) as (k & Hk & Heq).
    destruct (Hnever k); [lia|done].
  - intros Hqueues. rewrite Hiff.
    assert (Hqueues1 : queues_all no_route s1).
    { rewrite (flatten_graph_Some _ _ Hfl). exact Hqueues. }
    split.
    + intros (k & Hk & Heq).
      destruct k as [|[|k]]; [lia| |].
      * exists 2%nat. split; [lia|].
        change (prev_total s1 (1 - 1)) with 0 in Heq.
        change (2 - 1)%nat with 1%nat.
        by rewrite Heq, total_after_zero.
      * exists (S (S k)). split; [lia|].
        by replace (S (S k) - 1)%nat with (S k) in * by lia.
    + intros (k & Hk & Heq). exists k. split; [lia|].
      destruct k as [|[|k]]; [lia..|].
      by replace (S (S k) - 1)%nat with (S k) in * by lia.
Qed.

Lemma propagate_convergence_witness :
  ∃ s1 r, flatten_graph (run_start triangle ∅ [(1, "p", false)]) = Some s1
          ∧ propagate (run_start triangle ∅ [(1, "p", false)]) = Some r
          ∧ r.1 = true
          ∧ total_after s1 1 = 3 ∧ total_after s1 2 = 3.
Proof.
  destruct (flatten_graph (run_start triangle ∅ [(1, "p", false)]))
    as [s1|] eqn:Hfl; [|by vm_compute in Hfl].
  destruct (propagate_convergence _ s1 Hfl) as [_ (r & Hr & Htrue & _)].
  exists s1, r. split; [reflexivity|]. split; [exact Hr|].
  pose proof (flatten_graph_Some _ _ Hfl) as Hs1.
  assert (H1 : total_after s1 1 = 3) by (rewrite Hs1; by vm_compute).
  assert (H2 : total_after s1 2 = 3) by (rewrite Hs1; by vm_compute).
  split; [|exact (conj H1 H2)].
  apply Htrue. exists 2%nat. split; [lia|].
  change (prev_total s1 (2 - 1)) with (total_after s1 1).
  exact (eq_trans H2 (eq_sym H1)).
Defined.

(** ** The graph invariant *)

Lemma get_neighbors_add g asn1 asn2 rel a :
  get_neighbors (add_relationship g asn1 asn2 rel) a
  = get_neighbors g a
    ++ (if decide (a = asn1) then [(asn2, rel)] else [])
    ++ (if decide (a = asn2)
        then [(asn1, match rel with
                     | PROVIDER_TO_CUSTOMER => CUSTOMER_TO_PROVIDER
                     | CUSTOMER_TO_PROVIDER => PROVIDER_TO_CUSTOMER
                     | PEER_TO_PEER => PEER_TO_PEER
                     end)]
        else []).
Proof.
  unfold get_neighbors, add_relationship. simpl.
  destruct (decide (a = asn2)) as [->|Hne2].
  - rewrite lookup_insert_eq.
    destruct (decide (asn2 = asn1)) as [->|Hne1].
    + rewrite lookup_total_insert_eq, lookup_total_alt.
      destruct (adjacency g !! asn1); simpl; by rewrite <-?app_assoc.
    + rewrite lookup_total_insert_ne by done. rewrite lookup_total_alt.
      destruct (adjacency g !! asn2); simpl; by rewrite ?app_nil_r.
  - rewrite lookup_insert_ne by done.
    destruct (decide (a = asn1)) as [->|Hne1].
    + rewrite lookup_insert_eq, lookup_total_alt.
      destruct (adjacency g !! asn1); simpl; by rewrite ?app_nil_r.
    + rewrite lookup_insert_ne by done.
      destruct (adjacency g !! a); simpl; by rewrite ?app_nil_r.
Qed.

Lemma count_entry_app e l1 l2 :
  count_entry e (l1 ++ l2) = (count_entry e l1 + count_entry e l2)%nat.
Proof. unfold count_entry. by rewrite filter_app, length_app. Qed.

Lemma count_entry_singleton e x :
  count_entry e [x] = if decide (x = e) then 1%nat else 0%nat.
Proof.
  unfold count_entry. rewrite filter_cons. by case_decide.
Qed.

Lemma count_entry_pos e l : (0 < count_entry e l)%nat ↔ e ∈ l.
Proof.
  unfold count_entry. split.
  - intros Hpos. destruct (filter (λ x, x = e) l) as [|x l'] eqn:Hf;
      [simpl in Hpos; lia|].
    assert (Hx : x ∈ filter (λ x, x = e) l) by (rewrite Hf; by left).
    apply list_elem_of_filter in Hx as [-> ?]. done.
  - intros Hin.
    assert (Hx : e ∈ filter (λ x, x = e) l) by by apply list_elem_of_filter.
    destruct (filter (λ x, x = e) l); [by apply elem_of_nil in Hx|simpl; lia].
Qed.

Lemma wf_graph_add g asn1 asn2 rel :
  wf_graph g → wf_graph (add_relationship g asn1 asn2 rel).
Proof.
  intros [Hends Hsym]. split.
  - intros a nb r. rewrite get_neighbors_add.
    rewrite !elem_of_app. simpl.
    intros [Hin|[Hin|Hin]].
    + destruct (Hends a nb r Hin).
      rewrite !elem_of_union, !elem_of_singleton. tauto.
    + case_decide; [|by apply elem_of_nil in Hin].
      apply list_elem_of_singleton in Hin. injection Hin as -> ->.
      rewrite !elem_of_union, !elem_of_singleton. split; auto.
    + case_decide; [|by apply elem_of_nil in Hin].
      apply list_elem_of_singleton in Hin. injection Hin as -> ->.
      rewrite !elem_of_union, !elem_of_singleton. split; auto.
  - intros a b. rewrite !get_neighbors_add, !count_entry_app.
    rewrite (Hsym a b).
    repeat case_decide; subst; rewrite ?count_entry_singleton;
      destruct rel; repeat case_decide; simplify_eq; try done;
      unfold count_entry; simpl; lia.
Qed.

Lemma wf_graph_built g : built_graph g → wf_graph g.
Proof.
  induction 1 as [|g asn1 asn2 rel _ IH|g asn _ [Hends Hsym]].
  - split; [|done]. intros a nb rel Hin. by apply elem_of_nil in Hin.
  - by apply wf_graph_add.
  - split; [|done]. intros a nb rel Hin.
    destruct (Hends a nb rel Hin). simpl.
    rewrite !elem_of_union, !elem_of_singleton. tauto.
Qed.

(** What the loaders build. *)
Lemma built_graph_line g line :
  built_graph g → built_graph (load_relationship_line g line).
Proof.
  intros Hg. unfold load_relationship_line.
  repeat case_match; try done; by apply built_add.
Qed.

Lemma built_graph_load fs g filename g' :
  built_graph g → load_from_file fs g filename = Returned g' →
  built_graph g'.
Proof.
  unfold load_from_file. intros Hg.
  destruct (open_file fs filename) as [content|]; [|done].
  intros [= <-]. revert g Hg.
  induction (lines_of content) as [|line lines IH]; intros g Hg; [done|].
  simpl. by apply IH, built_graph_line.
Qed.

(** ** The cycle check terminates *)

Lemma white_filter_mono (c c' : gmap Z Color) (l : list Z) :
  (∀ x, c' !!! x = WHITE → c !!! x = WHITE) →
  (length (filter (λ a, c' !!! a = WHITE) l)
   ≤ length (filter (λ a, c !!! a = WHITE) l))%nat.
Proof.
  intros Hsub. induction l as [|a l IH]; [done|].
  rewrite !filter_cons.
  destruct (decide (c' !!! a = WHITE)) as [Hw|Hw].
  - rewrite decide_True by by apply Hsub. simpl. lia.
  - case_decide; simpl; lia.
Qed.

Lemma white_filter_gray (c : gmap Z Color) (u : Z) (l : list Z) :
  u ∈ l → c !!! u = WHITE →
  (length (filter (λ a, <[u := GRAY]> c !!! a = WHITE) l)
   < length (filter (λ a, c !!! a = WHITE) l))%nat.
Proof.
  intros Hin Hw. induction l as [|a l IH]; [by apply elem_of_nil in Hin|].
  rewrite !filter_cons.
  assert (Hmono : (length (filter (λ a, <[u := GRAY]> c !!! a = WHITE) l)
                   ≤ length (filter (λ a, c !!! a = WHITE) l))%nat).
  { apply white_filter_mono. intros x.
    destruct (decide (x = u)) as [->|Hne].
    - by rewrite lookup_total_insert_eq.
    - by rewrite lookup_total_insert_ne. }
  destruct (decide (a = u)) as [->|Hne].
  - rewrite lookup_total_insert_eq.
    rewrite decide_False by done. rewrite decide_True by done. simpl. lia.
  - rewrite lookup_total_insert_ne by done.
    apply elem_of_cons in Hin as [->|Hin]; [done|].
    specialize (IH Hin). case_decide; simpl; lia.
Qed.

Lemma white_count_mono g (c c' : gmap Z Color) :
  (∀ x, c' !!! x = WHITE → c !!! x = WHITE) →
  (white_count g c' ≤ white_count g c)%nat.
Proof. apply white_filter_mono. Qed.

Lemma white_count_gray g (c : gmap Z Color) u :
  u ∈ all_asns g → c !!! u = WHITE →
  (white_count g (<[u := GRAY]> c) < white_count g c)%nat.
Proof.
  intros Hin Hw. apply white_filter_gray; [|done]. by apply elem_of_elements.
Qed.

Lemma white_insert_gray (c : gmap Z Color) u x :
  <[u := GRAY]> c !!! x = WHITE → c !!! x = WHITE.
Proof.
  destruct (decide (x = u)) as [->|Hne].
  - by rewrite lookup_total_insert_eq.
  - by rewrite lookup_total_insert_ne.
Qed.

Lemma white_insert_black (c : gmap Z Color) u x :
  <[u := BLACK]> c !!! x = WHITE → c !!! x = WHITE.
Proof.
  destruct (decide (x = u)) as [->|Hne].
  - by rewrite lookup_total_insert_eq.
  - by rewrite lookup_total_insert_ne.
Qed.

(** With a recursive call that answers on every white AS of a colouring
    with at most [n] white ASes, the loop over the neighbours answers. *)
Lemma dfs_neighbors_total g recurse (n : nat) nbrs :
  (∀ c v, v ∈ all_asns g → c !!! v = WHITE → (white_count g c ≤ n)%nat →
          ∃ b c', recurse c v = Some (b, c')
                  ∧ ∀ x, c' !!! x = WHITE → c !!! x = WHITE) →
  (∀ e, e ∈ nbrs → e.1 ∈ all_asns g) →
  ∀ c, (white_count g c ≤ n)%nat →
       ∃ b c', dfs_neighbors recurse c nbrs = Some (b, c')
               ∧ ∀ x, c' !!! x = WHITE → c !!! x = WHITE.
Proof.
  intros Hrec. induction nbrs as [|e nbrs IH]; intros Hin c Hc.
  - by exists false, c.
  - assert (Hin' : ∀ e', e' ∈ nbrs → e'.1 ∈ all_asns g)
      by (intros e' He'; apply Hin; by right).
    simpl. case_decide; [by apply IH|].
    case_decide; [by exists true, c|].
    case_decide as Hw; [|by apply IH].
    destruct (Hrec c e.1) as (b & c1 & -> & Hsub);
      [apply Hin; by left|done..|].
    destruct b; [by exists true, c1|].
    destruct (IH Hin' c1) as (b & c2 & -> & Hsub').
    + etrans; [by apply white_count_mono|done].
    + exists b, c2. split; [done|]. auto.
Qed.

Lemma dfs_total g :
  wf_graph g →
  ∀ fuel c u, u ∈ all_asns g → c !!! u = WHITE →
              (white_count g c ≤ fuel)%nat →
              ∃ b c', dfs g fuel c u = Some (b, c')
                      ∧ ∀ x, c' !!! x = WHITE → c !!! x = WHITE.
Proof.
  intros [Hends _]. induction fuel as [|fuel IH]; intros c u Hu Hw Hc.
  - pose proof (white_count_gray g c u Hu Hw). lia.
  - simpl.
    destruct (dfs_neighbors_total g (dfs g fuel) fuel (get_neighbors g u) IH)
      with (c := <[u := GRAY]> c) as (b & c1 & -> & Hsub).
    + intros [nb rel] He. by destruct (Hends u nb rel He).
    + pose proof (white_count_gray g c u Hu Hw). lia.
    + destruct b.
      * exists true, c1. split; [done|]. eauto using white_insert_gray.
      * exists false, (<[u := BLACK]> c1). split; [done|].
        eauto using white_insert_gray, white_insert_black.
Qed.

Lemma dfs_from_all_total g fuel asns :
  wf_graph g → (∀ a, a ∈ asns → a ∈ all_asns g) →
  ∀ c, (white_count g c ≤ fuel)%nat →
       is_Some (dfs_from_all g fuel c asns).
Proof.
  intros Hwf. induction asns as [|a asns IH]; intros Hin c Hc; [by eexists|].
  assert (Hin' : ∀ a', a' ∈ asns → a' ∈ all_asns g)
    by (intros a' Ha'; apply Hin; by right).
  simpl. case_decide as Hw; [|by apply IH].
  destruct (dfs_total g Hwf fuel c a) as (b & c1 & -> & Hsub);
    [apply Hin; by left|done..|].
  destruct b; [by eexists|].
  apply IH; [done|]. etrans; [by apply white_count_mono|done].
Qed.

(** The cycle check answers on every graph the program builds. *)
Lemma has_cycle_total g :
  built_graph g → is_Some (has_customer_provider_cycle g).
Proof.
  intros Hg. apply dfs_from_all_total.
  - by apply wf_graph_built.
  - intros a. by rewrite elem_of_elements.
  - unfold white_count. etrans; [apply length_filter|]. done.
Qed.

(** ** The program and its input files *)

Lemma lines_of_read_until input :
  input ≠ ""%string →
  lines_of input
  = (read_until "010" input).1 :: lines_of (read_until "010" input).2.
Proof.
  induction input as [|c input IH]; [done|]. intros _.
  simpl. case_decide; [done|].
  destruct input as [|c' input']; [done|].
  rewrite IH by done.
  by destruct (read_until "010" (String c' input')).
Qed.

Lemma getline_lines_of input line rest :
  getline "010" input = Some (line, rest) →
  lines_of input = line :: lines_of rest.
Proof.
  unfold getline. destruct input as [|c input]; [done|].
  intros Hread.
  assert (Hr : read_until "010" (String c input) = (line, rest))
    by congruence.
  rewrite lines_of_read_until by done. by rewrite Hr.
Qed.

Lemma main_total fs opts : is_Some (main fs opts).
Proof.
  unfold main. case_match; [by eexists|].
  destruct (load_from_file fs empty_graph (relationships_file opts))
    as [g|e] eqn:Hload; [|by eexists].
  destruct (has_cycle_total g) as [b ->].
  { eapply built_graph_load; [apply built_empty|done]. }
  destruct b; [by eexists|].
  repeat case_match; by eexists.
Qed.

(** The claim that an unopenable ROV-ASN file is fatal fails: with the
    relationships and announcements of S3 and an ROV file that cannot be
    opened, the run ends with exit code 0 and writes [ribs.csv]. *)
Lemma rov_file_missing_not_fatal :
  let fs := example_files (unlines ["asn,prefix,rov_invalid"; "1,p,True"])
                          None in
  open_file fs (rov_asns_file (example_options "rov.txt")) = None
  ∧ ∃ ribs_csv,
      main fs (example_options "rov.txt") = Some (Exit 0 (Some ribs_csv)).
Proof. vm_compute. split; [reflexivity|]. eexists. reflexivity. Qed.

(** C8, amended.  When the relationships file or the announcements file
    cannot be opened, the run ends with exit code 1 and writes no
    [ribs.csv].  When the ROV-ASN file cannot be opened, the run goes on as
    if no ROV file had been given (empty ROV set). *)
Theorem missing_input_file (fs : Files) (opts : Options) :
  (open_file fs (relationships_file opts) = None →
   main fs opts = Some (Exit 1 None))
  ∧ (open_file fs (announcements_file opts) = None →
     main fs opts = Some (Exit 1 None))
  ∧ (open_file fs (rov_asns_file opts) = None →
     load_rov_asns fs (rov_asns_file opts) = ∅
     ∧ main fs opts
       = main fs (mkOptions (relationships_file opts)
                            (announcements_file opts) "")).
Proof.
  split; [|split].
  - intros Hopen. unfold main, load_from_file. rewrite Hopen.
    by case_match.
  - intros Hopen. unfold main. case_match; [done|].
    destruct (load_from_file fs empty_graph (relationships_file opts))
      as [g|e] eqn:Hload; [|done].
    destruct (has_cycle_total g) as [b ->].
    { eapply built_graph_load; [apply built_empty|done]. }
    destruct b; [done|].
    unfold load_announcements. by rewrite Hopen.
  - intros Hopen. unfold load_rov_asns. rewrite Hopen. split; [done|].
    unfold main. simpl. unfold load_rov_asns. rewrite Hopen.
    destruct (bool_decide _ || bool_decide _); [done|].
    destruct (load_from_file fs empty_graph (relationships_file opts))
      as [g|e]; [|done].
    destruct (has_customer_provider_cycle g) as [[]|]; try done.
    by destruct (negb _).
Qed.

Lemma missing_input_file_witness :
  let fs := example_files (unlines ["asn,prefix,rov_invalid"; "1,p,True"])
                          None in
  open_file fs "nowhere.txt" = None
  ∧ main fs (mkOptions "nowhere.txt" "anns.csv" "") = Some (Exit 1 None)
  ∧ main fs (mkOptions "rel.txt" "nowhere.txt" "") = Some (Exit 1 None)
  ∧ main fs (mkOptions "rel.txt" "anns.csv" "nowhere.txt")
    = main fs (mkOptions "rel.txt" "anns.csv" "").
Proof.
  intros fs.
  assert (Hopen : open_file fs "nowhere.txt" = None) by reflexivity.
  split; [exact Hopen|]. split; [|split].
  - exact (proj1 (missing_input_file fs
                    (mkOptions "nowhere.txt" "anns.csv" "")) Hopen).
  - exact (proj1 (proj2 (missing_input_file fs
                    (mkOptions "rel.txt" "nowhere.txt" ""))) Hopen).
  - exact (proj2 (proj2 (proj2 (missing_input_file fs
                    (mkOptions "rel.txt" "anns.csv" "nowhere.txt"))) Hopen)).
Defined.

(** What [load_announcements] does with one row: it skips a row with
    fewer than three fields, seeds one announcement when the first field
    reads as an [int], and otherwise leaves through the exception of
    [std::stoi]. *)
Lemma load_announcement_line_cases sim line :
  load_announcement_line sim line = Returned sim
  ∨ (∃ origin p flag,
       load_announcement_line sim line
       = Returned (seed_announcement sim origin p flag))
  ∨ (∃ seed_asn_str rest e,
       getline "," line = Some (seed_asn_str, rest)
       ∧ stoi seed_asn_str = Thrown e
       ∧ load_announcement_line sim line = Thrown e).
Proof.
  unfold load_announcement_line.
  destruct (getline "," line) as [[seed_asn_str rest]|]; [|by left].
  destruct (getline "," rest) as [[p rest']|]; [|by left].
  destruct (getline "010" rest') as [[rov_invalid_str rest'']|]; [|by left].
  destruct (stoi seed_asn_str) as [seed_asn|e] eqn:Hstoi.
  - right; left. by eexists _, _, _.
  - right; right. by eexists _, _, _.
Qed.

(** The rows that are loaded are seeds: when [load_announcements] returns,
    the simulator is the start of a run. *)
Lemma load_announcement_lines_seeds lines : ∀ sim sim',
  load_announcement_lines sim lines = Returned sim' →
  ∃ anns, sim' = seed_all sim anns.
Proof.
  induction lines as [|line lines IH]; intros sim sim' Hload.
  - injection Hload as <-. by exists [].
  - simpl in Hload.
    destruct (load_announcement_line_cases sim line)
      as [Hskip|[(origin & p & flag & Hseed)|(? & ? & e & _ & _ & Hthrow)]].
    + rewrite Hskip in Hload. by apply IH.
    + rewrite Hseed in Hload. destruct (IH _ _ Hload) as [anns ->].
      by exists ((origin, p, flag) :: anns).
    + by rewrite Hthrow in Hload.
Qed.

Lemma load_announcements_run fs g rov filename sim :
  load_announcements fs (set_rov_asns (new_simulator g) rov) filename
  = Returned sim →
  ∃ anns, sim = run_start g rov anns.
Proof.
  unfold load_announcements. destruct (open_file fs filename); [|done].
  apply load_announcement_lines_seeds.
Qed.

(** C9.  A row whose origin field is not a number is not skipped: the
    exception of [std::stoi] leaves [load_announcements] and the run ends
    with exit code 1 and no [ribs.csv], although the row after it is well
    formed.  [load_rov_asns] catches the same exception and skips the
    line, and a row with a missing field is skipped. *)
Theorem non_numeric_origin_aborts :
  let rows := ["asn,prefix,rov_invalid"; "abc,10.0.0.0/24,False"; "1,p,False"]
  in
  let fs := example_files (unlines rows) None in
  let sim := new_simulator pair in
  main fs (example_options "") = Some (Exit 1 None)
  ∧ load_announcement_line sim "abc,10.0.0.0/24,False"
    = Thrown invalid_argument
  ∧ load_announcement_line sim "1,10.0.0.0/24" = Returned sim
  ∧ load_rov_asn_line ∅ "abc" = ∅
  ∧ (∃ ribs_csv,
       main (example_files (unlines ["asn,prefix,rov_invalid"; "1,p,False"])
                           None)
            (example_options "")
       = Some (Exit 0 (Some ribs_csv))).
Proof.
  vm_compute. repeat split; try reflexivity. eexists. reflexivity.
Qed.

(** ** Rank index: the loops of [flatten_graph] *)

Lemma customer_of_cp_edge g c a :
  wf_graph g → customer_of g c a ↔ cp_edge g c a.
Proof.
  intros [_ Hsym]. unfold customer_of, cp_edge.
  rewrite <-!count_entry_pos. by rewrite (Hsym a c).
Qed.

Lemma due_insert g rk k a x r :
  rk !! x = None → due g rk k a → due g (<[x := r]> rk) k a.
Proof.
  intros Hx [Hall Hone]. split.
  - intros c Hc. destruct (Hall c Hc) as (j & Hj & Hlt). exists j.
    split; [|done]. rewrite lookup_insert_ne; [done|congruence].
  - intros r' ->. destruct (Hone r' eq_refl) as (c & Hc & Hr). exists c.
    split; [done|]. rewrite lookup_insert_ne; [done|congruence].
Qed.

Lemma unranked_customers_nonneg g rk a : 0 ≤ unranked_customers g rk a.
Proof. unfold unranked_customers. lia. Qed.

Lemma unranked_customers_insert g (rk : gmap Z nat) a r p :
  rk !! a = None →
  unranked_customers g rk p
  = unranked_customers g (<[a := r]> rk) p
    + Z.of_nat (count_entry (a, PROVIDER_TO_CUSTOMER) (get_neighbors g p)).
Proof.
  intros Ha. unfold unranked_customers, count_entry.
  induction (get_neighbors g p) as [|[x rel] l IH]; [done|].
  rewrite !filter_cons. simpl.
  destruct (decide (x = a)) as [->|Hne].
  - rewrite lookup_insert_eq.
    destruct (decide (rel = PROVIDER_TO_CUSTOMER)) as [->|Hrel].
    + rewrite decide_True by done.
      rewrite decide_False by (intros [_ ?]; done).
      rewrite decide_True by done. simpl. lia.
    + rewrite decide_False by (intros [? _]; done).
      rewrite decide_False by (intros [? _]; done).
      rewrite decide_False by congruence. lia.
  - rewrite lookup_insert_ne by done.
    rewrite (decide_False (P := (x, rel) = (a, PROVIDER_TO_CUSTOMER)))
      by congruence.
    case_decide; simpl; lia.
Qed.

Lemma unranked_customers_zero g (rk : gmap Z nat) a c :
  unranked_customers g rk a = 0 → customer_of g c a → is_Some (rk !! c).
Proof.
  unfold unranked_customers, customer_of. intros Hzero Hc.
  destruct (rk !! c) as [j|] eqn:Hj; [by eexists|].
  assert (Hin : (c, PROVIDER_TO_CUSTOMER)
                ∈ filter (λ e : Z * RelationType,
                            e.2 = PROVIDER_TO_CUSTOMER ∧ rk !! e.1 = None)
                         (get_neighbors g a))
    by by apply list_elem_of_filter.
  destruct (filter _ (get_neighbors g a));
    [by apply elem_of_nil in Hin|simpl in Hzero; lia].
Qed.

Lemma unranked_customers_pos g (rk : gmap Z nat) a :
  unranked_customers g rk a ≠ 0 →
  ∃ c, customer_of g c a ∧ rk !! c = None.
Proof.
  unfold unranked_customers, customer_of. intros Hpos.
  destruct (filter (λ e : Z * RelationType,
                      e.2 = PROVIDER_TO_CUSTOMER ∧ rk !! e.1 = None)
                   (get_neighbors g a)) as [|[c rel] l] eqn:Hf; [done|].
  assert (Hin : (c, rel) ∈ filter (λ e : Z * RelationType,
                      e.2 = PROVIDER_TO_CUSTOMER ∧ rk !! e.1 = None)
                   (get_neighbors g a)) by (rewrite Hf; by left).
  apply list_elem_of_filter in Hin as [[Hrel Hnone] Hin]. simpl in *.
  subst rel. by exists c.
Qed.

Lemma count_entry_cons e x l :
  count_entry e (x :: l)
  = ((if decide (x = e) then 1 else 0) + count_entry e l)%nat.
Proof. unfold count_entry. rewrite filter_cons. by case_decide. Qed.

Lemma release_provider_fields st e :
  fl_asn_to_rank (release_provider st e) = fl_asn_to_rank st
  ∧ fl_rank_to_asns (release_provider st e) = fl_rank_to_asns st
  ∧ current_rank (release_provider st e) = current_rank st.
Proof. unfold release_provider. by case_decide. Qed.

(** One turn of the loop over the neighbours of the AS [a] just ranked. *)
Lemma release_provider_inv g st n e pending a :
  wf_graph g →
  fl_asn_to_rank st !! a = Some (current_rank st) →
  e ∈ get_neighbors g a →
  flatten_inv g st n (e :: pending) →
  flatten_inv g (release_provider st e) n pending.
Proof.
  intros Hwf Ha He [Hrank Hcount Hnodup Hqueue Hfront Hback Hlen].
  unfold release_provider. destruct e as [p rel]. simpl.
  case_decide as Hrel.
  2: { split; try done. intros x Hx. rewrite (Hcount x Hx).
       rewrite count_entry_cons.
       rewrite decide_False by (intros [= _ ?]; done). done. }
  subst rel.
  assert (Hp : p ∈ all_asns g) by by destruct (proj1 Hwf a p _ He).
  assert (Hcust : customer_of g a p) by by apply customer_of_cp_edge.
  assert (Hpnone : fl_asn_to_rank st !! p = None).
  { destruct (fl_asn_to_rank st !! p) as [k|] eqn:Hk; [|done].
    destruct (Hrank p k Hk) as (Hle & _ & Hall & _).
    destruct (Hall a Hcust) as (j & Hj & Hlt). simplify_eq. lia. }
  assert (Hcp : customer_count st !!! p
                = unranked_customers g (fl_asn_to_rank st) p
                  + Z.of_nat (count_entry (p, CUSTOMER_TO_PROVIDER) pending)
                  + 1).
  { rewrite (Hcount p Hp), count_entry_cons, decide_True by done. lia. }
  assert (Hnotin : p ∉ zero_customer_queue st).
  { rewrite Hqueue. intros (_ & _ & Hz).
    pose proof (unranked_customers_nonneg g (fl_asn_to_rank st) p). lia. }
  assert (Hcount' : ∀ x, x ∈ all_asns g →
            <[p := customer_count st !!! p - 1]> (customer_count st) !!! x
            = unranked_customers g (fl_asn_to_rank st) x
              + Z.of_nat (count_entry (x, CUSTOMER_TO_PROVIDER) pending)).
  { intros x Hx. destruct (decide (x = p)) as [->|Hne].
    - rewrite lookup_total_insert_eq. lia.
    - rewrite lookup_total_insert_ne by done. rewrite (Hcount x Hx).
      rewrite count_entry_cons.
      rewrite decide_False by (intros [= ?]; done). done. }
  rewrite lookup_total_insert_eq.
  case_decide as Hzero; split; simpl; try done.
  - apply NoDup_app. split; [done|]. split; [|apply NoDup_singleton].
    intros x Hx Hx'. apply list_elem_of_singleton in Hx'. by subst x.
  - intros x. rewrite elem_of_app, list_elem_of_singleton, Hqueue.
    destruct (decide (x = p)) as [->|Hne].
    + rewrite lookup_total_insert_eq. tauto.
    + rewrite lookup_total_insert_ne by done. tauto.
  - intros i x Hi Hlt. apply (Hfront i x); [|done].
    rewrite lookup_app_l in Hi; [done|lia].
  - intros i x Hi Hge.
    destruct (decide (i < length (zero_customer_queue st))%nat) as [Hlt|Hnlt].
    + rewrite lookup_app_l in Hi by done. by apply (Hback i x).
    + rewrite lookup_app_r in Hi by lia.
      apply list_lookup_singleton_Some in Hi as [_ <-].
      split.
      * intros c Hc.
        destruct (unranked_customers_zero g (fl_asn_to_rank st) p c)
          as [j Hj]; [|done|].
        { pose proof (unranked_customers_nonneg g (fl_asn_to_rank st) p).
          lia. }
        exists j. split; [done|]. destruct (Hrank c j Hj). lia.
      * intros r' [= <-]. by exists a.
  - rewrite length_app. simpl. lia.
  - intros x. rewrite Hqueue.
    destruct (decide (x = p)) as [->|Hne].
    + rewrite lookup_total_insert_eq.
      split; intros (_ & _ & Hz); [|done].
      pose proof (unranked_customers_nonneg g (fl_asn_to_rank st) p). lia.
    + by rewrite lookup_total_insert_ne.
Qed.

Lemma release_providers_inv g st n a pending :
  wf_graph g →
  fl_asn_to_rank st !! a = Some (current_rank st) →
  (∀ e, e ∈ pending → e ∈ get_neighbors g a) →
  flatten_inv g st n pending →
  flatten_inv g (foldl release_provider st pending) n []
  ∧ fl_asn_to_rank (foldl release_provider st pending) = fl_asn_to_rank st
  ∧ fl_rank_to_asns (foldl release_provider st pending) = fl_rank_to_asns st
  ∧ current_rank (foldl release_provider st pending) = current_rank st.
Proof.
  intros Hwf. revert st.
  induction pending as [|e pending IH]; intros st Ha Hin Hinv; [done|].
  simpl. destruct (release_provider_fields st e) as (Hrk & Hgr & Hcr).
  destruct (IH (release_provider st e)) as (Hinv' & Hrk' & Hgr' & Hcr').
  - by rewrite Hrk, Hcr.
  - intros e' He'. apply Hin. by right.
  - eapply release_provider_inv; [done..|apply Hin; by left|done].
  - split; [done|]. by rewrite Hrk', Hgr', Hcr'.
Qed.

Lemma filter_length_le {A} (P Q : A → Prop) `{!∀ x, Decision (P x)}
    `{!∀ x, Decision (Q x)} (l : list A) :
  (∀ x, P x → Q x) → (length (filter P l) ≤ length (filter Q l))%nat.
Proof.
  intros Hsub. induction l as [|a l IH]; [done|].
  rewrite !filter_cons. destruct (decide (P a)) as [HP|HP].
  - rewrite decide_True by by apply Hsub. simpl. lia.
  - case_decide; simpl; lia.
Qed.

Lemma filter_length_lt {A} (P Q : A → Prop) `{!∀ x, Decision (P x)}
    `{!∀ x, Decision (Q x)} (l : list A) a :
  (∀ x, P x → Q x) → a ∈ l → Q a → ¬ P a →
  (length (filter P l) < length (filter Q l))%nat.
Proof.
  intros Hsub Hin HQ HP. induction l as [|b l IH];
    [by apply elem_of_nil in Hin|].
  rewrite !filter_cons.
  pose proof (filter_length_le P Q l Hsub) as Hle.
  apply elem_of_cons in Hin as [<-|Hin].
  - rewrite decide_False, decide_True by done. simpl. lia.
  - specialize (IH Hin). destruct (decide (P b)) as [HPb|HPb].
    + rewrite decide_True by by apply Hsub. simpl. lia.
    + case_decide; simpl; lia.
Qed.

(** One turn of the [for] loop. *)
Lemma rank_front_inv g st n :
  wf_graph g → flatten_inv g st (S n) [] →
  flatten_inv g (rank_front g st) n []
  ∧ current_rank (rank_front g st) = current_rank st
  ∧ ∃ a, a ∈ all_asns g ∧ fl_asn_to_rank st !! a = None
         ∧ fl_asn_to_rank (rank_front g st)
           = <[a := current_rank st]> (fl_asn_to_rank st)
         ∧ fl_rank_to_asns (rank_front g st)
           = alter (λ l, l ++ [a]) (current_rank st) (fl_rank_to_asns st).
Proof.
  intros Hwf [Hrank Hcount Hnodup Hqueue Hfront Hback Hlen].
  unfold rank_front.
  destruct (zero_customer_queue st) as [|a q] eqn:Hq; [simpl in Hlen; lia|].
  destruct (proj1 (Hqueue a)) as (Ha & Hnone & Hzero); [by left|].
  apply NoDup_cons in Hnodup as [Hnotin Hnodup].
  set (st0 := mkFlatten (customer_count st) q
                (<[a := current_rank st]> (fl_asn_to_rank st))
                (alter (λ l, l ++ [a]) (current_rank st) (fl_rank_to_asns st))
                (current_rank st)).
  destruct (release_providers_inv g st0 n a (get_neighbors g a))
    as (Hinv & Hrk & Hgr & Hcr); [done| |done| |].
  { simpl. apply lookup_insert_eq. }
  { split; simpl.
    - intros x k Hx. destruct (decide (x = a)) as [->|Hne].
      + rewrite lookup_insert_eq in Hx. injection Hx as <-.
        split; [done|]. split; [done|].
        apply due_insert; [done|]. apply (Hfront 0%nat a); [done|lia].
      + rewrite lookup_insert_ne in Hx by done.
        destruct (Hrank x k Hx) as (? & ? & ?).
        split; [done|]. split; [done|]. by apply due_insert.
    - intros x Hx. rewrite (Hcount x Hx).
      rewrite (unranked_customers_insert g _ a (current_rank st) x) by done.
      rewrite (proj2 Hwf x a). unfold count_entry. simpl. lia.
    - done.
    - intros x. split.
      + intros Hin. destruct (proj1 (Hqueue x)) as (? & ? & ?); [by right|].
        split; [done|]. split; [|done].
        rewrite lookup_insert_ne; [done|]. by intros ->.
      + intros (Hx & Hxnone & Hxzero).
        assert (x ≠ a) by (intros ->; by rewrite lookup_insert_eq in Hxnone).
        rewrite lookup_insert_ne in Hxnone by done.
        assert (Hin : x ∈ a :: q) by by apply Hqueue.
        by apply elem_of_cons in Hin as [->|Hin].
    - intros i x Hi Hlt. apply due_insert; [done|].
      apply (Hfront (S i) x); [done|lia].
    - intros i x Hi Hge. apply due_insert; [done|].
      apply (Hback (S i) x); [done|lia].
    - simpl in Hlen. lia. }
  split; [done|]. split; [done|].
  exists a. by rewrite Hrk, Hgr.
Qed.

Lemma groups_inv_rank st a len :
  groups_inv st len → (current_rank st < len)%nat →
  fl_asn_to_rank st !! a = None →
  ∀ st', fl_asn_to_rank st' = <[a := current_rank st]> (fl_asn_to_rank st) →
         fl_rank_to_asns st'
         = alter (λ l, l ++ [a]) (current_rank st) (fl_rank_to_asns st) →
         groups_inv st' len.
Proof.
  intros [Hlength Hgroups] Hlt Hnone st' Hrk Hgr.
  unfold groups_inv. rewrite Hrk, Hgr. split.
  - by rewrite length_alter.
  - intros x k. destruct (decide (k = current_rank st)) as [->|Hk].
    + rewrite list_lookup_alter_eq.
      destruct (lookup_lt_is_Some_2 (fl_rank_to_asns st) (current_rank st))
        as [l Hl]; [lia|].
      rewrite Hl. simpl. destruct (decide (x = a)) as [->|Hne].
      * rewrite lookup_insert_eq. split; [|done]. intros _.
        exists (l ++ [a]). split; [done|]. apply elem_of_app. right. by left.
      * rewrite lookup_insert_ne by done. rewrite Hgroups. split.
        -- intros (l' & Hl' & Hin). simplify_eq. exists (l ++ [a]).
           split; [done|]. apply elem_of_app. by left.
        -- intros (l' & [= <-] & Hin). exists l. split; [done|].
           apply elem_of_app in Hin as [?|Hin]; [done|].
           by apply list_elem_of_singleton in Hin.
    + rewrite list_lookup_alter_ne by done.
      destruct (decide (x = a)) as [->|Hne].
      * rewrite lookup_insert_eq. split; [by intros [= ?]|].
        intros Hex. apply Hgroups in Hex. congruence.
      * rewrite lookup_insert_ne by done. apply Hgroups.
Qed.

(** The [for] loop: [m] turns. *)
Lemma rank_front_iter_inv g m : ∀ st n len,
  wf_graph g → flatten_inv g st (m + n) [] →
  groups_inv st len → (current_rank st < len)%nat →
  flatten_inv g (Nat.iter m (rank_front g) st) n []
  ∧ current_rank (Nat.iter m (rank_front g) st) = current_rank st
  ∧ groups_inv (Nat.iter m (rank_front g) st) len
  ∧ (unranked_count g (Nat.iter m (rank_front g) st) + m
     ≤ unranked_count g st)%nat.
Proof.
  induction m as [|m IH]; intros st n len Hwf Hinv Hgroups Hlt.
  - simpl. split; [done|]. split; [done|]. split; [done|]. lia.
  - simpl.
    destruct (IH st (S n) len Hwf) as (Hinv' & Hcr & Hgroups' & Hun);
      [by replace (m + S n)%nat with (S m + n)%nat by lia|done..|].
    destruct (rank_front_inv g _ n Hwf Hinv')
      as (Hinv'' & Hcr' & a & Ha & Hnone & Hrk & Hgr).
    split; [done|]. split; [congruence|]. split.
    + eapply groups_inv_rank; [exact Hgroups'|lia|done..].
    + assert (unranked_count g (rank_front g (Nat.iter m (rank_front g) st))
              < unranked_count g (Nat.iter m (rank_front g) st))%nat; [|lia].
      unfold unranked_count. rewrite Hrk.
      apply (filter_length_lt _ _ _ a).
      * intros x Hx. destruct (decide (x = a)) as [->|Hne]; [done|].
        by rewrite lookup_insert_ne in Hx.
      * by apply elem_of_elements.
      * done.
      * by rewrite lookup_insert_eq.
Qed.

(** One turn of the [while] loop. *)
Lemma rank_level_inv g st :
  wf_graph g →
  flatten_inv g st (length (zero_customer_queue st)) [] →
  groups_inv st (current_rank st) →
  zero_customer_queue st ≠ [] →
  flatten_inv g (rank_level g st)
              (length (zero_customer_queue (rank_level g st))) []
  ∧ groups_inv (rank_level g st) (current_rank (rank_level g st))
  ∧ (unranked_count g (rank_level g st) < unranked_count g st)%nat
  ∧ current_rank (rank_level g st) = S (current_rank st).
Proof.
  intros Hwf Hinv [Hlength Hgroups] Hne. unfold rank_level.
  set (st1 := mkFlatten (customer_count st) (zero_customer_queue st)
                (fl_asn_to_rank st) (fl_rank_to_asns st ++ [[]])
                (current_rank st)).
  assert (Hinv1 : flatten_inv g st1
                    (length (zero_customer_queue st) + 0) []).
  { rewrite Nat.add_0_r. by destruct Hinv. }
  assert (Hgroups1 : groups_inv st1 (S (current_rank st))).
  { split; simpl.
    - rewrite length_app. simpl. lia.
    - intros a k. rewrite Hgroups. split.
      + intros (l & Hl & Hin). exists l. split; [|done].
        by apply lookup_app_l_Some.
      + intros (l & Hl & Hin). exists l. split; [|done].
        apply lookup_app_Some in Hl as [Hl|[_ Hl]]; [done|].
        apply list_lookup_singleton_Some in Hl as [_ <-].
        by apply elem_of_nil in Hin. }
  destruct (rank_front_iter_inv g (length (zero_customer_queue st)) st1 0%nat
              (S (current_rank st)) Hwf Hinv1 Hgroups1)
    as (Hinv2 & Hcr & Hgroups2 & Hun); [simpl; lia|].
  fold st1. set (st2 := Nat.iter _ (rank_front g) st1) in *.
  simpl in Hcr. split; [|split; [|split]].
  - destruct Hinv2 as [Hrank Hcount Hnodup Hqueue Hfront Hback Hlen].
    split; simpl; try done.
    + intros a k Hk. destruct (Hrank a k Hk) as (? & ? & ?).
      split; [lia|done].
    + intros i a Hi _. apply (Hback i a); [done|lia].
    + intros i a Hi Hge. apply lookup_lt_Some in Hi. lia.
  - destruct Hgroups2 as [Hlength2 Hgroups2]. split; simpl; [|done].
    by rewrite Hlength2, Hcr.
  - assert (0 < length (zero_customer_queue st))%nat
      by (destruct (zero_customer_queue st); [done|simpl; lia]).
    unfold unranked_count in *. simpl.
    change (fl_asn_to_rank st1) with (fl_asn_to_rank st) in Hun. lia.
  - simpl. by rewrite Hcr.
Qed.

(** The [while] loop leaves through its exit test. *)
Lemma flatten_loop_inv g fuel : ∀ st,
  wf_graph g →
  flatten_inv g st (length (zero_customer_queue st)) [] →
  groups_inv st (current_rank st) →
  (unranked_count g st ≤ fuel)%nat →
  zero_customer_queue (flatten_loop g fuel st) = []
  ∧ flatten_inv g (flatten_loop g fuel st) 0 []
  ∧ groups_inv (flatten_loop g fuel st)
               (current_rank (flatten_loop g fuel st))
  ∧ (current_rank st ≤ current_rank (flatten_loop g fuel st))%nat
  ∧ (zero_customer_queue st ≠ [] →
     (current_rank st < current_rank (flatten_loop g fuel st))%nat).
Proof.
  induction fuel as [|fuel IH]; intros st Hwf Hinv Hgroups Hfuel.
  - assert (Hempty : zero_customer_queue st = []).
    { destruct (zero_customer_queue st) as [|a q] eqn:Hq; [done|].
      destruct (proj1 (fi_queue _ _ _ _ Hinv a)) as (Ha & Hnone & _);
        [rewrite Hq; by left|].
      assert (Hin : a ∈ filter (λ a, fl_asn_to_rank st !! a = None)
                               (elements (all_asns g))).
      { apply list_elem_of_filter. split; [done|]. by apply elem_of_elements. }
      unfold unranked_count in Hfuel.
      destruct (filter _ (elements (all_asns g)));
        [by apply elem_of_nil in Hin|simpl in Hfuel; lia]. }
    simpl. split; [done|]. split; [by rewrite Hempty in Hinv|].
    split; [done|]. split; [lia|done].
  - simpl. destruct (zero_customer_queue st) as [|a q] eqn:Hq.
    + split; [done|]. split; [done|]. split; [done|]. split; [lia|done].
    + destruct (rank_level_inv g st Hwf) as (Hinv' & Hgroups' & Hun & Hcr);
        [by rewrite Hq|done|by rewrite Hq|].
      destruct (IH (rank_level g st) Hwf Hinv' Hgroups')
        as (Hempty & Hinv'' & Hgroups'' & Hle & _); [lia|].
      split; [done|]. split; [done|]. split; [done|]. split; [lia|].
      intros _. lia.
Qed.

(** ** Rank index: the state before the loop *)

Lemma count_neighbors_fold asn (cc0 : gmap Z Z) v l :
  foldl (λ cc (neighbor : Z * RelationType),
           if decide (neighbor.2 = PROVIDER_TO_CUSTOMER)
           then <[asn := cc !!! asn + 1]> cc else cc)
        (<[asn := v]> cc0) l
  = <[asn := v + Z.of_nat (length (filter (λ e : Z * RelationType,
                                             e.2 = PROVIDER_TO_CUSTOMER) l))]>
      cc0.
Proof.
  revert v. induction l as [|e l IH]; intros v.
  - simpl. f_equal. lia.
  - simpl. rewrite filter_cons. case_decide.
    + rewrite lookup_total_insert_eq, insert_insert_eq, IH. simpl.
      f_equal. lia.
    + apply IH.
Qed.

Lemma count_customers_fold g l : ∀ (cc : gmap Z Z) a,
  foldl (λ cc asn,
           foldl (λ cc (neighbor : Z * RelationType),
                    if decide (neighbor.2 = PROVIDER_TO_CUSTOMER)
                    then <[asn := cc !!! asn + 1]> cc else cc)
                 (<[asn := 0]> cc) (get_neighbors g asn)) cc l !! a
  = if decide (a ∈ l)
    then Some (Z.of_nat (length (filter (λ e : Z * RelationType,
                                           e.2 = PROVIDER_TO_CUSTOMER)
                                        (get_neighbors g a))))
    else cc !! a.
Proof.
  induction l as [|x l IH]; intros cc a.
  - done.
  - simpl. rewrite IH, count_neighbors_fold.
    destruct (decide (a ∈ l)) as [Hin|Hnotin].
    + rewrite decide_True; [done|by right].
    + destruct (decide (a = x)) as [->|Hne].
      * rewrite lookup_insert_eq, decide_True by by left. by f_equal.
      * rewrite lookup_insert_ne by done.
        rewrite decide_False; [done|].
        intros [?|?]%elem_of_cons; done.
Qed.

Lemma unranked_customers_empty g a :
  unranked_customers g ∅ a
  = Z.of_nat (length (filter (λ e : Z * RelationType,
                                e.2 = PROVIDER_TO_CUSTOMER)
                             (get_neighbors g a))).
Proof.
  unfold unranked_customers. f_equal. f_equal.
  apply list_filter_iff. intros e. rewrite lookup_empty. tauto.
Qed.

Lemma count_customers_lookup g a :
  count_customers g !! a
  = if decide (a ∈ all_asns g) then Some (unranked_customers g ∅ a)
    else None.
Proof.
  unfold count_customers. rewrite count_customers_fold, lookup_empty.
  rewrite unranked_customers_empty.
  destruct (decide (a ∈ elements (all_asns g))) as [Hin|Hnotin].
  - rewrite decide_True; [done|]. by apply elem_of_elements.
  - rewrite decide_False; [done|]. by rewrite <-elem_of_elements.
Qed.

Lemma elem_of_initial_queue (cc : gmap Z Z) a :
  a ∈ initial_queue cc ↔ cc !! a = Some 0.
Proof.
  unfold initial_queue. rewrite list_elem_of_fmap. split.
  - intros ([x v] & -> & Hin). apply list_elem_of_filter in Hin as [Hv Hin].
    simpl in *. subst v. by apply elem_of_map_to_list.
  - intros Hcc. exists (a, 0). split; [done|].
    apply list_elem_of_filter. split; [done|]. by apply elem_of_map_to_list.
Qed.

Lemma NoDup_initial_queue (cc : gmap Z Z) : NoDup (initial_queue cc).
Proof.
  unfold initial_queue.
  apply (sublist_NoDup _ ((map_to_list cc).*1));
    [apply NoDup_fst_map_to_list|].
  apply fmap_sublist, sublist_filter.
Qed.

Lemma flatten_start_inv g :
  flatten_inv g (flatten_start g)
              (length (zero_customer_queue (flatten_start g))) []
  ∧ groups_inv (flatten_start g) (current_rank (flatten_start g))
  ∧ (unranked_count g (flatten_start g) ≤ size (all_asns g))%nat.
Proof.
  assert (Hcc : ∀ a, a ∈ all_asns g →
                     count_customers g !!! a = unranked_customers g ∅ a).
  { intros a Ha. rewrite lookup_total_alt, count_customers_lookup.
    by rewrite decide_True. }
  assert (Hq : ∀ a, a ∈ initial_queue (count_customers g)
                    ↔ a ∈ all_asns g ∧ count_customers g !!! a = 0).
  { intros a. rewrite elem_of_initial_queue, count_customers_lookup. split.
    - case_decide as Ha; [|done]. intros [= Hz]. split; [done|].
      by rewrite (Hcc a Ha).
    - intros [Ha Hz]. rewrite decide_True by done. f_equal.
      by rewrite <-(Hcc a Ha). }
  split; [|split].
  - split; simpl.
    + intros a k Hk. by rewrite lookup_empty in Hk.
    + intros a Ha. rewrite (Hcc a Ha). unfold count_entry. simpl. lia.
    + apply NoDup_initial_queue.
    + intros a. rewrite Hq, lookup_empty. tauto.
    + intros i a Hi _. apply list_elem_of_lookup_2 in Hi.
      apply Hq in Hi as [Ha Hz]. split; [|done].
      intros c Hc. rewrite (Hcc a Ha) in Hz.
      destruct (unranked_customers_zero g ∅ a c Hz Hc) as [j Hj].
      by rewrite lookup_empty in Hj.
    + intros i a Hi Hge. apply lookup_lt_Some in Hi. lia.
    + done.
  - split; simpl; [done|]. intros a k. rewrite lookup_empty. split; [done|].
    by intros (l & Hl & _).
  - unfold unranked_count. etrans; [apply length_filter|]. done.
Qed.

(** The ranking that [flatten_graph] computes, for a graph the program
    can build: the loop is left through its exit test, and the invariant
    holds of the result. *)
Lemma flatten_ranks_inv g :
  wf_graph g →
  zero_customer_queue (flatten_ranks g) = []
  ∧ flatten_inv g (flatten_ranks g) 0 []
  ∧ groups_inv (flatten_ranks g) (current_rank (flatten_ranks g))
  ∧ (initial_queue (count_customers g) ≠ [] →
     fl_rank_to_asns (flatten_ranks g) ≠ []).
Proof.
  intros Hwf. destruct (flatten_start_inv g) as (Hinv & Hgroups & Hfuel).
  destruct (flatten_loop_inv g (size (all_asns g)) (flatten_start g) Hwf
              Hinv Hgroups Hfuel) as (Hempty & Hinv' & Hgroups' & _ & Hpos).
  split; [done|]. split; [done|]. split; [done|].
  intros Hne. specialize (Hpos Hne). destruct Hgroups' as [Hlen _].
  fold (flatten_ranks g) in *. intros Hnil. rewrite Hnil in Hlen.
  simpl in *. lia.
Qed.

(** ** Rank index: what the ranks are *)

Lemma is_chain_tail g x l : is_chain g (x :: l) → is_chain g l.
Proof. destruct l as [|y l]; [done|]. by intros [_ ?]. Qed.

Lemma is_chain_tc g l : ∀ x y,
  is_chain g (x :: l) → y ∈ l → tc (cp_edge g) x y.
Proof.
  induction l as [|z l IH]; intros x y Hchain Hy;
    [by apply elem_of_nil in Hy|].
  destruct Hchain as [Hedge Hchain].
  apply elem_of_cons in Hy as [->|Hy]; [by apply tc_once|].
  eapply tc_l; [done|]. by apply IH.
Qed.

Lemma is_chain_NoDup g l : acyclic g → is_chain g l → NoDup l.
Proof.
  intros Hacyclic. induction l as [|x l IH]; intros Hchain; [constructor|].
  constructor.
  - intros Hin. apply (Hacyclic x). by eapply is_chain_tc.
  - apply IH. by eapply is_chain_tail.
Qed.

(** When the loop has ended, an AS without a rank has a customer without
    a rank, so unranked ASes form chains of any length. *)
Lemma unranked_chain g st :
  wf_graph g → zero_customer_queue st = [] → flatten_inv g st 0 [] →
  ∀ (n : nat) a, a ∈ all_asns g → fl_asn_to_rank st !! a = None →
    ∃ c l, length l = n ∧ is_chain g (c :: l)
           ∧ ∀ x, x ∈ c :: l →
                  x ∈ all_asns g ∧ fl_asn_to_rank st !! x = None.
Proof.
  intros Hwf Hempty Hinv n a Ha Hnone. induction n as [|n IH].
  - exists a, []. split; [done|]. split; [done|].
    intros x Hx. apply list_elem_of_singleton in Hx. by subst x.
  - destruct IH as (c0 & l & Hlen & Hchain & Hall).
    destruct (Hall c0) as [Hc0 Hc0none]; [by left|].
    destruct (unranked_customers_pos g (fl_asn_to_rank st) c0)
      as (c & Hcust & Hcnone).
    { intros Hz. assert (Hin : c0 ∈ zero_customer_queue st).
      { apply (fi_queue _ _ _ _ Hinv). split; [done|]. split; [done|].
        rewrite (fi_count _ _ _ _ Hinv c0 Hc0), Hz.
        unfold count_entry. simpl. lia. }
      rewrite Hempty in Hin. by apply elem_of_nil in Hin. }
    exists c, (c0 :: l). split; [simpl; by rewrite Hlen|]. split.
    + split; [by apply customer_of_cp_edge|done].
    + intros x Hx. apply elem_of_cons in Hx as [->|Hx]; [|by apply Hall].
      split; [|done]. by destruct (proj1 Hwf c0 c _ Hcust).
Qed.

Lemma all_ranked g st :
  wf_graph g → acyclic g →
  zero_customer_queue st = [] → flatten_inv g st 0 [] →
  ∀ a, a ∈ all_asns g → is_Some (fl_asn_to_rank st !! a).
Proof.
  intros Hwf Hacyclic Hempty Hinv a Ha.
  destruct (fl_asn_to_rank st !! a) as [k|] eqn:Hk; [by eexists|].
  destruct (unranked_chain g st Hwf Hempty Hinv (size (all_asns g)) a Ha Hk)
    as (c & l & Hlen & Hchain & Hall).
  assert (Hsub : c :: l ⊆+ elements (all_asns g)).
  { apply NoDup_submseteq; [by eapply is_chain_NoDup|].
    intros x Hx. apply elem_of_elements. by apply Hall. }
  apply submseteq_length in Hsub. simpl in Hsub. rewrite Hlen in Hsub.
  unfold size, set_size in Hsub. simpl in Hsub. lia.
Qed.

Lemma chain_exists g st n pending :
  flatten_inv g st n pending → wf_graph g →
  ∀ r a, fl_asn_to_rank st !! a = Some r → chain g r a.
Proof.
  intros Hinv Hwf. induction r as [|r IH]; intros a Ha; [constructor|].
  destruct (fi_rank _ _ _ _ Hinv a (S r) Ha) as (_ & _ & _ & Hone).
  destruct (Hone r eq_refl) as (c & Hcust & Hc).
  eapply chain_edge; [by apply IH|]. by apply customer_of_cp_edge.
Qed.

Lemma chain_bound g st n pending :
  flatten_inv g st n pending → wf_graph g →
  ∀ m a, chain g m a →
         ∀ r, fl_asn_to_rank st !! a = Some r → (m ≤ r)%nat.
Proof.
  intros Hinv Hwf m a Hchain.
  induction Hchain as [a|m c a Hchain IH Hedge]; intros r Ha; [lia|].
  destruct (fi_rank _ _ _ _ Hinv a r Ha) as (_ & _ & Hall & _).
  destruct (Hall c) as (j & Hj & Hlt); [by apply customer_of_cp_edge|].
  specialize (IH j Hj). lia.
Qed.

Lemma flatten_loop_empty g fuel st :
  zero_customer_queue st = [] → flatten_loop g fuel st = st.
Proof. intros Hempty. destruct fuel; simpl; [done|]. by rewrite Hempty. Qed.

(** C5. Rank correctness of [flatten_graph] on a graph that the program can
    build and whose customer→provider relation is acyclic: every AS gets
    a rank; the rank is 0 exactly for the ASes without customers; every
    customer of a ranked AS has a strictly smaller rank; the rank of an AS is
    the length of the longest chain of customer→provider edges that ends
    at it; and the rank groups hold exactly the ASes of each rank.  When
    there is an AS at all, [flatten_graph] stores this ranking. *)
Theorem flatten_graph_ranks (s : BGPSimulator) :
  built_graph (graph s) → acyclic (graph s) →
  let g := graph s in
  let rank := fl_asn_to_rank (flatten_ranks g) in
  let groups := fl_rank_to_asns (flatten_ranks g) in
  (∀ a, a ∈ all_asns g → is_Some (rank !! a))
  ∧ (∀ a, a ∈ all_asns g →
          rank !! a = Some 0%nat ↔ ∀ c, ¬ customer_of g c a)
  ∧ (∀ a r c, rank !! a = Some r → customer_of g c a →
              ∃ rc, rank !! c = Some rc ∧ (rc < r)%nat)
  ∧ (∀ a r, rank !! a = Some r →
            chain g r a ∧ ∀ n, chain g n a → (n ≤ r)%nat)
  ∧ (∀ a r, rank !! a = Some r ↔ ∃ l, groups !! r = Some l ∧ a ∈ l)
  ∧ (all_asns g ≠ ∅ →
     flatten_graph s
     = Some (mkSim g (rov_enabled_asns s) (ribs s) (message_queues s)
                   rank groups)).
Proof.
  intros Hbuilt Hacyclic g rank groups.
  pose proof (wf_graph_built g Hbuilt) as Hwf.
  destruct (flatten_ranks_inv g Hwf) as (Hempty & Hinv & Hgroups & Hnonempty).
  pose proof (all_ranked g _ Hwf Hacyclic Hempty Hinv) as Hall.
  split; [done|]. split; [|split; [|split; [|split]]].
  - intros a Ha. split.
    + intros Hr c Hc.
      destruct (fi_rank _ _ _ _ Hinv a 0%nat Hr) as (_ & _ & Hlow & _).
      destruct (Hlow c Hc) as (j & _ & Hlt). lia.
    + intros Hnone. destruct (Hall a Ha) as [[|r] Hr]; [done|].
      destruct (fi_rank _ _ _ _ Hinv a (S r) Hr) as (_ & _ & _ & Hone).
      destruct (Hone r eq_refl) as (c & Hc & _). by destruct (Hnone c).
  - intros a r c Hr Hc.
    destruct (fi_rank _ _ _ _ Hinv a r Hr) as (_ & _ & Hlow & _).
    by apply Hlow.
  - intros a r Hr. split; [by eapply chain_exists|].
    intros n Hchain. by eapply chain_bound.
  - apply Hgroups.
  - intros Hasns. unfold flatten_graph. fold g.
    destruct (fl_rank_to_asns (flatten_ranks g)) as [|l ls] eqn:Hgr; [|done].
    destruct Hnonempty; [|done]. intros Hq.
    apply set_choose_L in Hasns as [a Ha].
    destruct (Hall a Ha) as [r Hr].
    unfold rank, flatten_ranks in Hr.
    rewrite flatten_loop_empty in Hr by done.
    change (fl_asn_to_rank (flatten_start g)) with (∅ : gmap Z nat) in Hr.
    by rewrite lookup_empty in Hr.
Qed.

Lemma acyclic_by_level g (level : Z → nat) :
  Forall (λ entry : Z * list (Z * RelationType),
            Forall (λ neighbor : Z * RelationType,
                      neighbor.2 = CUSTOMER_TO_PROVIDER →
                      (level entry.1 < level neighbor.1)%nat) entry.2)
         (map_to_list (adjacency g)) →
  acyclic g.
Proof.
  intros Hcheck.
  assert (Hedge : ∀ c a, cp_edge g c a → (level c < level a)%nat).
  { intros c a. unfold cp_edge, get_neighbors.
    destruct (adjacency g !! c) as [l|] eqn:Hl;
      [|intros Hin; by apply elem_of_nil in Hin].
    intros Hin. apply elem_of_map_to_list in Hl.
    rewrite Forall_forall in Hcheck. specialize (Hcheck _ Hl). simpl in Hcheck.
    rewrite Forall_forall in Hcheck. by apply (Hcheck _ Hin). }
  assert (Htc : ∀ c a, tc (cp_edge g) c a → (level c < level a)%nat).
  { induction 1 as [c a H|c b a H _ IH]; [by apply Hedge|].
    apply Hedge in H. lia. }
  intros a Ha. apply Htc in Ha. lia.
Qed.

Lemma flatten_graph_ranks_witness :
  built_graph diamond ∧ acyclic diamond
  ∧ fl_asn_to_rank (flatten_ranks diamond) !! 30 = Some 2%nat
  ∧ chain diamond 2 30 ∧ (∀ n, chain diamond n 30 → (n ≤ 2)%nat).
Proof.
  assert (Hbuilt : built_graph diamond)
    by (repeat apply built_add; apply built_empty).
  assert (Hacyclic : acyclic diamond).
  { apply (acyclic_by_level diamond diamond_level).
    apply (bool_decide_unpack _). vm_compute. exact I. }
  assert (Hrank : fl_asn_to_rank (flatten_ranks diamond) !! 30 = Some 2%nat)
    by (vm_compute; reflexivity).
  split; [exact Hbuilt|]. split; [exact Hacyclic|]. split; [exact Hrank|].
  destruct (flatten_graph_ranks (new_simulator diamond) Hbuilt Hacyclic)
    as (_ & _ & _ & Hchain & _).
  exact (Hchain 30 2%nat Hrank).
Defined.

(** * Further properties *)

(** ** The decision process is a strict order *)

Lemma better_route_without_rov_iff rov C E D :
  better_route_without_rov rov C E D = true
  ↔ pref_of (announcement_type C) > pref_of (announcement_type E)
    ∨ (pref_of (announcement_type C) = pref_of (announcement_type E)
       ∧ ((length (as_path C) < length (as_path E))%nat
          ∨ (length (as_path C) = length (as_path E)
             ∧ next_hop (as_path C) < next_hop (as_path E)))).
Proof.
  unfold better_route_without_rov.
  generalize (pref_of (announcement_type C)) (pref_of (announcement_type E))
    (length (as_path C)) (length (as_path E))
    (next_hop (as_path C)) (next_hop (as_path E)).
  intros pc pe lc le nc ne.
  repeat case_bool_decide; simpl; split; intros; try done; lia.
Qed.

Lemma better_route_iff rov C E D :
  better_route rov C E D = true
  ↔ (D ∈ rov ∧ rov_invalid C = false ∧ rov_invalid E = true)
    ∨ ((D ∉ rov ∨ rov_invalid C = rov_invalid E)
       ∧ better_route_without_rov rov C E D = true).
Proof.
  rewrite better_route_unfold.
  destruct (decide (D ∈ rov)) as [HD|HD];
    [rewrite (bool_decide_eq_true_2 _ HD)
    |rewrite (bool_decide_eq_false_2 _ HD)];
    (destruct (decide (rov_invalid C = rov_invalid E)) as [Hrov|Hrov];
      [rewrite (bool_decide_eq_true_2 _ Hrov)
      |rewrite (bool_decide_eq_false_2 _ Hrov)]); simpl.
  - split; [by right; auto|]. intros [(_ & HC & HE)|[_ H]]; [congruence|done].
  - split.
    + intros HC. left. destruct (rov_invalid C), (rov_invalid E); done.
    + intros [(_ & -> & _)|[[?|?] _]]; done.
  - split; [by right; auto|]. intros [(? & _)|[_ H]]; done.
  - split; [by right; auto|]. intros [(? & _)|[_ H]]; done.
Qed.

Lemma better_route_asym rov A B D :
  better_route rov A B D = true → better_route rov B A D = false.
Proof.
  intros HAB. apply not_true_is_false. intros HBA.
  apply better_route_iff in HAB, HBA.
  rewrite !better_route_without_rov_iff in HAB, HBA.
  revert HAB HBA.
  generalize (pref_of (announcement_type A)) (pref_of (announcement_type B))
    (length (as_path A)) (length (as_path B))
    (next_hop (as_path A)) (next_hop (as_path B)).
  intros pa pb la lb na nb.
  destruct (rov_invalid A), (rov_invalid B); intros HAB HBA;
    intuition (try done; try lia).
Qed.

Lemma better_route_trans rov A B C D :
  better_route rov A B D = true → better_route rov B C D = true →
  better_route rov A C D = true.
Proof.
  intros HAB HBC. apply better_route_iff in HAB, HBC. apply better_route_iff.
  rewrite !better_route_without_rov_iff in *.
  revert HAB HBC.
  generalize (pref_of (announcement_type A)) (pref_of (announcement_type B))
    (pref_of (announcement_type C))
    (length (as_path A)) (length (as_path B)) (length (as_path C))
    (next_hop (as_path A)) (next_hop (as_path B)) (next_hop (as_path C)).
  intros pa pb pc la lb lc na nb nc.
  destruct (decide (D ∈ rov)) as [HD|HD];
    destruct (rov_invalid A), (rov_invalid B), (rov_invalid C);
    intros HAB HBC; intuition (try done; try lia).
Qed.

(** X1. [better_route] at a fixed deciding AS is a strict order on
    routes: it is asymmetric and transitive, so two routes never replace
    each other in turn, and a chain of replacements is a replacement. *)
Theorem better_route_strict_order (rov : gset Z) (A B C : Route) (D : Z) :
  (better_route rov A B D = true → better_route rov B A D = false)
  ∧ (better_route rov A B D = true → better_route rov B C D = true →
     better_route rov A C D = true).
Proof. split; [apply better_route_asym|apply better_route_trans]. Qed.

Lemma better_route_strict_order_witness :
  let A := mkRoute "p" [3; 1] LEARNED_FROM_CUSTOMER false in
  let B := mkRoute "p" [3; 2; 1] LEARNED_FROM_CUSTOMER false in
  let C := mkRoute "p" [3; 4] LEARNED_FROM_PEER false in
  better_route ∅ A B 3 = true ∧ better_route ∅ B C 3 = true
  ∧ better_route ∅ B A 3 = false ∧ better_route ∅ A C 3 = true.
Proof.
  intros A B C.
  assert (HAB : better_route ∅ A B 3 = true) by reflexivity.
  assert (HBC : better_route ∅ B C 3 = true) by reflexivity.
  destruct (better_route_strict_order ∅ A B C 3) as [Hasym Htrans].
  exact (conj HAB (conj HBC (conj (Hasym HAB) (Htrans HAB HBC)))).
Defined.

(** X2. A route that was received over an edge can be exported again only
    upwards-then-anything or anything-then-downwards: after a send along
    [rel], [can_export] allows the edge [rel'] exactly when [rel] was
    customer-to-provider or [rel'] is provider-to-customer. *)
Theorem export_after_receive (receiver : Z) (route : Route)
    (rel rel' : RelationType) :
  can_export (sent_route receiver route rel) rel' = true
  ↔ rel = CUSTOMER_TO_PROVIDER ∨ rel' = PROVIDER_TO_CUSTOMER.
Proof.
  unfold can_export, sent_route. simpl.
  destruct rel, rel'; simpl; split; intros H;
    first [done | by left | by right | by destruct H].
Qed.

(** ** More invariants of a run *)

(** X3. Path membership: in every state of a run, the AS that holds a RIB
    entry is the first element of the entry's path, and every queued route
    starts with the AS it is queued at. *)
Theorem owner_heads_path (g : ASGraph) (rov : gset Z)
    (anns : list Announcement) (s : BGPSimulator) :
  run_state g rov anns s →
  ribs_all owner_is_head s ∧ queues_all owner_is_head s.
Proof.
  intros Hrun.
  eapply (run_invariant_run rov owner_is_head owner_is_head) in Hrun.
  - by destruct Hrun as (_ & ? & ?).
  - done.
  - done.
  - done.
Qed.

Lemma owner_heads_path_witness :
  ∃ s, propagate (run_start valley ∅ [(4, "p", false)]) = Some (true, s)
       ∧ ribs_all owner_is_head s
       ∧ rib_entry s 2 "p"
         = Some (mkRoute "p" [2; 3; 4] LEARNED_FROM_PEER false).
Proof.
  destruct (propagate (run_start valley ∅ [(4, "p", false)]))
    as [[b s]|] eqn:Hp; [|by vm_compute in Hp].
  assert (b = true) as ->.
  { apply (f_equal (λ r, match r with Some (b, _) => b | None => false end))
      in Hp. by vm_compute in Hp. }
  assert (He : rib_entry s 2 "p"
               = Some (mkRoute "p" [2; 3; 4] LEARNED_FROM_PEER false)).
  { change (rib_entry s 2 "p")
      with ((λ r : option (bool * BGPSimulator),
               match r with
               | Some (_, s) => rib_entry s 2 "p"
               | None => None
               end) (Some (true, s))).
    rewrite <-Hp. by vm_compute. }
  exists s. split; [reflexivity|].
  exact (conj (proj1 (owner_heads_path valley ∅ [(4, "p", false)] s
                        (run_state_propagate _ _ _ _ _ Hp))) He).
Defined.



(** ** RIB entries only improve *)

Lemma rib_entry_store s asn p route a q :
  rib_entry (with_ribs s (rib_store asn p route (ribs s))) a q
  = if decide (a = asn ∧ q = p) then Some route else rib_entry s a q.
Proof.
  unfold rib_entry, rib_store. simpl.
  destruct (decide (a = asn)) as [->|Hne].
  - rewrite lookup_insert_eq. destruct (decide (q = p)) as [->|Hq].
    + rewrite lookup_insert_eq. by rewrite decide_True.
    + rewrite lookup_insert_ne by done.
      rewrite decide_False by (intros [_ ?]; done).
      rewrite lookup_total_alt. by destruct (ribs s !! asn).
  - rewrite lookup_insert_ne by done.
    by rewrite decide_False by (intros [? _]; done).
Qed.

Lemma rib_entry_process_route s asn p route a q :
  rib_entry (process_route s asn p route) a q = rib_entry s a q
  ∨ (a = asn ∧ q = p
     ∧ rib_entry (process_route s asn p route) a q = Some route
     ∧ (rib_entry s a q = None
        ∨ ∃ existing, rib_entry s a q = Some existing
                      ∧ better_route (rov_enabled_asns s) route existing asn
                        = true)).
Proof.
  unfold process_route, process_route_with.
  destruct (bool_decide (asn ∈ rov_enabled_asns s) && rov_invalid route);
    [by left|].
  destruct (decide (a = asn ∧ q = p)) as [[-> ->]|Hne].
  2: { left. repeat case_match; try done;
         by rewrite rib_entry_store, decide_False. }
  destruct (ribs s !! asn) as [rib|] eqn:Hrib.
  - destruct (rib !! p) as [existing|] eqn:Hp.
    + destruct (better_route _ route existing asn) eqn:Hbetter; [|by left].
      right. rewrite rib_entry_store, decide_True by done.
      split; [done|]. split; [done|]. split; [done|]. right.
      exists existing. unfold rib_entry. by rewrite Hrib.
    + right. rewrite rib_entry_store, decide_True by done.
      split; [done|]. split; [done|]. split; [done|]. left.
      unfold rib_entry. by rewrite Hrib.
  - right. rewrite rib_entry_store, decide_True by done.
    split; [done|]. split; [done|]. split; [done|]. left.
    unfold rib_entry. by rewrite Hrib.
Qed.

Lemma rov_step s s' : step s s' → rov_enabled_asns s' = rov_enabled_asns s.
Proof.
  destruct 1 as [s s' Hfl| | |]; simpl.
  - by rewrite (flatten_graph_Some _ _ Hfl).
  - apply rov_send.
  - apply rov_process_route.
  - done.
Qed.

Lemma rov_steps s s' :
  rtc step s s' → rov_enabled_asns s' = rov_enabled_asns s.
Proof.
  induction 1 as [|s s1 s' Hstep _ IH]; [done|].
  by rewrite IH, (rov_step _ _ Hstep).
Qed.

Lemma rov_seed_all s anns :
  rov_enabled_asns (seed_all s anns) = rov_enabled_asns s.
Proof.
  revert s. induction anns as [|a anns IH]; intros s; [done|].
  simpl. by rewrite IH.
Qed.

Lemma rov_run_start g rov anns :
  rov_enabled_asns (run_start g rov anns) = rov.
Proof. unfold run_start. by rewrite rov_seed_all. Qed.

Lemma rib_entry_step s s' asn p r :
  step s s' → rib_entry s asn p = Some r →
  ∃ r', rib_entry s' asn p = Some r'
        ∧ (r' = r ∨ better_route (rov_enabled_asns s) r' r asn = true).
Proof.
  destruct 1 as [s s' Hfl|s a rib q route nbr rel _ _
                |s a queue q routes route _ _ _|s a]; intros Hr.
  - exists r. split; [|by left]. rewrite (flatten_graph_Some _ _ Hfl).
    exact Hr.
  - exists r. split; [|by left]. unfold rib_entry. by rewrite ribs_send.
  - destruct (rib_entry_process_route s a q route asn p)
      as [Heq|(-> & -> & Hnew & [Hnone|(existing & Hex & Hbetter)])].
    + exists r. split; [by rewrite Heq|by left].
    + congruence.
    + exists route. split; [done|]. right. congruence.
  - exists r. split; [done|by left].
Qed.

(** X5. No withdrawal, only improvement: once an AS holds a route [r] for a
    prefix during the propagation of a run, in every later state it holds
    for that prefix either [r] or a route that [better_route] prefers to
    [r]. *)
Theorem rib_entries_improve (g : ASGraph) (rov : gset Z)
    (anns : list Announcement) (s s' : BGPSimulator) (asn : Z) (p : string)
    (r : Route) :
  rtc step (run_start g rov anns) s → rtc step s s' →
  rib_entry s asn p = Some r →
  ∃ r', rib_entry s' asn p = Some r'
        ∧ (r' = r ∨ better_route rov r' r asn = true).
Proof.
  intros Hstart Hsteps.
  assert (Hrov : rov_enabled_asns s = rov)
    by by rewrite (rov_steps _ _ Hstart), rov_run_start.
  clear Hstart. revert r Hrov.
  induction Hsteps as [s|s s1 s' Hstep _ IH]; intros r Hrov Hr.
  - exists r. split; [done|by left].
  - destruct (rib_entry_step s s1 asn p r Hstep Hr) as (r1 & Hr1 & Hcmp).
    destruct (IH r1) as (r' & Hr' & Hcmp');
      [by rewrite (rov_step _ _ Hstep)|done|].
    exists r'. split; [done|]. rewrite Hrov in Hcmp.
    destruct Hcmp as [->|Hcmp]; [done|]. right.
    destruct Hcmp' as [->|Hcmp']; [done|].
    by eapply better_route_trans.
Qed.

Lemma rib_entries_improve_witness :
  ∃ s', propagate (run_start pair ∅ [(1, "p", false)]) = Some (true, s')
        ∧ ∃ r', rib_entry s' 1 "p" = Some r'
                ∧ (r' = mkRoute "p" [1] LEARNED_FROM_CUSTOMER false
                   ∨ better_route ∅ r'
                       (mkRoute "p" [1] LEARNED_FROM_CUSTOMER false) 1 = true).
Proof.
  destruct (propagate (run_start pair ∅ [(1, "p", false)]))
    as [[b s']|] eqn:Hp; [|by vm_compute in Hp].
  assert (b = true) as ->.
  { apply (f_equal (λ r, match r with Some (b, _) => b | None => false end))
      in Hp. by vm_compute in Hp. }
  exists s'. split; [reflexivity|].
  apply (rib_entries_improve pair ∅ [(1, "p", false)]
           (run_start pair ∅ [(1, "p", false)]) s' 1 "p").
  - apply rtc_refl.
  - by eapply propagate_steps.
  - by vm_compute.
Defined.

(** ** What [process_messages] computes *)

Lemma rib_entry_process_route_select s asn p route a q :
  rib_entry (process_route s asn p route) a q
  = if decide (a = asn ∧ q = p)
    then select_route (rov_enabled_asns s) asn (rib_entry s asn p) route
    else rib_entry s a q.
Proof.
  unfold process_route, process_route_with, select_route.
  destruct (bool_decide (asn ∈ rov_enabled_asns s) && rov_invalid route).
  { case_decide as H; [by destruct H as [-> ->]|done]. }
  assert (Hentry : rib_entry s asn p
                   = match ribs s !! asn with
                     | Some rib => rib !! p
                     | None => None
                     end) by done.
  destruct (ribs s !! asn) as [rib|].
  - destruct (rib !! p) as [existing|].
    + rewrite Hentry.
      destruct (better_route _ route existing asn).
      * apply rib_entry_store.
      * case_decide as H; [by destruct H as [-> ->]|done].
    + rewrite Hentry. apply rib_entry_store.
  - rewrite Hentry. apply rib_entry_store.
Qed.

Lemma process_routes_select s asn p routes : ∀ a q,
  rib_entry (foldl (λ s route, process_route s asn p route) s routes) a q
  = if decide (a = asn ∧ q = p)
    then foldl (select_route (rov_enabled_asns s) asn) (rib_entry s asn p)
               routes
    else rib_entry s a q.
Proof.
  revert s. induction routes as [|r routes IH]; intros s a q.
  - simpl. case_decide as H; [by destruct H as [-> ->]|done].
  - simpl. rewrite IH.
    replace (rov_enabled_asns (process_route s asn p r))
      with (rov_enabled_asns s) by (symmetry; apply rov_process_route).
    rewrite !rib_entry_process_route_select.
    rewrite (decide_True (P := asn = asn ∧ p = p)) by done.
    by case_decide.
Qed.

Lemma rov_process_routes s asn p routes :
  rov_enabled_asns (foldl (λ s route, process_route s asn p route) s routes)
  = rov_enabled_asns s.
Proof.
  revert s. induction routes as [|r routes IH]; intros s; [done|].
  simpl. rewrite IH. apply rov_process_route.
Qed.

Lemma process_entries_select asn (entries : list (string * list Route)) :
  NoDup (entries.*1) →
  ∀ s a q,
    rib_entry (foldl (λ s (prefix_entry : string * list Route),
                        foldl (λ s route,
                                 process_route s asn prefix_entry.1 route)
                              s prefix_entry.2) s entries) a q
    = if decide (a = asn)
      then foldl (select_route (rov_enabled_asns s) asn) (rib_entry s asn q)
                 (default [] (list_to_map (M := gmap string (list Route))
                                          entries !! q))
      else rib_entry s a q.
Proof.
  induction entries as [|[p routes] entries IH]; intros Hnodup s a q.
  - simpl. rewrite lookup_empty. simpl. by case_decide; subst.
  - apply NoDup_cons in Hnodup as [Hnotin Hnodup].
    simpl. rewrite (IH Hnodup). rewrite rov_process_routes.
    rewrite !process_routes_select.
    destruct (decide (a = asn)) as [->|Hne].
    + destruct (decide (q = p)) as [->|Hq].
      * rewrite lookup_insert_eq. simpl.
        rewrite (decide_True (P := asn = asn ∧ p = p)) by done.
        assert (Hnone : list_to_map (M := gmap string (list Route)) entries
                        !! p = None)
          by by apply not_elem_of_list_to_map_1.
        rewrite Hnone. done.
      * rewrite lookup_insert_ne by done.
        by rewrite decide_False by (intros [_ ?]; done).
    + by rewrite decide_False by (intros [? _]; done).
Qed.

(** The RIB entries after [process_messages]: at the AS that processes,
    the entry of each prefix is the fold of [select_route] over the queue
    of that prefix alone; elsewhere nothing changes. *)
Lemma rib_entry_process_messages s asn a q :
  rib_entry (process_messages s asn) a q
  = if decide (a = asn)
    then foldl (select_route (rov_enabled_asns s) asn) (rib_entry s asn q)
               (queued s asn q)
    else rib_entry s a q.
Proof.
  unfold process_messages, process_messages_with, queued.
  destruct (message_queues s !! asn) as [queue|] eqn:Hqueue.
  - change (rib_entry (with_queues ?s' _) a q) with (rib_entry s' a q).
    rewrite (process_entries_select asn (map_to_list queue))
      by apply NoDup_fst_map_to_list.
    by rewrite list_to_map_to_list.
  - simpl. by case_decide; subst.
Qed.

Lemma select_route_cases rov asn entry route :
  select_route rov asn entry route = entry
  ∨ (select_route rov asn entry route = Some route
     ∧ bool_decide (asn ∈ rov) && rov_invalid route = false
     ∧ (entry = None
        ∨ ∃ existing, entry = Some existing
                      ∧ better_route rov route existing asn = true)).
Proof.
  unfold select_route.
  destruct (bool_decide (asn ∈ rov) && rov_invalid route); [by left|].
  destruct entry as [existing|]; [|right; auto].
  destruct (better_route rov route existing asn) eqn:Hb; [|by left].
  right. split; [done|]. split; [done|]. right. by exists existing.
Qed.

(** The fold of [select_route]: the result is the start or an admitted
    route; nothing admitted is better than it; it is the start or better
    than the start. *)
Lemma select_routes_best rov asn routes : ∀ entry,
  let final := foldl (select_route rov asn) entry routes in
  (final = entry ∨ ∃ r, final = Some r ∧ r ∈ admitted rov asn routes)
  ∧ (∀ r r', final = Some r' → r ∈ admitted rov asn routes →
             better_route rov r r' asn = false)
  ∧ (∀ r0, entry = Some r0 →
           ∃ r', final = Some r'
                 ∧ (r' = r0 ∨ better_route rov r' r0 asn = true))
  ∧ (admitted rov asn routes ≠ [] → is_Some final).
Proof.
  unfold admitted.
  induction routes as [|route routes IH]; intros entry.
  - simpl. split; [by left|]. split.
    + intros r r' _ Hr. by apply elem_of_nil in Hr.
    + split; [|done]. intros r0 ->. exists r0. split; [done|by left].
  - simpl. rewrite filter_cons.
    destruct (IH (select_route rov asn entry route))
      as (Horigin & Hbest & Himprove & Hsome).
    destruct (decide (bool_decide (asn ∈ rov) && rov_invalid route = false))
      as [Hadm|Hdrop].
    + destruct (select_route_cases rov asn entry route)
        as [Hsame|(Hnew & _ & Hwhy)].
      * rewrite Hsame in *.
        unfold select_route in Hsame. rewrite Hadm in Hsame.
        destruct entry as [existing|]; [|done].
        destruct (better_route rov route existing asn) eqn:Hb.
        { injection Hsame as <-.
          by rewrite better_route_asym in Hb. }
        destruct (Himprove existing eq_refl) as (final & Hfinal & Hcmp).
        split; [|split; [|split]].
        -- destruct Horigin as [?|(r & ? & ?)]; [by left|].
           right. exists r. split; [done|by right].
        -- intros r r' Hr' Hr.
           apply elem_of_cons in Hr as [->|Hr]; [|by eapply Hbest].
           rewrite Hfinal in Hr'. injection Hr' as <-.
           destruct Hcmp as [->|Hcmp]; [done|].
           apply not_true_is_false. intros Hbad.
           by rewrite (better_route_trans _ _ _ _ _ Hbad Hcmp) in Hb.
        -- done.
        -- intros _. rewrite Hfinal. by eexists.
      * rewrite Hnew in *.
        destruct (Himprove route eq_refl) as (final & Hfinal & Hcmp).
        split; [|split; [|split]].
        -- right. destruct Horigin as [Heq|(r & ? & ?)].
           ++ exists route. split; [done|by left].
           ++ exists r. split; [done|by right].
        -- intros r r' Hr' Hr. rewrite Hfinal in Hr'. injection Hr' as <-.
           apply elem_of_cons in Hr as [->|Hr]; [|by eapply Hbest].
           destruct Hcmp as [->|Hcmp].
           ++ apply not_true_is_false. intros Hbad.
              by rewrite (better_route_asym _ _ _ _ Hbad) in Hbad.
           ++ by apply better_route_asym.
        -- intros r0 ->. exists final. split; [done|].
           destruct Hwhy as [?|(existing & [= <-] & Hb)]; [done|].
           right. destruct Hcmp as [->|Hcmp]; [done|].
           by eapply better_route_trans.
        -- intros _. rewrite Hfinal. by eexists.
    + assert (Hsame : select_route rov asn entry route = entry).
      { unfold select_route.
        by destruct (bool_decide (asn ∈ rov) && rov_invalid route). }
      rewrite Hsame in *. done.
Qed.

(** X6. [process_messages] selects a best route for each prefix
    independently: afterwards the RIB entry of the AS for a prefix is
    its old entry or one of the routes queued for that prefix that passed
    the ROV drop; no such queued route is better than it; an old entry is
    kept or replaced by a better route; and there is an entry as soon as
    there was one or a queued route passed the drop. *)
Theorem process_messages_selects_best (s : BGPSimulator) (asn : Z)
    (p : string) :
  let rov := rov_enabled_asns s in
  let final := rib_entry (process_messages s asn) asn p in
  let candidates := admitted rov asn (queued s asn p) in
  (final = rib_entry s asn p ∨ ∃ r, final = Some r ∧ r ∈ candidates)
  ∧ (∀ r r', final = Some r' → r ∈ candidates →
             better_route rov r r' asn = false)
  ∧ (∀ r0, rib_entry s asn p = Some r0 →
           ∃ r', final = Some r'
                 ∧ (r' = r0 ∨ better_route rov r' r0 asn = true))
  ∧ (candidates ≠ [] → is_Some final).
Proof.
  intros rov final candidates. unfold final.
  rewrite rib_entry_process_messages, decide_True by done.
  apply select_routes_best.
Qed.

Lemma process_route_fields s asn p route :
  rov_enabled_asns (process_route s asn p route) = rov_enabled_asns s
  ∧ graph (process_route s asn p route) = graph s
  ∧ rank_to_asns (process_route s asn p route) = rank_to_asns s.
Proof.
  unfold process_route, process_route_with. repeat case_match; done.
Qed.

Lemma process_routes_fields s asn p routes :
  let s' := foldl (λ s route, process_route s asn p route) s routes in
  rov_enabled_asns s' = rov_enabled_asns s
  ∧ graph s' = graph s
  ∧ rank_to_asns s' = rank_to_asns s.
Proof.
  revert s. induction routes as [|r routes IH]; intros s; [done|].
  simpl. destruct (IH (process_route s asn p r)) as (-> & -> & ->).
  apply process_route_fields.
Qed.

Lemma process_entries_fields s asn (entries : list (string * list Route)) :
  let s' := foldl (λ s (prefix_entry : string * list Route),
                     foldl (λ s route,
                              process_route s asn prefix_entry.1 route)
                           s prefix_entry.2) s entries in
  rov_enabled_asns s' = rov_enabled_asns s
  ∧ graph s' = graph s
  ∧ rank_to_asns s' = rank_to_asns s.
Proof.
  revert s. induction entries as [|e entries IH]; intros s; [done|].
  simpl. destruct (IH (foldl (λ s route, process_route s asn e.1 route) s e.2))
    as (-> & -> & ->).
  apply process_routes_fields.
Qed.

Lemma rov_process_messages s asn :
  rov_enabled_asns (process_messages s asn) = rov_enabled_asns s
  ∧ graph (process_messages s asn) = graph s
  ∧ rank_to_asns (process_messages s asn) = rank_to_asns s.
Proof.
  unfold process_messages, process_messages_with.
  destruct (message_queues s !! asn) as [queue|]; [|done].
  apply (process_entries_fields s asn (map_to_list queue)).
Qed.

Lemma queued_process_messages s asn a p :
  queued (process_messages s asn) a p
  = if decide (a = asn) then [] else queued s a p.
Proof.
  unfold process_messages, process_messages_with, queued.
  destruct (message_queues s !! asn) as [queue|] eqn:Hqueue.
  - simpl.
    destruct (decide (a = asn)) as [->|Hne].
    + by rewrite lookup_insert_eq, lookup_empty.
    + rewrite lookup_insert_ne by done.
      destruct (process_entries_steps s asn queue (map_to_list queue))
        as [_ Heq]; [done| |].
      { intros [q routes] He. by apply elem_of_map_to_list. }
      simpl in Heq.
      change process_route with (process_route_with better_route) in Heq.
      by rewrite Heq.
  - case_decide; [subst; by rewrite Hqueue|done].
Qed.

(** X7. [process_messages(asn)] touches only the AS it processes: the RIB
    entries and the queues of every other AS are unchanged, nothing is left
    queued at [asn], and the graph, the ROV set and the rank groups are
    unchanged. *)
Theorem process_messages_frame (s : BGPSimulator) (asn : Z) :
  (∀ a p, a ≠ asn → rib_entry (process_messages s asn) a p = rib_entry s a p)
  ∧ (∀ a p, a ≠ asn → queued (process_messages s asn) a p = queued s a p)
  ∧ (∀ p, queued (process_messages s asn) asn p = [])
  ∧ rov_enabled_asns (process_messages s asn) = rov_enabled_asns s
  ∧ graph (process_messages s asn) = graph s
  ∧ rank_to_asns (process_messages s asn) = rank_to_asns s.
Proof.
  split; [|split; [|split]].
  - intros a p Hne. by rewrite rib_entry_process_messages, decide_False.
  - intros a p Hne. by rewrite queued_process_messages, decide_False.
  - intros p. by rewrite queued_process_messages, decide_True.
  - apply rov_process_messages.
Qed.

(** ** The cycle check is correct *)

Lemma finished_more_refl c : finished_more c c.
Proof. split; [done|]. intros x Hx. by left. Qed.

Lemma finished_more_trans c1 c2 c3 :
  finished_more c1 c2 → finished_more c2 c3 → finished_more c1 c3.
Proof.
  intros [Hk1 Hw1] [Hk2 Hw2]. split.
  - intros x Hx. rewrite Hk2; rewrite Hk1; done.
  - intros x Hx. destruct (Hw1 x Hx) as [Hw|Hb].
    + by apply Hw2.
    + right. rewrite Hk2; rewrite Hb; done.
Qed.

Lemma finished_more_gray c c' x :
  finished_more c c' → c' !!! x = GRAY → c !!! x = GRAY.
Proof.
  intros [Hk Hw] Hx. destruct (c !!! x) eqn:Hc.
  - destruct (Hw x Hc) as [H|H]; rewrite H in Hx; done.
  - done.
  - rewrite Hk in Hx by (rewrite Hc; done). by rewrite Hc in Hx.
Qed.

Lemma black_closed_reach g c x y :
  black_closed g c → c !!! x = BLACK → rtc (cp_edge g) x y → c !!! y = BLACK.
Proof.
  intros [Hclosed _] Hx Hreach. induction Hreach as [|x z y Hxz _ IH]; [done|].
  apply IH. by eapply Hclosed.
Qed.

Lemma black_closed_gray g c u :
  black_closed g c → c !!! u = WHITE → black_closed g (<[u := GRAY]> c).
Proof.
  intros [Hclosed Hacyc] Hu. split.
  - intros x y Hx Hxy.
    destruct (decide (x = u)) as [->|Hne];
      [by rewrite lookup_total_insert_eq in Hx|].
    rewrite lookup_total_insert_ne in Hx by done.
    pose proof (Hclosed x y Hx Hxy) as Hy.
    destruct (decide (y = u)) as [->|Hne']; [by rewrite Hu in Hy|].
    by rewrite lookup_total_insert_ne.
  - intros x Hx.
    destruct (decide (x = u)) as [->|Hne];
      [by rewrite lookup_total_insert_eq in Hx|].
    rewrite lookup_total_insert_ne in Hx by done. by apply Hacyc.
Qed.

Lemma black_closed_finish g c u :
  black_closed g c → c !!! u = GRAY →
  (∀ y, cp_edge g u y → c !!! y = BLACK) →
  black_closed g (<[u := BLACK]> c).
Proof.
  intros Hinv Hu Hsucc. split.
  - intros x y Hx Hxy.
    destruct (decide (y = u)) as [->|Hy]; [by rewrite lookup_total_insert_eq|].
    rewrite lookup_total_insert_ne by done.
    destruct (decide (x = u)) as [->|Hne]; [by apply Hsucc|].
    rewrite lookup_total_insert_ne in Hx by done.
    by eapply (proj1 Hinv).
  - intros x Hx Hcycle.
    destruct (decide (x = u)) as [->|Hne].
    + inversion Hcycle as [? ? Hedge|? y ? Hedge Hrest]; subst.
      * pose proof (Hsucc u Hedge) as Hb. by rewrite Hu in Hb.
      * pose proof (black_closed_reach g c y u Hinv (Hsucc y Hedge)
                      (tc_rtc _ _ Hrest)) as Hb.
        by rewrite Hu in Hb.
    + rewrite lookup_total_insert_ne in Hx by done.
      by apply (proj2 Hinv x).
Qed.

(** The loop over the neighbours, for a recursive call that meets the
    specification of [dfs]. *)
Lemma dfs_neighbors_spec g
    (recurse : gmap Z Color → Z → option (bool * gmap Z Color)) u
    (nbrs : list (Z * RelationType)) :
  (∀ c v b c',
      recurse c v = Some (b, c') →
      c !!! v = WHITE → black_closed g c → gray_reach g c v →
      if b then ∃ a, tc (cp_edge g) a a
      else finished_more c c' ∧ c' !!! v = BLACK ∧ black_closed g c') →
  (∀ e, e ∈ nbrs → e.2 = CUSTOMER_TO_PROVIDER → cp_edge g u e.1) →
  ∀ c b c',
    dfs_neighbors recurse c nbrs = Some (b, c') →
    c !!! u = GRAY → black_closed g c → gray_reach g c u →
    if b then ∃ a, tc (cp_edge g) a a
    else finished_more c c' ∧ black_closed g c'
         ∧ ∀ e, e ∈ nbrs → e.2 = CUSTOMER_TO_PROVIDER → c' !!! e.1 = BLACK.
Proof.
  intros Hrec. induction nbrs as [|e nbrs IH]; intros Hedges c b c' Hrun Hu
    Hinv Hgray.
  - injection Hrun as <- <-. split; [apply finished_more_refl|].
    split; [done|]. intros e He. by apply elem_of_nil in He.
  - assert (Hedges' : ∀ e', e' ∈ nbrs → e'.2 = CUSTOMER_TO_PROVIDER →
                            cp_edge g u e'.1)
      by (intros e' He'; apply Hedges; by right).
    simpl in Hrun.
    destruct (decide (e.2 ≠ CUSTOMER_TO_PROVIDER)) as [Hrel|Hrel].
    { pose proof (IH Hedges' c b c' Hrun Hu Hinv Hgray) as Hpost.
      destruct b; [done|]. destruct Hpost as (Hmore & Hinv' & Hblack).
      split; [done|]. split; [done|].
      intros e' [->|He']%elem_of_cons Hc2p; [done|by apply Hblack]. }
    apply dec_stable in Hrel.
    pose proof (Hedges e ltac:(by left) Hrel) as Hedge.
    destruct (decide (c !!! e.1 = GRAY)) as [Hg|Hg].
    { injection Hrun as <- <-. exists u.
      eapply tc_rtc_r; [apply tc_once, Hedge|]. by apply Hgray. }
    destruct (decide (c !!! e.1 = WHITE)) as [Hw|Hw].
    + destruct (recurse c e.1) as [[[] c1]|] eqn:Hcall; [| |done].
      * injection Hrun as <- <-.
        apply (Hrec c e.1 true c1 Hcall Hw Hinv).
        intros x Hx. eapply rtc_r; [by apply Hgray|done].
      * destruct (Hrec c e.1 false c1 Hcall Hw Hinv)
          as (Hmore1 & Hblack1 & Hinv1).
        { intros x Hx. eapply rtc_r; [by apply Hgray|done]. }
        assert (Hu1 : c1 !!! u = GRAY).
        { rewrite (proj1 Hmore1) by (rewrite Hu; done). done. }
        assert (Hgray1 : gray_reach g c1 u).
        { intros x Hx. apply Hgray. by eapply finished_more_gray. }
        pose proof (IH Hedges' c1 b c' Hrun Hu1 Hinv1 Hgray1) as Hpost.
        destruct b; [done|]. destruct Hpost as (Hmore & Hinv' & Hblack).
        split; [by eapply finished_more_trans|]. split; [done|].
        intros e' [->|He']%elem_of_cons Hc2p; [|by apply Hblack].
        rewrite (proj1 Hmore) by (rewrite Hblack1; done). done.
    + assert (Hb : c !!! e.1 = BLACK) by (by destruct (c !!! e.1)).
      pose proof (IH Hedges' c b c' Hrun Hu Hinv Hgray) as Hpost.
      destruct b; [done|]. destruct Hpost as (Hmore & Hinv' & Hblack).
      split; [done|]. split; [done|].
      intros e' [->|He']%elem_of_cons Hc2p; [|by apply Hblack].
      rewrite (proj1 Hmore) by (rewrite Hb; done). done.
Qed.

(** [dfs] from a white AS that every AS on the stack reaches: an answer
    [true] comes with a cycle; an answer [false] has finished [u] and
    kept the invariant. *)
Lemma dfs_spec g fuel : ∀ c u b c',
  dfs g fuel c u = Some (b, c') →
  c !!! u = WHITE → black_closed g c → gray_reach g c u →
  if b then ∃ a, tc (cp_edge g) a a
  else finished_more c c' ∧ c' !!! u = BLACK ∧ black_closed g c'.
Proof.
  induction fuel as [|fuel IH]; intros c u b c' Hrun Hu Hinv Hgray; [done|].
  simpl in Hrun.
  destruct (dfs_neighbors (dfs g fuel) (<[u := GRAY]> c) (get_neighbors g u))
    as [[b1 c1]|] eqn:Hloop; [|done].
  assert (Hedges : ∀ e, e ∈ get_neighbors g u → e.2 = CUSTOMER_TO_PROVIDER →
                        cp_edge g u e.1).
  { intros [v rel] He Hrel. simpl in *. by subst. }
  assert (Hu1 : <[u := GRAY]> c !!! u = GRAY) by apply lookup_total_insert_eq.
  assert (Hgray1 : gray_reach g (<[u := GRAY]> c) u).
  { intros x Hx. destruct (decide (x = u)) as [->|Hne]; [done|].
    rewrite lookup_total_insert_ne in Hx by done. by apply Hgray. }
  pose proof (dfs_neighbors_spec g (dfs g fuel) u (get_neighbors g u) IH
                Hedges (<[u := GRAY]> c) b1 c1 Hloop Hu1
                (black_closed_gray g c u Hinv Hu) Hgray1) as Hpost.
  destruct b1.
  - injection Hrun as <- <-. done.
  - injection Hrun as <- <-. destruct Hpost as (Hmore & Hinv1 & Hblack).
    assert (Hu2 : c1 !!! u = GRAY).
    { rewrite (proj1 Hmore) by (rewrite Hu1; done). done. }
    split; [|split].
    + split.
      * intros x Hx. destruct (decide (x = u)) as [->|Hne]; [done|].
        rewrite lookup_total_insert_ne by done.
        rewrite (proj1 Hmore) by (by rewrite lookup_total_insert_ne).
        by rewrite lookup_total_insert_ne.
      * intros x Hx. destruct (decide (x = u)) as [->|Hne].
        -- right. apply lookup_total_insert_eq.
        -- rewrite lookup_total_insert_ne by done.
           apply (proj2 Hmore). by rewrite lookup_total_insert_ne.
    + apply lookup_total_insert_eq.
    + apply black_closed_finish; [done..|].
      intros y Hy. by apply (Hblack (y, CUSTOMER_TO_PROVIDER)).
Qed.

Lemma dfs_from_all_spec g fuel asns : ∀ c b,
  dfs_from_all g fuel c asns = Some b →
  black_closed g c → (∀ x, c !!! x ≠ GRAY) →
  if b then ∃ a, tc (cp_edge g) a a
  else ∃ c', black_closed g c'
             ∧ (∀ x, c !!! x = BLACK → c' !!! x = BLACK)
             ∧ ∀ a, a ∈ asns → c' !!! a = BLACK.
Proof.
  induction asns as [|a asns IH]; intros c b Hrun Hinv Hnogray.
  - injection Hrun as <-. exists c. split; [done|]. split; [done|].
    intros a Ha. by apply elem_of_nil in Ha.
  - simpl in Hrun. destruct (decide (c !!! a = WHITE)) as [Hw|Hw].
    + destruct (dfs g fuel c a) as [[[] c1]|] eqn:Hcall; [| |done].
      * injection Hrun as <-.
        apply (dfs_spec g fuel c a true c1 Hcall Hw Hinv).
        intros x Hx. by destruct (Hnogray x).
      * destruct (dfs_spec g fuel c a false c1 Hcall Hw Hinv)
          as (Hmore & Hblack & Hinv1).
        { intros x Hx. by destruct (Hnogray x). }
        assert (Hnogray1 : ∀ x, c1 !!! x ≠ GRAY).
        { intros x Hx. apply (Hnogray x). by eapply finished_more_gray. }
        pose proof (IH c1 b Hrun Hinv1 Hnogray1) as Hpost.
        destruct b; [done|]. destruct Hpost as (c' & Hinv' & Hkeep & Hall).
        exists c'. split; [done|]. split.
        -- intros x Hx. apply Hkeep.
           rewrite (proj1 Hmore) by (rewrite Hx; done). done.
        -- intros a' [->|Ha']%elem_of_cons; [by apply Hkeep|by apply Hall].
    + pose proof (IH c b Hrun Hinv Hnogray) as Hpost.
      destruct b; [done|]. destruct Hpost as (c' & Hinv' & Hkeep & Hall).
      exists c'. split; [done|]. split; [done|].
      intros a' [->|Ha']%elem_of_cons; [|by apply Hall].
      apply Hkeep. pose proof (Hnogray a). by destruct (c !!! a).
Qed.

Lemma lookup_total_gset_to_gmap_white (X : gset Z) x :
  (gset_to_gmap WHITE X : gmap Z Color) !!! x = WHITE.
Proof.
  rewrite lookup_total_alt, lookup_gset_to_gmap.
  by destruct (decide (x ∈ X)); [rewrite option_guard_True|rewrite option_guard_False].
Qed.

Lemma has_cycle_spec g b :
  wf_graph g → has_customer_provider_cycle g = Some b →
  if b then ∃ a, tc (cp_edge g) a a else acyclic g.
Proof.
  intros [Hends _] Hrun.
  pose proof (dfs_from_all_spec g _ _ _ b Hrun) as Hpost.
  destruct b.
  - apply Hpost.
    + split; intros x; by rewrite lookup_total_gset_to_gmap_white.
    + intros x. by rewrite lookup_total_gset_to_gmap_white.
  - destruct Hpost as (c' & [_ Hacyc] & _ & Hall).
    + split; intros x; by rewrite lookup_total_gset_to_gmap_white.
    + intros x. by rewrite lookup_total_gset_to_gmap_white.
    + intros a Hcycle. apply (Hacyc a); [|done]. apply Hall.
      apply elem_of_elements.
      inversion Hcycle as [? ? Hedge|? y ? Hedge _]; subst;
        by destruct (Hends _ _ _ Hedge).
Qed.

(** X8. The cycle check is sound and complete on every graph that
    [add_relationship] and seeding build: it answers, it answers [true]
    exactly when some AS reaches itself along customer→provider edges, and
    [false] exactly when there is no such cycle. *)
Theorem cycle_check_correct (g : ASGraph) :
  built_graph g →
  (has_customer_provider_cycle g = Some true ↔ ∃ a, tc (cp_edge g) a a)
  ∧ (has_customer_provider_cycle g = Some false ↔ acyclic g).
Proof.
  intros Hg. pose proof (wf_graph_built g Hg) as Hwf.
  destruct (has_cycle_total g Hg) as [b Hb].
  pose proof (has_cycle_spec g b Hwf Hb) as Hspec.
  destruct b; rewrite Hb.
  - split; [done|]. split; [done|].
    intros Hacyc. destruct Hspec as [a Ha]. by destruct (Hacyc a).
  - split; [|done]. split; [done|].
    intros [a Ha]. by destruct (Hspec a).
Qed.

Lemma cycle_check_correct_witness :
  built_graph ring3
  ∧ has_customer_provider_cycle ring3 = Some true
  ∧ ∃ a, tc (cp_edge ring3) a a.
Proof.
  assert (Hg : built_graph ring3) by (repeat constructor).
  split; [done|].
  assert (Hrun : has_customer_provider_cycle ring3 = Some true)
    by (by vm_compute).
  split; [done|].
  exact (proj1 (proj1 (cycle_check_correct ring3 Hg)) Hrun).
Defined.

(** ** What the program writes *)

Lemma run_routes_well_formed g rov anns s :
  run_state g rov anns s →
  ribs_all well_formed_route s ∧ queues_all well_formed_route s.
Proof.
  intros Hrun.
  eapply (run_invariant_run rov well_formed_route well_formed_route)
    in Hrun.
  - by destruct Hrun as (_ & ? & ?).
  - intros asn nbr p route rel (Hp & Hhead & Hnd) Hnotin _.
    split; [done|]. split; [done|]. simpl. by constructor.
  - done.
  - intros a _. split; [done|]. split; [done|]. simpl. apply NoDup_singleton.
Qed.

Lemma relationships_of_load fs opts g :
  load_from_file fs empty_graph (relationships_file opts) = Returned g ↔
  relationships_of fs opts = Some g.
Proof.
  unfold load_from_file, relationships_of.
  destruct (open_file fs (relationships_file opts)); [|done].
  split; by intros [= <-].
Qed.



(** X10. A relationships file whose graph has a customer-provider cycle
    ends the run with exit code 1 before anything is seeded or
    propagated, and nothing is written. *)
Theorem cycle_in_relationships_rejected (fs : Files) (opts : Options)
    (g : ASGraph) :
  relationships_file opts ≠ ""%string →
  announcements_file opts ≠ ""%string →
  relationships_of fs opts = Some g →
  (∃ a, tc (cp_edge g) a a) →
  main fs opts = Some (Exit 1 None).
Proof.
  intros Hrel Hann Hg%relationships_of_load Hcycle. unfold main.
  rewrite !bool_decide_eq_false_2 by done. simpl. rewrite Hg.
  assert (Hbuilt : built_graph g)
    by (eapply built_graph_load; [apply built_empty|done]).
  destruct (has_cycle_total g Hbuilt) as [b Hb]. rewrite Hb.
  destruct b; [done|].
  pose proof (has_cycle_spec g false (wf_graph_built g Hbuilt) Hb) as Hacyc.
  destruct Hcycle as [a Ha]. by destruct (Hacyc a).
Qed.

Lemma cycle_in_relationships_rejected_witness :
  main ring_files (example_options "") = Some (Exit 1 None).
Proof.
  assert (Hg : ∃ g, relationships_of ring_files (example_options "") = Some g
                    ∧ cp_edge g 1 2 ∧ cp_edge g 2 3 ∧ cp_edge g 3 1).
  { eexists. split; [reflexivity|]. vm_compute.
    repeat split; repeat constructor. }
  destruct Hg as (g & Hg & H12 & H23 & H31).
  apply (cycle_in_relationships_rejected ring_files (example_options "") g).
  - discriminate.
  - discriminate.
  - exact Hg.
  - exists 1. eapply tc_l; [exact H12|]. eapply tc_l; [exact H23|].
    apply tc_once, H31.
Defined.

(** ** Sends follow the adjacency lists *)

Lemma link_step_step s s' : link_step s s' → step s s'.
Proof.
  destruct 1; [by apply step_flatten|by eapply step_send
              |by eapply step_receive|apply step_clear].
Qed.

Lemma link_steps_steps s s' : rtc link_step s s' → rtc step s s'.
Proof.
  induction 1 as [|s s1 s' Hstep _ IH]; [done|].
  eapply rtc_l; [by apply link_step_step|done].
Qed.

Lemma graph_send s sender receiver route rel :
  graph (send_route_to_neighbor s sender receiver route rel) = graph s.
Proof. unfold send_route_to_neighbor. repeat (case_match; try done). Qed.

Lemma graph_link_step s s' : link_step s s' → graph s' = graph s.
Proof.
  destruct 1 as [s s' Hfl| | |].
  - by rewrite (flatten_graph_Some s s' Hfl).
  - apply graph_send.
  - apply process_route_fields.
  - done.
Qed.

Lemma graph_link_steps s s' : rtc link_step s s' → graph s' = graph s.
Proof.
  induction 1 as [|s s1 s' Hstep _ IH]; [done|].
  by rewrite IH, (graph_link_step s s1).
Qed.

Lemma foldl_link_steps {A} (f : BGPSimulator → A → BGPSimulator) l s :
  (∀ s x, x ∈ l → rtc link_step s (f s x)) → rtc link_step s (foldl f s l).
Proof.
  revert s. induction l as [|x l IH]; intros s Hf; [done|].
  simpl. etrans; [apply Hf; by left|].
  apply IH. intros s' y Hy. apply Hf. by right.
Qed.

Lemma process_routes_link_steps s asn queue p routes l :
  message_queues s !! asn = Some queue → queue !! p = Some routes →
  l ⊆ routes →
  rtc link_step s (foldl (λ s route, process_route s asn p route) s l)
  ∧ message_queues (foldl (λ s route, process_route s asn p route) s l)
    = message_queues s.
Proof.
  intros Hqueue Hroutes. revert s Hqueue.
  induction l as [|r l IH]; intros s Hqueue Hl; [done|].
  simpl.
  assert (Hmq : message_queues (process_route s asn p r) = message_queues s)
    by apply message_queues_process_route.
  destruct (IH (process_route s asn p r)) as [Hsteps Heq].
  - by rewrite Hmq.
  - intros x Hx. apply Hl. by right.
  - split; [|by rewrite Heq].
    eapply rtc_l; [|done].
    eapply link_receive; [done..|]. apply Hl. by left.
Qed.

Lemma process_entries_link_steps s asn queue entries :
  message_queues s !! asn = Some queue →
  (∀ e, e ∈ entries → queue !! e.1 = Some e.2) →
  let s' := foldl (λ s (prefix_entry : string * list Route),
                     foldl (λ s route, process_route s asn prefix_entry.1 route)
                           s prefix_entry.2) s entries in
  rtc link_step s s' ∧ message_queues s' = message_queues s.
Proof.
  revert s. induction entries as [|e entries IH]; intros s Hqueue He; [done|].
  simpl.
  destruct (process_routes_link_steps s asn queue e.1 e.2 e.2)
    as [Hsteps Heq]; [done|apply He; by left|done|].
  destruct (IH (foldl (λ s route, process_route s asn e.1 route) s e.2))
    as [Hsteps' Heq'].
  - by rewrite Heq.
  - intros e' He'. apply He. by right.
  - split; [by etrans|by rewrite Heq'].
Qed.

Lemma process_messages_link_steps s asn :
  rtc link_step s (process_messages s asn).
Proof.
  unfold process_messages, process_messages_with.
  destruct (message_queues s !! asn) as [queue|] eqn:Hqueue; [|done].
  destruct (process_entries_link_steps s asn queue (map_to_list queue))
    as [Hsteps _]; [done| |].
  - intros [p routes] He. by apply elem_of_map_to_list.
  - eapply rtc_r; [exact Hsteps|]. apply link_clear.
Qed.

Lemma send_neighbors_link_steps edge s asn rib p route nbrs :
  ribs s !! asn = Some rib → rib !! p = Some route →
  nbrs ⊆ get_neighbors (graph s) asn →
  let s' := foldl (λ s (neighbor : Z * RelationType),
                     if decide (neighbor.2 = edge)
                     then send_route_to_neighbor s asn neighbor.1 route
                            neighbor.2
                     else s) s nbrs in
  rtc link_step s s' ∧ ribs s' = ribs s ∧ graph s' = graph s.
Proof.
  intros Hrib Hroute. revert s Hrib.
  induction nbrs as [|n nbrs IH]; intros s Hrib Hsub; [done|].
  assert (Hsub' : nbrs ⊆ get_neighbors (graph s) asn)
    by (intros x Hx; apply Hsub; by right).
  simpl. case_decide.
  - destruct (IH (send_route_to_neighbor s asn n.1 route n.2))
      as (Hsteps & Hr & Hg);
      [by rewrite ribs_send|by rewrite graph_send|].
    split; [|split].
    + eapply rtc_l; [|exact Hsteps]. eapply link_send; [done..|].
      rewrite <-surjective_pairing. apply Hsub. by left.
    + by rewrite Hr, ribs_send.
    + by rewrite Hg, graph_send.
  - by apply IH.
Qed.

Lemma send_entries_link_steps edge s asn rib entries :
  ribs s !! asn = Some rib →
  (∀ e, e ∈ entries → rib !! e.1 = Some e.2) →
  let s' := foldl (λ s (route_entry : string * Route),
                     foldl (λ s (neighbor : Z * RelationType),
                              if decide (neighbor.2 = edge)
                              then send_route_to_neighbor s asn neighbor.1
                                     route_entry.2 neighbor.2
                              else s)
                           s (get_neighbors (graph s) asn)) s entries in
  rtc link_step s s' ∧ ribs s' = ribs s.
Proof.
  revert s. induction entries as [|e entries IH]; intros s Hrib He; [done|].
  simpl.
  destruct (send_neighbors_link_steps edge s asn rib e.1 e.2
              (get_neighbors (graph s) asn)) as (Hsteps & Hr & Hg);
    [done|apply He; by left|done|].
  match goal with |- context [foldl _ ?s0 entries] =>
    destruct (IH s0) as [Hsteps' Hr'] end.
  - by rewrite Hr.
  - intros e' He'. apply He. by right.
  - split; [by etrans|by rewrite Hr'].
Qed.

Lemma send_routes_link_steps edge s asn :
  rtc link_step s (send_routes edge s asn).
Proof.
  unfold send_routes.
  destruct (ribs s !! asn) as [rib|] eqn:Hrib; [|done].
  apply (send_entries_link_steps edge s asn rib (map_to_list rib)); [done|].
  intros [p route] He. by apply elem_of_map_to_list.
Qed.

Lemma phase_up_link_steps s : rtc link_step s (phase_up s).
Proof.
  unfold phase_up, phase_up_with. apply foldl_link_steps. intros s' rank _.
  cbv zeta.
  trans (foldl (send_routes CUSTOMER_TO_PROVIDER) s' (rank_to_asns s !!! rank));
    [apply foldl_link_steps; intros; apply send_routes_link_steps|].
  case_decide; [|done].
  apply foldl_link_steps. intros. apply process_messages_link_steps.
Qed.

Lemma phase_peer_link_steps s : rtc link_step s (phase_peer s).
Proof.
  unfold phase_peer, phase_peer_with. apply foldl_link_steps.
  intros s' rank _. cbv zeta.
  trans (foldl (send_routes PEER_TO_PEER) s' (rank_to_asns s !!! rank));
    [apply foldl_link_steps; intros; apply send_routes_link_steps|].
  apply foldl_link_steps. intros. apply process_messages_link_steps.
Qed.

Lemma phase_down_link_steps s : rtc link_step s (phase_down s).
Proof.
  unfold phase_down, phase_down_with. apply foldl_link_steps.
  intros s' rank _. cbv zeta.
  trans (foldl (send_routes PROVIDER_TO_CUSTOMER) s' (rank_to_asns s !!! rank));
    [apply foldl_link_steps; intros; apply send_routes_link_steps|].
  case_decide; [|done].
  apply foldl_link_steps. intros. apply process_messages_link_steps.
Qed.

Lemma run_iteration_link_steps s : rtc link_step s (run_iteration s).
Proof.
  unfold run_iteration, run_iteration_with.
  etrans; [apply phase_up_link_steps|].
  etrans; [apply phase_peer_link_steps|apply phase_down_link_steps].
Qed.

Lemma propagate_loop_link_steps remaining iteration prev s :
  rtc link_step s (propagate_loop remaining iteration prev s).2.
Proof.
  revert iteration prev s.
  induction remaining as [|n IH]; intros iteration prev s; [done|].
  simpl. repeat case_bool_decide; simpl;
    try apply run_iteration_link_steps.
  etrans; [apply run_iteration_link_steps|apply IH].
Qed.

Lemma propagate_link_steps s b s' :
  propagate s = Some (b, s') → rtc link_step s s'.
Proof.
  unfold propagate, propagate_with.
  destruct (flatten_graph s) as [s1|] eqn:Hfl; [|done].
  pose proof (propagate_loop_link_steps 20 0 0 s1) as Hsteps.
  unfold propagate_loop in Hsteps.
  destruct (propagate_loop_with better_route 20 0 0 s1) as [b1 s1'].
  intros [= -> ->].
  eapply rtc_l; [by apply link_flatten|done].
Qed.

(** ** Valley-free paths *)

Lemma all_up_valley_free rels : all_up rels = true → valley_free rels = true.
Proof.
  destruct rels as [|rel rels]; [done|]. simpl.
  intros [Hrel Hrest]%andb_true_iff. apply bool_decide_eq_true in Hrel.
  by subst rel.
Qed.

Lemma learned_from_customer_all_up rels :
  valley_free rels = true → learned_over rels = LEARNED_FROM_CUSTOMER →
  all_up rels = true.
Proof.
  by destruct rels as [|[] rels].
Qed.

Lemma valley_free_route_sent g asn nbr rel p route :
  valley_free_route g asn p route →
  (nbr, rel) ∈ get_neighbors g asn → can_export route rel = true →
  valley_free_route g nbr (prefix route) (sent_route nbr route rel).
Proof.
  intros (Hhead & rels & Hhops & Hshape & Htype) Hin Hexp.
  split; [done|]. exists (rel :: rels). simpl.
  destruct (as_path route) as [|a path] eqn:Hpath; [done|].
  injection Hhead as ->. split; [done|]. split; [|done].
  unfold can_export in Hexp. rewrite Htype in Hexp.
  destruct rel; simpl.
  - done.
  - apply learned_from_customer_all_up; [done|].
    by destruct (learned_over rels).
  - apply learned_from_customer_all_up; [done|].
    by destruct (learned_over rels).
Qed.

Lemma valley_free_link_step g rov s s' :
  link_step s s' →
  adjacency (graph s) = adjacency g →
  run_invariant rov (valley_free_route g) (valley_free_route g) s →
  run_invariant rov (valley_free_route g) (valley_free_route g) s'.
Proof.
  destruct 1 as [s s' Hfl|s asn rib p route nbr rel Hrib Hroute Hin
                |s asn queue p routes route Hqueue Hroutes Hr|s asn];
    intros Hadj Hinv.
  - by eapply run_invariant_flatten.
  - destruct Hinv as (Hrov & HP & HQ).
    destruct (send_route_to_neighbor_cases s asn nbr route rel)
      as [->|(Hnotin & Hexp & ->)]; [done|].
    split; [done|]. split; [done|].
    intros a queue q routes r Hqueue Hroutes Hr. simpl in Hqueue.
    destruct (lookup_queue_push _ _ _ _ _ _ _ _ _ Hqueue Hroutes Hr)
      as [(-> & -> & ->)|(queue' & routes' & ? & ? & ?)]; [|by eapply HQ].
    eapply valley_free_route_sent; [by eapply HP| |done].
    unfold get_neighbors in *. by rewrite <-Hadj.
  - by eapply run_invariant_receive.
  - by apply run_invariant_clear.
Qed.

Lemma adjacency_seed_all s anns :
  adjacency (graph (seed_all s anns)) = adjacency (graph s).
Proof.
  revert s. induction anns as [|a anns IH]; intros s; [done|].
  simpl. by rewrite IH.
Qed.

Lemma valley_free_start g rov anns :
  run_invariant rov (valley_free_route g) (valley_free_route g)
                (run_start g rov anns).
Proof.
  apply run_invariant_seed_all; [|apply run_invariant_new].
  intros a _. split; [done|]. by exists [].
Qed.

Lemma valley_free_link_steps g rov s s' :
  rtc link_step s s' →
  adjacency (graph s) = adjacency g →
  run_invariant rov (valley_free_route g) (valley_free_route g) s →
  run_invariant rov (valley_free_route g) (valley_free_route g) s'.
Proof.
  induction 1 as [|s s1 s' Hstep _ IH]; intros Hadj Hinv; [done|].
  apply IH.
  - by rewrite (graph_link_step s s1).
  - by eapply valley_free_link_step.
Qed.

(** X11. Valley-free routing: in every state that [propagate] goes
    through, the path of every RIB route runs along adjacency entries of
    the graph, and read from the origin it goes up to providers, then at
    most once across a peering, then down to customers; the route's
    learning source is the relationship of its last hop. *)
Theorem ribs_valley_free (g : ASGraph) (rov : gset Z)
    (anns : list Announcement) (s : BGPSimulator) :
  rtc link_step (run_start g rov anns) s →
  ribs_all (valley_free_route g) s ∧ queues_all (valley_free_route g) s.
Proof.
  intros Hsteps.
  eapply (valley_free_link_steps g rov) in Hsteps.
  - by destruct Hsteps as (_ & ? & ?).
  - unfold run_start. by rewrite adjacency_seed_all.
  - apply valley_free_start.
Qed.

Lemma ribs_valley_free_witness :
  ∃ s, propagate (run_start valley ∅ [(4, "p", false)]) = Some (true, s)
       ∧ ribs_all (valley_free_route valley) s
       ∧ rib_entry s 2 "p"
         = Some (mkRoute "p" [2; 3; 4] LEARNED_FROM_PEER false)
       ∧ rib_entry s 1 "p" = None.
Proof.
  destruct (propagate (run_start valley ∅ [(4, "p", false)]))
    as [[b s]|] eqn:Hp; [|by vm_compute in Hp].
  assert (b = true) as ->.
  { apply (f_equal (λ r, match r with Some (b, _) => b | None => false end))
      in Hp. by vm_compute in Hp. }
  assert (He : rib_entry s 2 "p"
               = Some (mkRoute "p" [2; 3; 4] LEARNED_FROM_PEER false)).
  { change (rib_entry s 2 "p")
      with ((λ r : option (bool * BGPSimulator),
               match r with
               | Some (_, s) => rib_entry s 2 "p"
               | None => None
               end) (Some (true, s))).
    rewrite <-Hp. by vm_compute. }
  assert (Hn : rib_entry s 1 "p" = None).
  { change (rib_entry s 1 "p")
      with ((λ r : option (bool * BGPSimulator),
               match r with
               | Some (_, s) => rib_entry s 1 "p"
               | None => None
               end) (Some (true, s))).
    rewrite <-Hp. by vm_compute. }
  exists s. split; [reflexivity|].
  exact (conj (proj1 (ribs_valley_free valley ∅ [(4, "p", false)] s
                        (propagate_link_steps _ _ _ Hp))) (conj He Hn)).
Defined.

(** ** The adjacency lists *)

Lemma adjacency_symmetric_add g asn1 asn2 rel0 :
  (∀ a b rel, count_entry (b, rel) (get_neighbors g a)
              = count_entry (a, reverse_rel rel) (get_neighbors g b)) →
  ∀ a b rel,
    count_entry (b, rel) (get_neighbors (add_relationship g asn1 asn2 rel0) a)
    = count_entry (a, reverse_rel rel)
        (get_neighbors (add_relationship g asn1 asn2 rel0) b).
Proof.
  intros Hsym a b rel. rewrite !get_neighbors_add, !count_entry_app.
  rewrite (Hsym a b rel).
  repeat case_decide; subst; rewrite ?count_entry_singleton;
    destruct rel0, rel; repeat case_decide; simplify_eq; try done;
    unfold count_entry; simpl; lia.
Qed.

(** X12. The adjacency lists of a graph that the program builds are
    symmetric, entry by entry: [a] lists [b] with a relationship as often
    as [b] lists [a] with the reverse relationship; so every
    provider→customer entry has its customer→provider entry at the other
    end, and every peer entry its peer entry. *)
Theorem adjacency_symmetric (g : ASGraph) :
  built_graph g →
  (∀ a b rel, count_entry (b, rel) (get_neighbors g a)
              = count_entry (a, reverse_rel rel) (get_neighbors g b))
  ∧ (∀ a b rel, (b, rel) ∈ get_neighbors g a
                ↔ (a, reverse_rel rel) ∈ get_neighbors g b).
Proof.
  intros Hg.
  assert (Hsym : ∀ a b rel,
             count_entry (b, rel) (get_neighbors g a)
             = count_entry (a, reverse_rel rel) (get_neighbors g b)).
  { induction Hg as [|g asn1 asn2 rel0 _ IH|g asn _ IH]; [done| |done].
    by apply adjacency_symmetric_add. }
  split; [done|]. intros a b rel.
  by rewrite <-!count_entry_pos, Hsym.
Qed.

Lemma adjacency_symmetric_witness :
  (3, PEER_TO_PEER) ∈ get_neighbors valley 2
  ↔ (2, PEER_TO_PEER) ∈ get_neighbors valley 3.
Proof.
  assert (Hg : built_graph valley) by (repeat constructor).
  exact (proj2 (adjacency_symmetric valley Hg) 2 3 PEER_TO_PEER).
Defined.

(** ** Ranks and cycles *)

Lemma rank_below g st :
  wf_graph g → flatten_inv g st 0 [] →
  ∀ c a, tc (cp_edge g) c a →
         ∀ r, fl_asn_to_rank st !! a = Some r →
              ∃ j, fl_asn_to_rank st !! c = Some j ∧ (j < r)%nat.
Proof.
  intros Hwf Hinv c a Hpath.
  induction Hpath as [c a Hedge|c m a Hedge _ IH]; intros r Hr.
  - destruct (fi_rank _ _ _ _ Hinv a r Hr) as (_ & _ & Hlow & _).
    apply Hlow. by apply customer_of_cp_edge.
  - destruct (IH r Hr) as (j & Hj & Hlt).
    destruct (fi_rank _ _ _ _ Hinv m j Hj) as (_ & _ & Hlow & _).
    destruct (Hlow c) as (i & Hi & Hlt'); [by apply customer_of_cp_edge|].
    exists i. split; [done|lia].
Qed.

(** X13. [flatten_graph] on a graph with customer-provider cycles: ranks
    still grow strictly along every customer→provider path into a ranked
    AS; an AS on a cycle, and every AS that a cycle reaches, gets no rank
    and is in no rank group, so [propagate] never lets it send or
    process; and every AS is ranked exactly when the graph has no
    cycle. *)
Theorem flatten_graph_cycles (g : ASGraph) :
  built_graph g →
  let rank := fl_asn_to_rank (flatten_ranks g) in
  let groups := fl_rank_to_asns (flatten_ranks g) in
  (∀ c a r, tc (cp_edge g) c a → rank !! a = Some r →
            ∃ j, rank !! c = Some j ∧ (j < r)%nat)
  ∧ (∀ a b, tc (cp_edge g) a a → rtc (cp_edge g) a b →
            rank !! b = None ∧ ∀ r l, groups !! r = Some l → b ∉ l)
  ∧ ((∀ a, a ∈ all_asns g → is_Some (rank !! a)) ↔ acyclic g).
Proof.
  intros Hbuilt rank groups.
  pose proof (wf_graph_built g Hbuilt) as Hwf.
  destruct (flatten_ranks_inv g Hwf) as (Hempty & Hinv & Hgroups & _).
  pose proof (rank_below g _ Hwf Hinv) as Hbelow.
  assert (Hcycle : ∀ a, tc (cp_edge g) a a → rank !! a = None).
  { intros a Ha. destruct (rank !! a) as [r|] eqn:Hr; [|done].
    destruct (Hbelow a a Ha r Hr) as (j & Hj & Hlt).
    unfold rank in Hr. rewrite Hr in Hj. injection Hj as <-. lia. }
  assert (Hreach : ∀ a b, tc (cp_edge g) a a → rtc (cp_edge g) a b →
                          rank !! b = None).
  { intros a b Ha Hab. apply rtc_tc in Hab as [->|Hab]; [by apply Hcycle|].
    destruct (rank !! b) as [r|] eqn:Hr; [|done].
    destruct (Hbelow a b Hab r Hr) as (j & Hj & _).
    pose proof (Hcycle a Ha) as Hnone. unfold rank in Hnone.
    by rewrite Hnone in Hj. }
  split; [intros c a r Hca Hr; by apply (Hbelow c a Hca r)|].
  split; [|split].
  - intros a b Ha Hab. split; [by eapply Hreach|].
    intros r l Hl Hin.
    assert (Hr : rank !! b = Some r) by (apply Hgroups; by exists l).
    by rewrite (Hreach a b Ha Hab) in Hr.
  - intros Hall a Ha.
    assert (Hin : a ∈ all_asns g).
    { destruct Hwf as [Hends _].
      inversion Ha as [? ? Hedge|? y ? Hedge _]; subst;
        by destruct (Hends _ _ _ Hedge). }
    destruct (Hall a Hin) as [r Hr]. by rewrite (Hcycle a Ha) in Hr.
  - intros Hacyclic. by apply all_ranked.
Qed.

Lemma flatten_graph_cycles_witness :
  fl_asn_to_rank (flatten_ranks ring3) !! 1 = None
  ∧ fl_rank_to_asns (flatten_ranks ring3) = [].
Proof.
  assert (Hg : built_graph ring3) by (repeat constructor).
  assert (Hcycle : tc (cp_edge ring3) 1 1).
  { assert (H13 : cp_edge ring3 1 3) by (vm_compute; repeat constructor).
    assert (H32 : cp_edge ring3 3 2) by (vm_compute; repeat constructor).
    assert (H21 : cp_edge ring3 2 1) by (vm_compute; repeat constructor).
    eapply tc_l; [exact H13|]. eapply tc_l; [exact H32|].
    apply tc_once, H21. }
  split.
  - exact (proj1 (proj1 (proj2 (flatten_graph_cycles ring3 Hg)) 1 1 Hcycle
                    (rtc_refl _ _))).
  - by vm_compute.
Defined.

(** ** Seeding *)

Lemma rib_entry_seed s origin q flag a p :
  rib_entry (seed_announcement s origin q flag) a p
  = if decide (a = origin ∧ p = q)
    then Some (mkRoute q [origin] LEARNED_FROM_CUSTOMER flag)
    else rib_entry s a p.
Proof.
  unfold rib_entry, seed_announcement, rib_store. simpl.
  destruct (decide (a = origin)) as [->|Hne].
  - rewrite lookup_insert_eq. destruct (decide (p = q)) as [->|Hq].
    + rewrite lookup_insert_eq. by rewrite decide_True.
    + rewrite lookup_insert_ne by done.
      rewrite decide_False by (intros [_ ?]; done).
      rewrite lookup_total_alt. by destruct (ribs s !! origin).
  - rewrite lookup_insert_ne by done.
    by rewrite decide_False by (intros [? _]; done).
Qed.

(** X14. Seeding overwrites: after the announcements are seeded in order,
    the RIB entry of an AS for a prefix is the single-hop customer route
    of the last announcement for that AS and prefix, with the flag of
    that announcement, whatever was there before and whatever
    [better_route] would say; where nothing is announced the entry is
    left as it was. *)
Theorem seed_all_last_wins (s : BGPSimulator) (anns : list Announcement)
    (asn : Z) (p : string) :
  rib_entry (seed_all s anns) asn p
  = match last (announced anns asn p) with
    | Some a => Some (mkRoute p [asn] LEARNED_FROM_CUSTOMER a.2)
    | None => rib_entry s asn p
    end.
Proof.
  unfold announced. revert s.
  induction anns as [|a anns IH]; intros s; [done|].
  simpl. rewrite IH, filter_cons, rib_entry_seed.
  destruct (decide (a.1.1 = asn ∧ a.1.2 = p)) as [[Ha Hp]|Hno].
  - rewrite decide_True by done. rewrite last_cons.
    destruct (last _); [done|]. by rewrite Ha, Hp.
  - rewrite decide_False by (intros [-> ->]; by destruct Hno).
    done.
Qed.

(** ** Every iteration processes what it queues *)

Lemma foldl_inv {A} (I : BGPSimulator → Prop)
    (f : BGPSimulator → A → BGPSimulator) l s :
  I s → (∀ s x, x ∈ l → I s → I (f s x)) → I (foldl f s l).
Proof.
  revert s. induction l as [|x l IH]; intros s Hs Hf; [done|].
  simpl. apply IH.
  - apply Hf; [by left|done].
  - intros s' y Hy. apply Hf. by right.
Qed.

Lemma foldl_seq_inv (I : nat → BGPSimulator → Prop)
    (f : BGPSimulator → nat → BGPSimulator) (n : nat) : ∀ start s,
  I start s →
  (∀ r s, (start ≤ r < start + n)%nat → I r s → I (S r) (f s r)) →
  I (start + n)%nat (foldl f s (seq start n)).
Proof.
  induction n as [|n IH]; intros start s Hs Hf.
  - by replace (start + 0)%nat with start by lia.
  - simpl. replace (start + S n)%nat with (S start + n)%nat by lia.
    apply IH.
    + apply Hf; [lia|done].
    + intros r s' Hr. apply Hf. lia.
Qed.

Lemma foldl_rev_seq_inv (I : nat → BGPSimulator → Prop)
    (f : BGPSimulator → nat → BGPSimulator) (n : nat) : ∀ s,
  I n s →
  (∀ r s, (r < n)%nat → I (S r) s → I r (f s r)) →
  I 0%nat (foldl f s (reverse (seq 0 n))).
Proof.
  induction n as [|n IH]; intros s Hs Hf; [done|].
  rewrite seq_S, reverse_app. simpl. apply IH.
  - apply Hf; [lia|done].
  - intros r s' Hr. apply Hf. lia.
Qed.

Lemma drained_to_weaken g groups (C C' : Z → Prop) s :
  drained_to g groups C s → (∀ a, C a → C' a) → drained_to g groups C' s.
Proof.
  intros (Hadj & Hranks & Hq) Himpl. split; [done|]. split; [done|].
  intros a p Hne. by eapply Himpl, Hq.
Qed.

Lemma queued_send s sender receiver route rel a p :
  queued (send_route_to_neighbor s sender receiver route rel) a p ≠ [] →
  queued s a p ≠ [] ∨ a = receiver.
Proof.
  destruct (send_route_to_neighbor_cases s sender receiver route rel)
    as [->|(_ & _ & ->)]; [by left|].
  destruct (decide (a = receiver)) as [->|Hne]; [by right|].
  left. unfold queued, queue_push in *. simpl in *.
  by rewrite lookup_insert_ne in H by done.
Qed.

Lemma rank_to_asns_send s sender receiver route rel :
  rank_to_asns (send_route_to_neighbor s sender receiver route rel)
  = rank_to_asns s.
Proof. unfold send_route_to_neighbor. repeat (case_match; try done). Qed.

Lemma send_routes_drained g groups C edge s asn :
  drained_to g groups C s →
  (∀ nbr, (nbr, edge) ∈ get_neighbors g asn → C nbr) →
  drained_to g groups C (send_routes edge s asn).
Proof.
  intros Hs Hnbr. unfold send_routes.
  destruct (ribs s !! asn) as [rib|]; [|done].
  apply foldl_inv; [done|]. intros s1 entry _ Hs1.
  apply foldl_inv; [done|]. intros s2 [nbr rel] Hin (Hadj & Hranks & Hq).
  simpl. case_decide as Hrel; [|done]. subst rel.
  split; [by rewrite graph_send|]. split; [by rewrite rank_to_asns_send|].
  intros a p [Hold| ->]%queued_send; [by eapply Hq|].
  apply Hnbr. destruct Hs1 as (Hadj1 & _).
  unfold get_neighbors in *. by rewrite <-Hadj1.
Qed.

Lemma process_messages_drained g groups C s asn :
  drained_to g groups C s →
  drained_to g groups (λ a, C a ∧ a ≠ asn) (process_messages s asn).
Proof.
  intros (Hadj & Hranks & Hq).
  destruct (rov_process_messages s asn) as (_ & Hg & Hr).
  split; [by rewrite Hg|]. split; [by rewrite Hr|].
  intros a p. rewrite queued_process_messages.
  case_decide; [done|]. intros Hne. split; [by eapply Hq|done].
Qed.

Lemma process_all_drained g groups l : ∀ C s,
  drained_to g groups C s →
  drained_to g groups (λ a, C a ∧ a ∉ l) (foldl process_messages s l).
Proof.
  induction l as [|asn l IH]; intros C s Hs.
  - simpl. eapply drained_to_weaken; [done|].
    intros a Ha. split; [done|]. apply not_elem_of_nil.
  - simpl. eapply drained_to_weaken.
    + apply IH, process_messages_drained, Hs.
    + intros a [[Ha Hne] Hnotin]. split; [done|].
      by intros [->|?]%elem_of_cons.
Qed.

Lemma ranking_group g rank groups r asn :
  ranking g rank groups → asn ∈ groups !!! r → rank !! asn = Some r.
Proof.
  intros (_ & _ & _ & Hgroups) Hin. apply Hgroups.
  destruct (groups !! r) as [l|] eqn:Hl.
  - exists l. split; [done|].
    by rewrite (list_lookup_total_correct _ _ _ Hl) in Hin.
  - rewrite list_lookup_total_alt, Hl in Hin. by apply elem_of_nil in Hin.
Qed.

Lemma ranking_bound g rank groups a k :
  ranking g rank groups → rank !! a = Some k → (k < length groups)%nat.
Proof.
  intros (_ & _ & _ & Hgroups) Hk.
  apply Hgroups in Hk as (l & Hl & _). by eapply lookup_lt_Some.
Qed.

Lemma ranking_member g rank groups a k :
  ranking g rank groups → rank !! a = Some k → a ∈ groups !!! k.
Proof.
  intros (_ & _ & _ & Hgroups) Hk.
  apply Hgroups in Hk as (l & Hl & Hin).
  by rewrite (list_lookup_total_correct _ _ _ Hl).
Qed.

(** Phase 1 leaves nothing queued. *)
Lemma phase_up_drained g rank groups s :
  ranking g rank groups →
  drained_to g groups (λ _, False) s →
  drained_to g groups (λ _, False) (phase_up s).
Proof.
  intros Hrk Hs.
  pose (I := λ (r : nat) s, drained_to g groups
               (λ a, ∃ k, rank !! a = Some k ∧ (r < k)%nat) s).
  assert (Hend : I (0 + length groups)%nat (phase_up s)).
  { unfold phase_up, phase_up_with.
    destruct Hs as (Hadj & Hranks & Hq). rewrite Hranks.
    apply foldl_seq_inv.
    - split; [done|]. split; [done|]. intros a p Hne. by destruct (Hq a p).
    - intros r s1 Hr Hs1. cbv zeta.
      assert (Hsent : I r (foldl (send_routes CUSTOMER_TO_PROVIDER) s1
                                 (groups !!! r))).
      { apply foldl_inv; [done|]. intros s2 asn Hasn Hs2.
        apply send_routes_drained; [done|]. intros nbr Hnbr.
        pose proof Hrk as (_ & Hup & _).
        apply (Hup asn nbr r); [|done].
        by eapply ranking_group. }
      case_decide as Hlt.
      + eapply drained_to_weaken;
          [apply (process_all_drained g groups (groups !!! (r + 1)%nat)),
             Hsent|].
        intros a [(k & Hk & Hlt') Hnotin]. exists k. split; [done|].
        destruct (decide (k = (r + 1)%nat)) as [->|]; [|lia].
        destruct Hnotin. by eapply ranking_member.
      + eapply drained_to_weaken; [exact Hsent|].
        intros a (k & Hk & Hlt'). exists k. split; [done|].
        pose proof (ranking_bound g rank groups a k Hrk Hk). lia. }
  eapply drained_to_weaken; [exact Hend|].
  intros a (k & Hk & Hlt).
  pose proof (ranking_bound g rank groups a k Hrk Hk). lia.
Qed.

(** Phase 2 leaves nothing queued at the top rank. *)
Lemma phase_peer_drained g rank groups s :
  ranking g rank groups →
  drained_to g groups (λ _, False) s →
  drained_to g groups
    (λ a, ∃ k, rank !! a = Some k ∧ (S k < length groups)%nat)
    (phase_peer s).
Proof.
  intros Hrk Hs.
  pose (I := λ (r : nat) s, drained_to g groups
               (λ a, ∃ k, rank !! a = Some k
                          ∧ (S k < length groups ∨ r ≤ k)%nat) s).
  assert (Hend : I (0 + length groups)%nat (phase_peer s)).
  { unfold phase_peer, phase_peer_with.
    destruct Hs as (Hadj & Hranks & Hq). rewrite Hranks.
    apply foldl_seq_inv.
    - split; [done|]. split; [done|]. intros a p Hne. by destruct (Hq a p).
    - intros r s1 Hr Hs1. cbv zeta.
      assert (Hsent : I r (foldl (send_routes PEER_TO_PEER) s1
                                 (groups !!! r))).
      { apply foldl_inv; [done|]. intros s2 asn Hasn Hs2.
        apply send_routes_drained; [done|]. intros nbr Hnbr.
        pose proof Hrk as (Hnb & _).
        destruct (Hnb asn nbr _ Hnbr) as [k Hk]. exists k. split; [done|].
        pose proof (ranking_bound g rank groups nbr k Hrk Hk). lia. }
      eapply drained_to_weaken;
        [apply (process_all_drained g groups (groups !!! r)), Hsent|].
      intros a [(k & Hk & Hlt') Hnotin]. exists k. split; [done|].
      destruct (decide (k = r)) as [->|]; [|lia].
      destruct Hnotin. by eapply ranking_member. }
  eapply drained_to_weaken; [exact Hend|].
  intros a (k & Hk & Hlt). exists k. split; [done|].
  pose proof (ranking_bound g rank groups a k Hrk Hk). lia.
Qed.

(** Phase 3 processes what phase 2 left and what it queues itself. *)
Lemma phase_down_drained g rank groups s :
  ranking g rank groups →
  drained_to g groups
    (λ a, ∃ k, rank !! a = Some k ∧ (S k < length groups)%nat) s →
  drained_to g groups (λ _, False) (phase_down s).
Proof.
  intros Hrk Hs.
  pose (I := λ (r : nat) s, drained_to g groups
               (λ a, ∃ k, rank !! a = Some k ∧ (S k < r)%nat) s).
  assert (Hend : I 0%nat (phase_down s)).
  { unfold phase_down, phase_down_with.
    pose proof Hs as (Hadj & Hranks & Hq). rewrite Hranks.
    apply foldl_rev_seq_inv; [done|].
    intros r s1 Hr Hs1. cbv zeta.
    assert (Hsent : I (S r) (foldl (send_routes PROVIDER_TO_CUSTOMER) s1
                                   (groups !!! r))).
    { apply foldl_inv; [done|]. intros s2 asn Hasn Hs2.
      apply send_routes_drained; [done|]. intros nbr Hnbr.
      pose proof Hrk as (_ & _ & Hdown & _).
      destruct (Hdown asn nbr r) as (j & Hj & Hlt);
        [by eapply ranking_group|done|].
      exists j. split; [done|lia]. }
    case_decide as Hpos.
    - eapply drained_to_weaken;
        [apply (process_all_drained g groups (groups !!! (r - 1)%nat)),
           Hsent|].
      intros a [(k & Hk & Hlt') Hnotin]. exists k. split; [done|].
      destruct (decide (k = (r - 1)%nat)) as [->|]; [|lia].
      destruct Hnotin. by eapply ranking_member.
    - eapply drained_to_weaken; [exact Hsent|].
      intros a (k & Hk & Hlt'). lia. }
  eapply drained_to_weaken; [exact Hend|].
  intros a (k & Hk & Hlt). lia.
Qed.

Lemma run_iteration_drained g rank groups s :
  ranking g rank groups →
  drained_to g groups (λ _, False) s →
  drained_to g groups (λ _, False) (run_iteration s).
Proof.
  intros Hrk Hs. unfold run_iteration, run_iteration_with.
  apply (phase_down_drained g rank groups); [done|].
  apply (phase_peer_drained g rank groups); [done|].
  by apply (phase_up_drained g rank groups).
Qed.

Lemma propagate_loop_drained g rank groups remaining : ∀ iteration prev s,
  ranking g rank groups →
  drained_to g groups (λ _, False) s →
  drained_to g groups (λ _, False)
             (propagate_loop remaining iteration prev s).2.
Proof.
  induction remaining as [|n IH]; intros iteration prev s Hrk Hs; [done|].
  pose proof (run_iteration_drained g rank groups s Hrk Hs) as Hnext.
  unfold propagate_loop. simpl. fold run_iteration.
  repeat case_bool_decide; simpl; [done..|].
  by apply IH.
Qed.

(** The rank index of an acyclic graph is a ranking. *)
Lemma flatten_ranking g :
  built_graph g → acyclic g →
  ranking g (fl_asn_to_rank (flatten_ranks g))
            (fl_rank_to_asns (flatten_ranks g)).
Proof.
  intros Hbuilt Hacyclic.
  pose proof (wf_graph_built g Hbuilt) as Hwf.
  destruct (flatten_ranks_inv g Hwf) as (Hempty & Hinv & Hgroups & _).
  pose proof (all_ranked g _ Hwf Hacyclic Hempty Hinv) as Hall.
  assert (Hdown : ∀ a c r,
             fl_asn_to_rank (flatten_ranks g) !! a = Some r →
             customer_of g c a →
             ∃ j, fl_asn_to_rank (flatten_ranks g) !! c = Some j
                  ∧ (j < r)%nat).
  { intros a c r Hr Hc.
    destruct (fi_rank _ _ _ _ Hinv a r Hr) as (_ & _ & Hlow & _).
    by apply Hlow. }
  split; [|split; [|split]].
  - intros a nb rel Hin. apply Hall. destruct Hwf as [Hends _].
    by destruct (Hends a nb rel Hin).
  - intros a b r Hr Hedge.
    assert (Hb : b ∈ all_asns g).
    { destruct Hwf as [Hends _]. by destruct (Hends a b _ Hedge). }
    destruct (Hall b Hb) as [j Hj]. exists j. split; [done|].
    destruct (Hdown b a j Hj) as (i & Hi & Hlt);
      [by apply customer_of_cp_edge|].
    rewrite Hr in Hi. injection Hi as <-. done.
  - done.
  - apply Hgroups.
Qed.

Lemma seed_all_fields s anns :
  adjacency (graph (seed_all s anns)) = adjacency (graph s)
  ∧ message_queues (seed_all s anns) = message_queues s
  ∧ (built_graph (graph s) → built_graph (graph (seed_all s anns))).
Proof.
  revert s. induction anns as [|a anns IH]; intros s; [done|].
  simpl. destruct (IH (seed_announcement s a.1.1 a.1.2 a.2))
    as (-> & -> & Hbuilt).
  split; [done|]. split; [done|].
  intros Hg. apply Hbuilt. simpl. by apply built_seed.
Qed.

Lemma acyclic_adjacency g g' :
  adjacency g' = adjacency g → acyclic g → acyclic g'.
Proof.
  intros Hadj Hacyclic a Ha. apply (Hacyclic a).
  eapply tc_congruence with (f := id); [|exact Ha].
  intros x y. unfold cp_edge, get_neighbors. by rewrite Hadj.
Qed.

(** The seeded state of a run over a graph that the program can build,
    without cycles: the graph is still such a graph, and nothing is
    queued. *)
Lemma run_start_ready g rov anns :
  built_graph g → acyclic g →
  built_graph (graph (run_start g rov anns))
  ∧ acyclic (graph (run_start g rov anns))
  ∧ queues_empty (run_start g rov anns).
Proof.
  intros Hbuilt Hacyclic. unfold run_start.
  destruct (seed_all_fields (set_rov_asns (new_simulator g) rov) anns)
    as (Hadj & Hq & Hb).
  split; [by apply Hb|]. split; [by eapply acyclic_adjacency|].
  intros a p. unfold queued. rewrite Hq. simpl. by rewrite lookup_empty.
Qed.

(** X15. On a graph without customer-provider cycles, every iteration of
    [propagate] processes every route it queues: when [propagate] returns,
    converged or not, no route is left in any queue, provided none was
    queued before. *)
Theorem propagate_drains_queues (s s' : BGPSimulator) (b : bool) :
  built_graph (graph s) → acyclic (graph s) →
  queues_empty s →
  propagate s = Some (b, s') →
  queues_empty s'.
Proof.
  intros Hbuilt Hacyclic Hempty Hprop.
  unfold propagate, propagate_with in Hprop.
  destruct (flatten_graph s) as [s1|] eqn:Hfl; [|done].
  pose proof (flatten_graph_Some s s1 Hfl) as Hs1.
  pose proof (flatten_ranking (graph s) Hbuilt Hacyclic) as Hrk.
  assert (Hstart : drained_to (graph s)
                     (fl_rank_to_asns (flatten_ranks (graph s)))
                     (λ _, False) s1).
  { rewrite Hs1. split; [done|]. split; [done|].
    intros a p Hne. by destruct Hne; apply Hempty. }
  pose proof (propagate_loop_drained _ _ _ 20 0 0 s1 Hrk Hstart) as Hend.
  unfold propagate_loop in Hend.
  destruct (propagate_loop_with better_route 20 0 0 s1) as [b1 s2].
  injection Hprop as -> ->. cbn [snd] in Hend.
  destruct Hend as (_ & _ & Hq). intros a p.
  destruct (queued s' a p) as [|r routes] eqn:Hqueued; [done|].
  destruct (Hq a p). by rewrite Hqueued.
Qed.

Lemma propagate_drains_queues_witness :
  ∃ s, propagate (run_start diamond ∅ [(40, "p", false)]) = Some (true, s)
       ∧ queues_empty s.
Proof.
  assert (Hbuilt : built_graph diamond)
    by (repeat apply built_add; apply built_empty).
  assert (Hacyclic : acyclic diamond).
  { apply (acyclic_by_level diamond diamond_level).
    apply (bool_decide_unpack _). vm_compute. exact I. }
  destruct (run_start_ready diamond ∅ [(40, "p", false)] Hbuilt Hacyclic)
    as (Hb & Ha & Hq).
  destruct (propagate (run_start diamond ∅ [(40, "p", false)]))
    as [[b s]|] eqn:Hp; [|by vm_compute in Hp].
  assert (b = true) as ->.
  { apply (f_equal (λ r, match r with Some (b, _) => b | None => false end))
      in Hp. by vm_compute in Hp. }
  exists s. split; [reflexivity|].
  exact (propagate_drains_queues _ s true Hb Ha Hq Hp).
Defined.

(** ** What a round of sends and a round of processing do *)

Lemma queued_send_eq s sender receiver route rel a q :
  queued (send_route_to_neighbor s sender receiver route rel) a q
  = if decide (a = receiver ∧ q = prefix route ∧ (receiver ∉ as_path route)
               ∧ can_export route rel = true)
    then queued s a q ++ [sent_route receiver route rel]
    else queued s a q.
Proof.
  destruct (send_route_to_neighbor_cases s sender receiver route rel)
    as [Hsame|(Hnotin & Hexp & Heq)].
  - case_decide as H; [|by rewrite Hsame].
    destruct H as (_ & _ & Hnotin & Hexp). exfalso.
    revert Hsame. unfold send_route_to_neighbor.
    rewrite bool_decide_eq_false_2, Hexp by done. simpl.
    intros Hsame.
    apply (f_equal (λ s, queued s receiver (prefix route))) in Hsame.
    revert Hsame. unfold queued, queue_push. simpl.
    rewrite !lookup_insert_eq. intros Hsame.
    apply (f_equal length) in Hsame. revert Hsame.
    rewrite length_app, !(lookup_total_alt (message_queues s)).
    destruct (message_queues s !! receiver) as [queue|]; simpl.
    + rewrite lookup_total_alt. destruct (queue !! prefix route); simpl; lia.
    + rewrite lookup_total_empty. simpl. lia.
  - rewrite Heq. unfold queued, queue_push. simpl.
    destruct (decide (a = receiver)) as [->|Hne].
    + rewrite lookup_insert_eq.
      destruct (decide (q = prefix route)) as [->|Hq].
      * rewrite lookup_insert_eq, decide_True by done.
        rewrite !(lookup_total_alt (message_queues s)).
        destruct (message_queues s !! receiver) as [queue|]; simpl.
        -- rewrite lookup_total_alt. by destruct (queue !! prefix route).
        -- by rewrite lookup_total_empty.
      * rewrite lookup_insert_ne by done.
        rewrite decide_False by (intros (_ & ? & _); done).
        rewrite !(lookup_total_alt (message_queues s)).
        by destruct (message_queues s !! receiver).
    + rewrite lookup_insert_ne by done.
      by rewrite decide_False by (intros (? & _); done).
Qed.

(** What one call of [send_routes] leaves: the RIBs and the rest of the
    state as they were, every queue extended at its end, only by routes
    that [send_route_to_neighbor] built over an edge of type [edge], and
    every exportable RIB route of [asn] queued at every neighbour of that
    type that is not on its path. *)
Lemma send_routes_effect edge s asn :
  let s' := send_routes edge s asn in
  ribs s' = ribs s ∧ graph s' = graph s
  ∧ rank_to_asns s' = rank_to_asns s
  ∧ (∀ a q r, r ∈ queued s a q → r ∈ queued s' a q)
  ∧ (∀ a q r, r ∈ queued s' a q →
              r ∈ queued s a q
              ∨ announcement_type r = relationship_to_announcement_type edge)
  ∧ (∀ q route nbr,
       rib_entry s asn q = Some route →
       (nbr, edge) ∈ get_neighbors (graph s) asn →
       nbr ∉ as_path route → can_export route edge = true →
       sent_route nbr route edge ∈ queued s' nbr (prefix route)).
Proof.
  unfold send_routes, rib_entry.
  destruct (ribs s !! asn) as [rib|] eqn:Hrib; [|by repeat split; auto].
  assert (Hentries : ∀ q route, rib !! q = Some route
                                → (q, route) ∈ map_to_list rib)
    by (intros q route; by rewrite elem_of_map_to_list).
  revert Hentries. generalize (map_to_list rib). intros entries.
  assert (Hgen : ∀ s1,
    ribs s1 = ribs s → graph s1 = graph s →
    let s' := foldl (λ s (route_entry : string * Route),
                 foldl (λ s (neighbor : Z * RelationType),
                          if decide (neighbor.2 = edge)
                          then send_route_to_neighbor s asn neighbor.1
                                 route_entry.2 neighbor.2
                          else s)
                       s (get_neighbors (graph s) asn)) s1 entries in
    ribs s' = ribs s ∧ graph s' = graph s
    ∧ rank_to_asns s' = rank_to_asns s1
    ∧ (∀ a q r, r ∈ queued s1 a q → r ∈ queued s' a q)
    ∧ (∀ a q r, r ∈ queued s' a q →
                r ∈ queued s1 a q
                ∨ announcement_type r
                  = relationship_to_announcement_type edge)
    ∧ (∀ q route nbr,
         (q, route) ∈ entries →
         (nbr, edge) ∈ get_neighbors (graph s) asn →
         nbr ∉ as_path route → can_export route edge = true →
         sent_route nbr route edge ∈ queued s' nbr (prefix route))).
  { induction entries as [|[q0 route0] entries IH]; intros s1 Hr1 Hg1.
    - simpl. repeat split; auto. intros q route nbr Hin.
      by apply elem_of_nil in Hin.
    - simpl. rewrite Hg1.
      assert (Hinner : ∀ nbrs s2,
        ribs s2 = ribs s → graph s2 = graph s →
        let s' := foldl (λ s (neighbor : Z * RelationType),
                     if decide (neighbor.2 = edge)
                     then send_route_to_neighbor s asn neighbor.1
                            route0 neighbor.2
                     else s) s2 nbrs in
        ribs s' = ribs s ∧ graph s' = graph s
        ∧ rank_to_asns s' = rank_to_asns s2
        ∧ (∀ a q r, r ∈ queued s2 a q → r ∈ queued s' a q)
        ∧ (∀ a q r, r ∈ queued s' a q →
                    r ∈ queued s2 a q
                    ∨ announcement_type r
                      = relationship_to_announcement_type edge)
        ∧ (∀ nbr, (nbr, edge) ∈ nbrs →
                  nbr ∉ as_path route0 → can_export route0 edge = true →
                  sent_route nbr route0 edge ∈ queued s' nbr (prefix route0))).
      { induction nbrs as [|[n rel] nbrs IHn]; intros s2 Hr2 Hg2.
        - simpl. repeat split; auto. intros nbr Hin.
          by apply elem_of_nil in Hin.
        - simpl. case_decide as Hrel.
          + subst rel.
            destruct (IHn (send_route_to_neighbor s2 asn n route0 edge))
              as (Hr & Hg & Hk & Hmono & Htype & Hsent);
              [by rewrite ribs_send|by rewrite graph_send|].
            split; [done|]. split; [done|].
            split; [by rewrite Hk, rank_to_asns_send|].
            split; [|split].
            * intros a q r Hin. apply Hmono. rewrite queued_send_eq.
              case_decide; [|done]. apply elem_of_app. by left.
            * intros a q r Hin. destruct (Htype a q r Hin) as [Hold|?];
                [|by right].
              rewrite queued_send_eq in Hold. case_decide; [|by left].
              apply elem_of_app in Hold as [?|Hnew]; [by left|].
              apply list_elem_of_singleton in Hnew. subst r. by right.
            * intros nbr [Heq|Hin]%elem_of_cons Hnotin Hexp;
                [|by apply Hsent].
              injection Heq as ->. apply Hmono. rewrite queued_send_eq.
              rewrite decide_True by done. apply elem_of_app. right.
              by apply list_elem_of_singleton.
          + destruct (IHn s2 Hr2 Hg2) as (Hr & Hg & Hk & Hmono & Htype & Hsent).
            repeat (split; [done|]).
            intros nbr [Heq|Hin]%elem_of_cons; [|by apply Hsent].
            by injection Heq as -> ->. }
      destruct (Hinner (get_neighbors (graph s) asn) s1 Hr1 Hg1)
        as (Hr2 & Hg2 & Hk2 & Hmono2 & Htype2 & Hsent2).
      match goal with |- context [foldl _ ?s2 entries] =>
        destruct (IH s2 Hr2 Hg2) as (Hr & Hg & Hk & Hmono & Htype & Hsent)
      end.
      split; [done|]. split; [done|]. split; [by rewrite Hk|].
      split; [|split].
      + intros a q r Hin. apply Hmono. by apply Hmono2.
      + intros a q r Hin. destruct (Htype a q r Hin) as [Hold|?];
          [|by right]. by apply Htype2.
      + intros q route nbr [Heq|Hin]%elem_of_cons Hnbr Hnotin Hexp;
          [|by apply (Hsent q)].
        injection Heq as -> ->. apply Hmono. by apply Hsent2. }
  intros Hentries. destruct (Hgen s eq_refl eq_refl)
    as (Hr & Hg & Hk & Hmono & Htype & Hsent).
  repeat (split; [done|]).
  intros q route nbr Hq. apply (Hsent q). by apply Hentries.
Qed.

Lemma send_group_effect edge l : ∀ s,
  let s' := foldl (send_routes edge) s l in
  ribs s' = ribs s ∧ graph s' = graph s
  ∧ rank_to_asns s' = rank_to_asns s
  ∧ (∀ a q r, r ∈ queued s a q → r ∈ queued s' a q)
  ∧ (∀ a q r, r ∈ queued s' a q →
              r ∈ queued s a q
              ∨ announcement_type r = relationship_to_announcement_type edge)
  ∧ (∀ asn q route nbr,
       asn ∈ l → rib_entry s asn q = Some route →
       (nbr, edge) ∈ get_neighbors (graph s) asn →
       nbr ∉ as_path route → can_export route edge = true →
       sent_route nbr route edge ∈ queued s' nbr (prefix route)).
Proof.
  induction l as [|asn l IH]; intros s.
  - simpl. repeat split; auto. intros asn q route nbr Hin.
    by apply elem_of_nil in Hin.
  - simpl.
    destruct (send_routes_effect edge s asn)
      as (Hr1 & Hg1 & Hk1 & Hmono1 & Htype1 & Hsent1).
    destruct (IH (send_routes edge s asn))
      as (Hr & Hg & Hk & Hmono & Htype & Hsent).
    split; [by rewrite Hr|]. split; [by rewrite Hg|].
    split; [by rewrite Hk|]. split; [|split].
    + intros a q r Hin. apply Hmono. by apply Hmono1.
    + intros a q r Hin. destruct (Htype a q r Hin) as [Hold|?]; [|by right].
      by apply Htype1.
    + intros a q route nbr [->|Hin]%elem_of_cons Hq Hnbr Hnotin Hexp.
      * apply Hmono. by apply (Hsent1 q).
      * apply (Hsent a q); [done| |by rewrite Hg1|done..].
        unfold rib_entry in *. by rewrite Hr1.
Qed.

Lemma select_routes_kept rov asn routes entry :
  is_Some entry → is_Some (foldl (select_route rov asn) entry routes).
Proof.
  intros [r0 ->].
  destruct (select_routes_best rov asn routes (Some r0))
    as (_ & _ & Himprove & _).
  destruct (Himprove r0 eq_refl) as (r' & -> & _). by eexists.
Qed.

Lemma elem_of_admitted rov asn routes r :
  r ∈ admitted rov asn routes → r ∈ routes.
Proof. unfold admitted. by intros [_ ?]%list_elem_of_filter. Qed.

(** What processing the queues of a list of ASes leaves. *)
Lemma process_group_effect l : ∀ s,
  let s' := foldl process_messages s l in
  rank_to_asns s' = rank_to_asns s
  ∧ rov_enabled_asns s' = rov_enabled_asns s
  ∧ (∀ a q, a ∉ l → rib_entry s' a q = rib_entry s a q
                    ∧ queued s' a q = queued s a q)
  ∧ (∀ a q, is_Some (rib_entry s a q) → is_Some (rib_entry s' a q))
  ∧ (∀ a q, a ∈ l →
            admitted (rov_enabled_asns s) a (queued s a q) ≠ [] →
            is_Some (rib_entry s' a q))
  ∧ (∀ a q r, rib_entry s' a q = Some r →
              rib_entry s a q = Some r ∨ r ∈ queued s a q)
  ∧ (∀ a q r, r ∈ queued s' a q → r ∈ queued s a q).
Proof.
  induction l as [|asn l IH]; intros s.
  - simpl. repeat split; auto.
    + intros a q Hin. by apply elem_of_nil in Hin.
  - simpl.
    destruct (rov_process_messages s asn) as (Hrov1 & _ & Hk1).
    destruct (IH (process_messages s asn))
      as (Hk & Hrov & Hframe & Hkept & Hnew & Hfrom & Hq).
    split; [by rewrite Hk|]. split; [by rewrite Hrov|].
    split; [|split; [|split; [|split]]].
    + intros a q [Hne Hnotin]%not_elem_of_cons.
      destruct (Hframe a q Hnotin) as [-> ->].
      by rewrite rib_entry_process_messages, queued_process_messages,
        !decide_False.
    + intros a q Hsome. apply Hkept. rewrite rib_entry_process_messages.
      case_decide; [|done]. subst a. by apply select_routes_kept.
    + intros a q Hin Hadm.
      destruct (decide (a = asn)) as [->|Hne].
      * apply Hkept. rewrite rib_entry_process_messages, decide_True by done.
        by apply select_routes_best.
      * apply elem_of_cons in Hin as [?|Hin]; [done|].
        apply Hnew; [done|].
        by rewrite Hrov1, queued_process_messages, decide_False.
    + intros a q r Hr.
      destruct (Hfrom a q r Hr) as [Hold|Hold].
      * rewrite rib_entry_process_messages in Hold.
        case_decide; [|by left]. subst a.
        destruct (select_routes_best (rov_enabled_asns s) asn
                    (queued s asn q) (rib_entry s asn q))
          as ([Hsame|(r' & Hr' & Hin)] & _).
        -- left. congruence.
        -- right. rewrite Hold in Hr'. injection Hr' as <-.
           by eapply elem_of_admitted.
      * rewrite queued_process_messages in Hold.
        case_decide; [by apply elem_of_nil in Hold|by right].
    + intros a q r Hin. apply Hq in Hin.
      rewrite queued_process_messages in Hin.
      case_decide; [by apply elem_of_nil in Hin|done].
Qed.

(** ** Customer routes climb to every provider *)

Lemma from_announcement_run g rov anns s :
  run_state g rov anns s →
  ribs_all (from_announcement anns) s ∧ queues_all (from_announcement anns) s.
Proof.
  intros Hrun.
  eapply (run_invariant_run rov (from_announcement anns)
            (from_announcement anns)) in Hrun.
  - by destruct Hrun as (_ & ? & ?).
  - intros a nbr q route rel (Hq & ann & Hann & Hp & Hlast & Hf) _ _.
    split; [done|]. exists ann. simpl. split; [done|]. split; [congruence|].
    split; [|done]. by destruct (as_path route).
  - done.
  - intros a Ha. split; [done|]. by exists a.
Qed.

Lemma rib_entry_lookup s a q route :
  rib_entry s a q = Some route ↔
  ∃ rib, ribs s !! a = Some rib ∧ rib !! q = Some route.
Proof.
  unfold rib_entry. destruct (ribs s !! a) as [rib|].
  - split; [by exists rib|]. by intros (rib' & [= <-] & ?).
  - split; [done|]. by intros (rib' & ? & ?).
Qed.

Lemma queued_lookup s a q route :
  route ∈ queued s a q ↔
  ∃ queue routes, message_queues s !! a = Some queue
                  ∧ queue !! q = Some routes ∧ route ∈ routes.
Proof.
  unfold queued. destruct (message_queues s !! a) as [queue|].
  - destruct (queue !! q) as [routes|] eqn:Hq.
    + split; [by exists queue, routes|].
      intros (queue' & routes' & [= <-] & Hq' & ?). congruence.
    + split; [by intros ?%elem_of_nil|].
      intros (queue' & routes' & [= <-] & Hq' & ?). congruence.
  - split; [by intros ?%elem_of_nil|]. by intros (? & ? & ? & _).
Qed.

(** Every AS on the path of a route that went up only reaches the AS
    that holds the route. *)
Lemma hops_up_reach g path : ∀ rels,
  hops g path rels → all_up rels = true →
  ∀ a, head path = Some a → ∀ x, x ∈ path → rtc (cp_edge g) x a.
Proof.
  induction path as [|recv path IH]; intros rels Hhops Hup a Hhead x Hx;
    [done|].
  injection Hhead as ->.
  destruct path as [|send path].
  - apply list_elem_of_singleton in Hx. by subst x.
  - destruct rels as [|rel rels]; [done|].
    destruct Hhops as [Hedge Hhops].
    apply andb_true_iff in Hup as [Hrel Hup].
    apply bool_decide_eq_true in Hrel. subst rel.
    apply elem_of_cons in Hx as [->|Hx]; [done|].
    eapply rtc_r; [by eapply (IH rels)|done].
Qed.

Lemma customer_route_not_to_provider g a q route b :
  acyclic g → valley_free_route g a q route →
  announcement_type route = LEARNED_FROM_CUSTOMER →
  cp_edge g a b → b ∉ as_path route.
Proof.
  intros Hacyclic (Hhead & rels & Hhops & Hshape & Htype) Hcust Hedge Hin.
  apply (Hacyclic a). eapply tc_rtc_r; [by apply tc_once|].
  eapply hops_up_reach; [done| |done..].
  apply learned_from_customer_all_up; [done|congruence].
Qed.

Lemma ranking_adjacency g g' rank groups :
  adjacency g' = adjacency g → ranking g' rank groups →
  ranking g rank groups.
Proof.
  intros Hadj (Hnb & Hup & Hdown & Hgroups).
  assert (Hn : ∀ a, get_neighbors g a = get_neighbors g' a)
    by (intros a; unfold get_neighbors; by rewrite Hadj).
  split; [|split; [|split]]; [| | |done].
  - intros a nb rel. rewrite Hn. apply Hnb.
  - intros a b r Hr. unfold cp_edge. rewrite Hn. by apply Hup.
  - intros a c r Hr. unfold customer_of. rewrite Hn. by apply Hdown.
Qed.

Lemma rib_entry_seed_all_Some s anns o p :
  (is_Some (rib_entry s o p) ∨ ∃ f, (o, p, f) ∈ anns) →
  is_Some (rib_entry (seed_all s anns) o p).
Proof.
  revert s. induction anns as [|a anns IH]; intros s.
  - intros [?|[f Hf]]; [done|by apply elem_of_nil in Hf].
  - intros H. simpl. apply IH.
    destruct (decide (a.1.1 = o ∧ a.1.2 = p)) as [[Ho Hp]|Hne].
    + left. rewrite rib_entry_seed, decide_True by done. by eexists.
    + destruct H as [Hsome|[f [<-|Hf]%elem_of_cons]].
      * left. rewrite rib_entry_seed.
        by rewrite decide_False by (intros [-> ->]; by destruct Hne).
      * by destruct Hne.
      * right. by exists f.
Qed.

Lemma seeds_learned_from_customer g rov anns a q route :
  rib_entry (run_start g rov anns) a q = Some route →
  announcement_type route = LEARNED_FROM_CUSTOMER.
Proof.
  intros (rib & Hrib & Hq)%rib_entry_lookup.
  assert (Hinv : run_invariant rov
            (λ _ _ r, announcement_type r = LEARNED_FROM_CUSTOMER)
            (λ _ _ _, True) (run_start g rov anns)).
  { apply run_invariant_seed_all; [done|apply run_invariant_new]. }
  destruct Hinv as (_ & Hribs & _). by eapply Hribs.
Qed.

Lemma rib_entry_kept s s' a p :
  rtc step s s' → is_Some (rib_entry s a p) → is_Some (rib_entry s' a p).
Proof.
  induction 1 as [|s s1 s' Hstep _ IH]; [done|].
  intros [r Hr]. apply IH.
  destruct (rib_entry_step s s1 a p r Hstep Hr) as (r' & -> & _).
  by eexists.
Qed.

Lemma reach_ranked g rank groups o a :
  ranking g rank groups → is_Some (rank !! o) → rtc (cp_edge g) o a →
  is_Some (rank !! a).
Proof.
  intros (_ & Hup & _) Ho Hreach.
  induction Hreach as [|o m a Hedge _ IH]; [done|].
  apply IH. destruct Ho as [k Hk].
  destruct (Hup o m k Hk Hedge) as (j & -> & _). by eexists.
Qed.

Lemma nonempty_elem {A} (l : list A) : l ≠ [] → ∃ x, x ∈ l.
Proof. destruct l as [|x l]; [done|]. intros _. exists x. by left. Qed.

Lemma elem_nonempty {A} (l : list A) x : x ∈ l → l ≠ [].
Proof. intros Hx ->. by apply elem_of_nil in Hx. Qed.

(** One turn of the loop of phase 1. *)
Lemma phase_up_turn g rov anns rank groups o p r s1 :
  acyclic g → ranking g rank groups → is_Some (rank !! o) →
  (∀ a : Announcement, a ∈ anns → a.1.2 = p → a.2 = false) →
  (r < length groups)%nat →
  climbing g rov anns rank groups o p r s1 →
  climbing g rov anns rank groups o p (S r)
    (let s := foldl (send_routes CUSTOMER_TO_PROVIDER) s1 (groups !!! r) in
     if decide (r + 1 < length groups)%nat
     then foldl process_messages s (groups !!! (r + 1)%nat)
     else s).
Proof.
  intros Hacyclic Hrk Ho Hvalid Hr (Hlink & Hranks & HD & HC & H0 & HA & HB).
  cbv zeta.
  set (s2 := foldl (send_routes CUSTOMER_TO_PROVIDER) s1 (groups !!! r)).
  destruct (send_group_effect CUSTOMER_TO_PROVIDER (groups !!! r) s1)
    as (Hribs2 & Hg2 & Hk2 & Hmono2 & Htype2 & Hsent2).
  fold s2 in Hribs2, Hg2, Hk2, Hmono2, Htype2, Hsent2.
  assert (Hlink2 : rtc link_step (run_start g rov anns) s2).
  { etrans; [exact Hlink|]. apply foldl_link_steps.
    intros. apply send_routes_link_steps. }
  assert (Hadj1 : adjacency (graph s1) = adjacency g).
  { rewrite (graph_link_steps _ _ Hlink). unfold run_start.
    by rewrite adjacency_seed_all. }
  assert (Hvf1 : ribs_all (valley_free_route g) s1).
  { eapply (valley_free_link_steps g rov) in Hlink as (_ & ? & _);
      [done| |apply valley_free_start].
    unfold run_start. by rewrite adjacency_seed_all. }
  destruct (from_announcement_run g rov anns s1) as [Hfa1 _];
    [right; by apply link_steps_steps|].
  destruct (from_announcement_run g rov anns s2) as [_ Hfq2];
    [right; by apply link_steps_steps|].
  assert (Hentry2 : ∀ a q, rib_entry s2 a q = rib_entry s1 a q)
    by (intros a q; unfold rib_entry; by rewrite Hribs2).
  assert (HC2 : ∀ a q route, route ∈ queued s2 a q →
                announcement_type route = LEARNED_FROM_CUSTOMER).
  { intros a q route Hin.
    destruct (Htype2 a q route Hin) as [Hold|Hnew]; [by eapply HC|done]. }
  assert (HB2 : ∀ a b ka kb,
             rtc (cp_edge g) o a → cp_edge g a b →
             rank !! a = Some ka → rank !! b = Some kb →
             (ka < S r)%nat → (r < kb)%nat → queued s2 b p ≠ []).
  { intros a b ka kb Hreach Hedge Hka Hkb Hlt Hgt.
    destruct (decide (ka < r)%nat) as [Hlow|Hhere].
    - destruct (nonempty_elem (queued s1 b p)) as [route Hin];
        [by eapply HB|].
      eapply elem_nonempty. by apply Hmono2.
    - assert (ka = r) as -> by lia.
      destruct (HA a r Hreach Hka) as [route Hroute]; [lia|].
      apply rib_entry_lookup in Hroute as Hlookup.
      destruct Hlookup as (rib & Hrib & Hq).
      destruct (Hfa1 a rib p route Hrib Hq) as [Hprefix _].
      pose proof (HD a p route Hroute) as Hcust.
      assert (Hexp : can_export route CUSTOMER_TO_PROVIDER = true)
        by (unfold can_export; by rewrite Hcust).
      assert (Hnotin : b ∉ as_path route).
      { eapply customer_route_not_to_provider; [done| |done..].
        by eapply Hvf1. }
      assert (Hnbr : (b, CUSTOMER_TO_PROVIDER) ∈ get_neighbors (graph s1) a).
      { unfold cp_edge, get_neighbors in *. by rewrite Hadj1. }
      pose proof (Hsent2 a p route b
                    (ranking_member g rank groups a r Hrk Hka)
                    Hroute Hnbr Hnotin Hexp) as Hin.
      rewrite Hprefix in Hin. by eapply elem_nonempty. }
  case_decide as Hlt.
  - set (l := groups !!! (r + 1)%nat).
    destruct (process_group_effect l s2)
      as (Hk3 & Hrov3 & Hframe & Hkept & Hnew & Hfrom & Hq3).
    split; [|split; [|split; [|split; [|split; [|split]]]]].
    + etrans; [exact Hlink2|]. apply foldl_link_steps.
      intros. apply process_messages_link_steps.
    + by rewrite Hk3, Hk2.
    + intros a q route Hroute.
      destruct (Hfrom a q route Hroute) as [Hold|Hin].
      * rewrite Hentry2 in Hold. by eapply HD.
      * by eapply HC2.
    + intros a q route Hin. eapply HC2. by apply Hq3.
    + apply Hkept. by rewrite Hentry2.
    + intros a k Hreach Hk Hle.
      destruct (decide (k ≤ r)%nat) as [Hlow|Hnew'].
      { apply Hkept. rewrite Hentry2. by eapply HA. }
      assert (k = (r + 1)%nat) as -> by lia.
      apply rtc_inv_r in Hreach as [->|(a' & Hreach' & Hedge)].
      { apply Hkept. by rewrite Hentry2. }
      destruct (reach_ranked g rank groups o a' Hrk Ho Hreach')
        as [ka Hka].
      pose proof Hrk as (_ & Hup & _).
      destruct (Hup a' a ka Hka Hedge) as (j & Hj & Hkj).
      rewrite Hk in Hj. injection Hj as <-.
      destruct (nonempty_elem (queued s2 a p)) as [route Hin];
        [eapply (HB2 a' a ka (r + 1)%nat); [done..|lia|lia]|].
      apply Hnew; [by eapply ranking_member|].
      apply (elem_nonempty _ route). unfold admitted.
      apply list_elem_of_filter. split; [|done].
      apply queued_lookup in Hin as (queue & routes & Hqueue & Hroutes & Hin).
      destruct (Hfq2 a queue p routes route Hqueue Hroutes Hin)
        as (_ & ann & Hann & Hp & _ & Hflag).
      rewrite Hflag, (Hvalid ann Hann Hp). apply andb_false_r.
    + intros a b ka kb Hreach Hedge Hka Hkb Hlow Hhigh.
      assert (Hnotin : b ∉ l).
      { intros Hin. apply (ranking_group g rank groups) in Hin; [|done].
        rewrite Hkb in Hin. injection Hin as ->. lia. }
      destruct (Hframe b p Hnotin) as [_ ->].
      eapply (HB2 a b ka kb); [done..|lia].
  - split; [done|]. split; [by rewrite Hk2|].
    split; [|split; [done|split; [|split]]].
    + intros a q route. rewrite Hentry2. apply HD.
    + by rewrite Hentry2.
    + intros a k Hreach Hk Hle. rewrite Hentry2.
      eapply HA; [done..|].
      pose proof (ranking_bound g rank groups a k Hrk Hk). lia.
    + intros a b ka kb Hreach Hedge Hka Hkb Hlow Hhigh.
      pose proof (ranking_bound g rank groups b kb Hrk Hkb). lia.
Qed.

Lemma phase_up_climbing g rov anns rank groups o p s :
  acyclic g → ranking g rank groups → is_Some (rank !! o) →
  (∀ a : Announcement, a ∈ anns → a.1.2 = p → a.2 = false) →
  climbing g rov anns rank groups o p 0 s →
  climbing g rov anns rank groups o p (length groups) (phase_up s).
Proof.
  intros Hacyclic Hrk Ho Hvalid Hs.
  unfold phase_up, phase_up_with.
  pose proof Hs as (_ & Hranks & _). rewrite Hranks.
  apply (foldl_seq_inv (climbing g rov anns rank groups o p) _
           (length groups) 0%nat); [done|].
  intros r s1 Hr Hs1.
  apply (phase_up_turn g rov anns rank groups o p r s1); [done..|lia|done].
Qed.

Lemma origin_in_graph s anns o p f :
  (o, p, f) ∈ anns → o ∈ all_asns (graph (seed_all s anns)).
Proof.
  assert (Hmono : ∀ anns s a, a ∈ all_asns (graph s) →
                              a ∈ all_asns (graph (seed_all s anns))).
  { clear. induction anns as [|x anns IH]; intros s a Ha; [done|].
    simpl. apply IH. simpl. apply elem_of_union. by right. }
  revert s. induction anns as [|x anns IH]; intros s Hin;
    [by apply elem_of_nil in Hin|].
  apply elem_of_cons in Hin as [<-|Hin]; [|by apply IH].
  simpl. apply Hmono. simpl. apply elem_of_union. left.
  by apply elem_of_singleton.
Qed.

(** The state after [flatten_graph] at the start of a run: the rank index
    is a ranking, the origin is ranked, nothing is queued and phase 1 can
    start. *)
Lemma first_flatten g rov anns o p f s0 :
  built_graph g → acyclic g → (o, p, f) ∈ anns →
  flatten_graph (run_start g rov anns) = Some s0 →
  ∃ rank groups,
    ranking g rank groups ∧ is_Some (rank !! o)
    ∧ climbing g rov anns rank groups o p 0 s0
    ∧ drained_to g groups (λ _, False) s0.
Proof.
  intros Hbuilt Hacyclic Hann Hfl.
  destruct (run_start_ready g rov anns Hbuilt Hacyclic)
    as (Hbuilt' & Hacyclic' & Hempty).
  assert (Hadj : adjacency (graph (run_start g rov anns)) = adjacency g).
  { unfold run_start. by rewrite adjacency_seed_all. }
  pose proof (flatten_graph_Some _ s0 Hfl) as Hs0.
  exists (fl_asn_to_rank (flatten_ranks (graph (run_start g rov anns)))),
    (fl_rank_to_asns (flatten_ranks (graph (run_start g rov anns)))).
  set (rank := fl_asn_to_rank (flatten_ranks (graph (run_start g rov anns))))
    in *.
  set (groups := fl_rank_to_asns
                   (flatten_ranks (graph (run_start g rov anns)))) in *.
  assert (Hrk : ranking g rank groups).
  { eapply ranking_adjacency; [exact Hadj|]. by apply flatten_ranking. }
  assert (Ho : is_Some (rank !! o)).
  { pose proof (wf_graph_built _ Hbuilt') as Hwf.
    destruct (flatten_ranks_inv _ Hwf) as (Hq & Hinv & _).
    apply (all_ranked _ _ Hwf Hacyclic' Hq Hinv).
    unfold run_start. by eapply origin_in_graph. }
  assert (Hseed : is_Some (rib_entry (run_start g rov anns) o p)).
  { apply rib_entry_seed_all_Some. right. by exists f. }
  split; [done|]. split; [done|]. split.
  - split; [|split; [|split; [|split; [|split; [|split]]]]].
    + apply rtc_once. by apply link_flatten.
    + by rewrite Hs0.
    + intros a q route. rewrite Hs0.
      apply (seeds_learned_from_customer g rov anns).
    + intros a q route. rewrite Hs0.
      change (route ∈ queued (run_start g rov anns) a q →
              announcement_type route = LEARNED_FROM_CUSTOMER).
      rewrite Hempty. by intros ?%elem_of_nil.
    + by rewrite Hs0.
    + intros a k Ha Hk Hle.
      apply rtc_inv_r in Ha as [->|(a' & Ha' & Hedge)];
        [by rewrite Hs0|].
      destruct (reach_ranked g rank groups o a' Hrk Ho Ha') as [ka Hka].
      pose proof Hrk as (_ & Hup & _).
      destruct (Hup a' a ka Hka Hedge) as (j & Hj & Hlt).
      rewrite Hk in Hj. injection Hj as <-. lia.
    + intros a c ka kb _ _ _ _ Hlt. lia.
  - rewrite Hs0. split; [done|]. split; [done|].
    intros a q Hne. by destruct Hne; apply Hempty.
Qed.

Lemma propagate_loop_after_iteration n iteration prev s :
  rtc step (run_iteration s) (propagate_loop (S n) iteration prev s).2.
Proof.
  unfold propagate_loop. simpl. fold run_iteration.
  repeat case_bool_decide; simpl; [done..|].
  apply propagate_loop_steps.
Qed.

(** ** Valley-free reachability *)

(** *** The path of a route is a valley-free walk *)

Lemma hops_last_reach g path : ∀ rels,
  hops g path rels → all_up rels = true →
  ∀ a o, head path = Some a → last path = Some o → rtc (cp_edge g) o a.
Proof.
  intros rels Hhops Hup a o Hhead Hlast.
  eapply hops_up_reach; [done..|].
  destruct path as [|x path]; [done|].
  apply last_Some in Hlast as [l' ->].
  apply elem_of_app. right. by left.
Qed.

Lemma hops_valley_reach g path : ∀ rels b o,
  hops g path rels → valley_free rels = true →
  head path = Some b → last path = Some o → valley_reach g o b.
Proof.
  induction path as [|recv path IH]; intros rels b o Hhops Hshape Hhead Hlast;
    [done|].
  injection Hhead as Heq. subst recv.
  destruct path as [|send path].
  - injection Hlast as Heq. subst o. exists b. split; [by left|done].
  - destruct rels as [|rel rels]; [done|].
    pose proof Hhops as [Hedge Hrest].
    assert (Hlast' : last (send :: path) = Some o) by done.
    destruct rel; simpl in Hshape.
    + destruct (IH rels send o Hrest Hshape eq_refl Hlast')
        as (c & Hc & Hdown).
      exists c. split; [done|]. by eapply rtc_r.
    + exists b. split; [|done]. right. exists send. split; [|done].
      by eapply hops_last_reach.
    + exists b. split; [|done]. left.
      eapply rtc_r; [by eapply hops_last_reach|done].
Qed.

(** *** Every AS on a path holds a route *)

Lemma holders_kept s s' :
  (∀ a q, is_Some (rib_entry s a q) → is_Some (rib_entry s' a q)) →
  (∀ a q route, rib_entry s' a q = Some route →
                rib_entry s a q = Some route
                ∨ ∀ x, x ∈ as_path route →
                       is_Some (rib_entry s' x (prefix route))) →
  (∀ a q route, route ∈ queued s' a q →
                route ∈ queued s a q
                ∨ ∀ x, x ∈ tail (as_path route) →
                       is_Some (rib_entry s' x (prefix route))) →
  holders s → holders s'.
Proof.
  intros Hkept Hribs Hqueues [HR HQ]. split.
  - intros a q route Hroute x Hx.
    destruct (Hribs a q route Hroute) as [Hold|Hnew]; [|by apply Hnew].
    apply Hkept. by eapply HR.
  - intros a q route Hin x Hx.
    destruct (Hqueues a q route Hin) as [Hold|Hnew]; [|by apply Hnew].
    apply Hkept. by eapply HQ.
Qed.

Lemma holders_step g rov anns s s' :
  rtc step (run_start g rov anns) s → step s s' → holders s → holders s'.
Proof.
  intros Hrun Hstep Hh.
  destruct (run_routes_well_formed g rov anns s) as [Hwr Hwq];
    [by right|].
  assert (Hkept : ∀ a q, is_Some (rib_entry s a q)
                         → is_Some (rib_entry s' a q)).
  { intros a q Hsome. eapply rib_entry_kept; [|done]. by apply rtc_once. }
  destruct Hstep as [s s' Hfl|s asn rib p route nbr rel Hrib Hroute
                    |s asn queue p routes route Hqueue Hroutes Hin|s asn].
  - rewrite (flatten_graph_Some _ _ Hfl). exact Hh.
  - apply (holders_kept s); [done| | |done].
    + intros a q r Hr. left. unfold rib_entry in *.
      by rewrite ribs_send in Hr.
    + intros a q r. rewrite queued_send_eq. case_decide as Hsend;
        [|by left].
      intros [?|Hnew]%elem_of_app; [by left|].
      apply list_elem_of_singleton in Hnew. subst r. right.
      intros x Hx. simpl in Hx. apply Hkept.
      change (prefix (sent_route nbr route rel)) with (prefix route).
      destruct Hh as [HR _]. eapply (HR asn p); [|done].
      apply rib_entry_lookup. by exists rib.
  - apply (holders_kept s); [done| | |done].
    + intros a q r Hr.
      destruct (rib_entry_process_route s asn p route a q)
        as [Hsame|(-> & -> & Hnew & _)]; [left; congruence|].
      right. rewrite Hr in Hnew. injection Hnew as ->.
      destruct (Hwq asn queue p routes route Hqueue Hroutes Hin)
        as (Hprefix & Hhead & _).
      intros x Hx. rewrite Hprefix.
      destruct (as_path route) as [|h path] eqn:Hpath; [done|].
      injection Hhead as ->.
      apply elem_of_cons in Hx as [->|Hx]; [by rewrite Hr|].
      apply Hkept. destruct Hh as [_ HQ]. rewrite <-Hprefix.
      eapply (HQ asn p route).
      * apply queued_lookup. by exists queue, routes.
      * by rewrite Hpath.
    + intros a q r Hr. left. unfold queued in *.
      unfold process_route in Hr.
      by rewrite message_queues_process_route in Hr.
  - apply (holders_kept s); [done|by left| |done].
    intros a q r Hr. left. unfold queued in *. simpl in Hr.
    destruct (decide (a = asn)) as [->|Hne].
    + rewrite lookup_insert_eq, lookup_empty in Hr.
      by apply elem_of_nil in Hr.
    + by rewrite lookup_insert_ne in Hr.
Qed.

Lemma holders_seed_all s anns :
  (∀ a q, queued s a q = []) → holders s → holders (seed_all s anns).
Proof.
  revert s. induction anns as [|ann anns IH]; intros s Hempty Hh; [done|].
  simpl. apply IH; [done|].
  apply (holders_kept s).
  - intros a q Hsome. rewrite rib_entry_seed. by case_decide.
  - intros a q r. rewrite rib_entry_seed. case_decide as Heq; [|by left].
    intros [= <-]. right. simpl. intros x Hx.
    apply list_elem_of_singleton in Hx. subst x.
    rewrite rib_entry_seed, decide_True by done. by eexists.
  - intros a q r Hr. by left.
  - done.
Qed.

Lemma holders_run g rov anns s :
  rtc step (run_start g rov anns) s → holders s.
Proof.
  assert (Hstart : holders (run_start g rov anns)).
  { apply holders_seed_all; [done|]. split.
    - intros a q route Hr. done.
    - intros a q route Hr. by apply elem_of_nil in Hr. }
  intros Hsteps.
  assert (Hgen : ∀ s0, rtc step (run_start g rov anns) s0 → holders s0 →
                       rtc step s0 s → holders s).
  { clear Hsteps Hstart. intros s0 Hrun Hh Hsteps. revert Hrun Hh.
    induction Hsteps as [|s0 s1 s Hstep _ IH]; intros Hrun Hh; [done|].
    apply IH; [by eapply rtc_r|by eapply holders_step]. }
  by apply (Hgen (run_start g rov anns)).
Qed.

(** *** Customer routes stay customer routes *)

Lemma better_than_customer rov r' r asn :
  better_route rov r' r asn = true →
  rov_invalid r = false →
  announcement_type r = LEARNED_FROM_CUSTOMER →
  announcement_type r' = LEARNED_FROM_CUSTOMER.
Proof.
  intros Hbetter Hvalid Htype.
  apply better_route_iff in Hbetter as [(_ & _ & Hinv)|[_ Hbetter]];
    [congruence|].
  apply better_route_without_rov_iff in Hbetter. rewrite Htype in Hbetter.
  destruct (announcement_type r'); [done|..];
    unfold pref_of in Hbetter; simpl in Hbetter; lia.
Qed.

Lemma climbed_steps g rov anns o p s s' :
  (∀ a : Announcement, a ∈ anns → a.1.2 = p → a.2 = false) →
  rtc step (run_start g rov anns) s → rtc step s s' →
  climbed g o p s → climbed g o p s'.
Proof.
  intros Hvalid Hrun Hsteps. revert Hrun.
  induction Hsteps as [|s s1 s' Hstep _ IH]; intros Hrun Hs; [done|].
  apply IH; [by eapply rtc_r|].
  intros a Ha. destruct (Hs a Ha) as (route & Hroute & Htype).
  destruct (rib_entry_step s s1 a p route Hstep Hroute)
    as (r' & Hr' & [->|Hbetter]); [by exists route|].
  exists r'. split; [done|].
  eapply better_than_customer; [done| |done].
  destruct (from_announcement_run g rov anns s) as [Hfa _]; [by right|].
  apply rib_entry_lookup in Hroute as (rib & Hrib & Hq).
  destruct (Hfa a rib p route Hrib Hq) as (_ & ann & Hann & Hp & _ & Hflag).
  rewrite Hflag. by apply Hvalid.
Qed.

(** *** A prefix that reached an AS stays *)

Lemma reached_send_group p edge l s c :
  reached p s c → reached p (foldl (send_routes edge) s l) c.
Proof.
  destruct (send_group_effect edge l s) as (Hribs & _ & _ & Hmono & _).
  intros [Hsome|Hq].
  - left. unfold rib_entry in *. by rewrite Hribs.
  - right. destruct (nonempty_elem _ Hq) as [r Hr].
    eapply elem_nonempty. by apply Hmono.
Qed.

Lemma reached_process_group g rov anns p l s c :
  (∀ a : Announcement, a ∈ anns → a.1.2 = p → a.2 = false) →
  rtc step (run_start g rov anns) s →
  reached p s c →
  reached p (foldl process_messages s l) c
  ∧ (c ∈ l → is_Some (rib_entry (foldl process_messages s l) c p)).
Proof.
  intros Hvalid Hrun Hc.
  destruct (process_group_effect l s)
    as (_ & _ & Hframe & Hkept & Hnew & _ & _).
  assert (Hin : c ∈ l → is_Some (rib_entry (foldl process_messages s l) c p)).
  { intros Hl. destruct Hc as [Hsome|Hq]; [by apply Hkept|].
    apply Hnew; [done|].
    destruct (nonempty_elem _ Hq) as [route Hroute].
    apply (elem_nonempty _ route). unfold admitted.
    apply list_elem_of_filter. split; [|done].
    destruct (from_announcement_run g rov anns s) as [_ Hfq]; [by right|].
    apply queued_lookup in Hroute
      as (queue & routes & Hqueue & Hroutes & Hroute).
    destruct (Hfq c queue p routes route Hqueue Hroutes Hroute)
      as (_ & ann & Hann & Hp & _ & Hflag).
    rewrite Hflag, (Hvalid ann Hann Hp). apply andb_false_r. }
  split; [|done].
  destruct (decide (c ∈ l)) as [Hl|Hl]; [left; by apply Hin|].
  destruct (Hframe c p Hl) as [He Hq]. unfold reached. by rewrite He, Hq.
Qed.

(** A round of sends to the neighbours of type [edge] brings the prefix
    to every such neighbour of a sender whose route may be exported. *)
Lemma send_group_reaches g rov anns p edge l s a nbr route :
  rtc link_step (run_start g rov anns) s →
  a ∈ l → rib_entry s a p = Some route →
  (nbr, edge) ∈ get_neighbors g a → can_export route edge = true →
  reached p (foldl (send_routes edge) s l) nbr.
Proof.
  intros Hlink Hl Hroute Hnbr Hexp.
  pose proof (link_steps_steps _ _ Hlink) as Hrun.
  destruct (send_group_effect edge l s) as (Hribs & _ & _ & _ & _ & Hsent).
  destruct (from_announcement_run g rov anns s) as [Hfa _]; [by right|].
  apply rib_entry_lookup in Hroute as Hlookup.
  destruct Hlookup as (rib & Hrib & Hq).
  destruct (Hfa a rib p route Hrib Hq) as [Hprefix _].
  destruct (decide (nbr ∈ as_path route)) as [Hon|Hoff].
  - left. destruct (holders_run g rov anns s Hrun) as [HR _].
    unfold rib_entry. rewrite Hribs. rewrite <-Hprefix.
    by eapply (HR a p route).
  - right. eapply elem_nonempty. rewrite <-Hprefix.
    apply (Hsent a p); [done..| |done|done].
    rewrite (graph_link_steps _ _ Hlink). unfold run_start, get_neighbors.
    by rewrite adjacency_seed_all.
Qed.

Lemma across_ranked g rank groups o c :
  ranking g rank groups → is_Some (rank !! o) → across g o c →
  is_Some (rank !! c).
Proof.
  intros Hrk Ho [Hup|(a & Hup & Hpeer)]; [by eapply reach_ranked|].
  destruct Hrk as (Hnb & _). by eapply Hnb.
Qed.

Lemma valley_reach_ranked g rank groups o b :
  ranking g rank groups → is_Some (rank !! o) → valley_reach g o b →
  is_Some (rank !! b).
Proof.
  intros Hrk Ho (c & Hc & Hdown).
  apply rtc_inv_r in Hdown as [->|(a & _ & Hedge)];
    [by eapply across_ranked|].
  destruct Hrk as (Hnb & _). by eapply Hnb.
Qed.

(** *** Phase 2 brings the prefix across the peerings *)

Lemma phase_peer_reaches g rov anns rank groups o p s :
  ranking g rank groups → is_Some (rank !! o) →
  (∀ a : Announcement, a ∈ anns → a.1.2 = p → a.2 = false) →
  rtc link_step (run_start g rov anns) s → rank_to_asns s = groups →
  climbed g o p s →
  rtc link_step (run_start g rov anns) (phase_peer s)
  ∧ rank_to_asns (phase_peer s) = groups
  ∧ ∀ c, across g o c → reached p (phase_peer s) c.
Proof.
  intros Hrk Ho Hvalid Hlink Hranks Hclimbed.
  pose (J := λ (r : nat) s,
          rtc link_step (run_start g rov anns) s
          ∧ rank_to_asns s = groups
          ∧ climbed g o p s
          ∧ ∀ a c ka, rtc (cp_edge g) o a → peer_edge g a c →
                      rank !! a = Some ka → (ka < r)%nat → reached p s c).
  assert (Hend : J (0 + length groups)%nat (phase_peer s)).
  { unfold phase_peer, phase_peer_with. rewrite Hranks.
    apply foldl_seq_inv.
    - split; [done|]. split; [done|]. split; [done|].
      intros a c ka _ _ _ Hlt. lia.
    - intros r s1 Hr (Hlink1 & Hranks1 & Hclimbed1 & Hreached1). cbv zeta.
      set (sa := foldl (send_routes PEER_TO_PEER) s1 (groups !!! r)).
      assert (Hlinka : rtc link_step s1 sa).
      { apply foldl_link_steps. intros. apply send_routes_link_steps. }
      assert (Hlinkb : rtc link_step sa
                         (foldl process_messages sa (groups !!! r))).
      { apply foldl_link_steps. intros. apply process_messages_link_steps. }
      assert (Hruna : rtc step (run_start g rov anns) sa).
      { apply link_steps_steps. by etrans. }
      split; [by etrans; [|etrans]|]. split; [|split].
      + destruct (process_group_effect (groups !!! r) sa) as (Hkb & _).
        destruct (send_group_effect PEER_TO_PEER (groups !!! r) s1)
          as (_ & _ & Hka & _).
        etrans; [exact Hkb|]. etrans; [exact Hka|done].
      + eapply (climbed_steps g rov anns); [done| | |exact Hclimbed1].
        * by apply link_steps_steps.
        * apply link_steps_steps. by etrans.
      + intros a c ka Ha Hpeer Hka Hlt.
        apply (reached_process_group g rov anns); [done..|].
        destruct (decide (ka < r)%nat) as [Hlow|Hhere].
        { apply reached_send_group. by eapply Hreached1. }
        assert (ka = r) as -> by lia.
        destruct (Hclimbed1 a Ha) as (route & Hroute & Htype).
        eapply (send_group_reaches g rov anns); [done| |done..|].
        * by eapply ranking_member.
        * unfold can_export. by rewrite Htype. }
  destruct Hend as (Hlink2 & Hranks2 & Hclimbed2 & Hreached2).
  split; [done|]. split; [done|].
  intros c [Hup|(a & Hup & Hpeer)].
  - left. destruct (Hclimbed2 c Hup) as (route & -> & _). by eexists.
  - destruct (reach_ranked g rank groups o a Hrk Ho Hup) as [ka Hka].
    eapply Hreached2; [done..|].
    pose proof (ranking_bound g rank groups a ka Hrk Hka). lia.
Qed.

(** *** Phase 3 brings the prefix down to the customers *)

Lemma can_export_down route :
  can_export route PROVIDER_TO_CUSTOMER = true.
Proof. unfold can_export. by destruct (announcement_type route). Qed.

Lemma phase_down_reaches g rov anns rank groups o p s :
  ranking g rank groups → is_Some (rank !! o) →
  (∀ a : Announcement, a ∈ anns → a.1.2 = p → a.2 = false) →
  rtc link_step (run_start g rov anns) s → rank_to_asns s = groups →
  drained_to g groups
    (λ a, ∃ k, rank !! a = Some k ∧ (S k < length groups)%nat) s →
  (∀ c, across g o c → reached p s c) →
  ∀ b, valley_reach g o b → is_Some (rib_entry (phase_down s) b p).
Proof.
  intros Hrk Ho Hvalid Hlink Hranks Hdrained Hacross.
  pose (T := λ (m : nat) s,
          rtc link_step (run_start g rov anns) s
          ∧ rank_to_asns s = groups
          ∧ (∀ b k, valley_reach g o b → rank !! b = Some k →
                    (m ≤ S k)%nat → is_Some (rib_entry s b p))
          ∧ (∀ c, across g o c → reached p s c)
          ∧ (∀ a b ka, valley_reach g o a → down_edge g a b →
                       rank !! a = Some ka → (m ≤ ka)%nat →
                       reached p s b)).
  assert (Hbelow : ∀ a b ka kb,
             down_edge g a b → rank !! a = Some ka → rank !! b = Some kb →
             (kb < ka)%nat).
  { intros a b ka kb Hedge Hka Hkb. pose proof Hrk as (_ & _ & Hdown & _).
    destruct (Hdown a b ka Hka Hedge) as (j & Hj & Hlt).
    rewrite Hkb in Hj. by injection Hj as <-. }
  assert (Hend : T 0%nat (phase_down s)).
  { unfold phase_down, phase_down_with. rewrite Hranks.
    apply foldl_rev_seq_inv.
    - split; [done|]. split; [done|]. split; [|split; [done|]].
      + intros b k (c & Hc & Hdown) Hk Htop.
        pose proof (ranking_bound g rank groups b k Hrk Hk) as Hbound.
        apply rtc_inv_r in Hdown as [->|(a & Hdown & Hedge)].
        * destruct (Hacross b Hc) as [Hsome|Hq]; [done|].
          destruct Hdrained as (_ & _ & Hpending).
          destruct (Hpending b p Hq) as (k' & Hk' & Hlt).
          rewrite Hk in Hk'. injection Hk' as <-. lia.
        * destruct (valley_reach_ranked g rank groups o a Hrk Ho)
            as [ka Hka]; [by exists c|].
          pose proof (Hbelow a b ka k Hedge Hka Hk).
          pose proof (ranking_bound g rank groups a ka Hrk Hka). lia.
      + intros a b ka _ _ Hka Hle.
        pose proof (ranking_bound g rank groups a ka Hrk Hka). lia.
    - intros r s1 Hr (Hlink1 & Hranks1 & Hheld & Hacross1 & Hsent). cbv zeta.
      set (sa := foldl (send_routes PROVIDER_TO_CUSTOMER) s1 (groups !!! r)).
      assert (Hlinka : rtc link_step s1 sa).
      { apply foldl_link_steps. intros. apply send_routes_link_steps. }
      assert (Hruna : rtc step (run_start g rov anns) sa).
      { apply link_steps_steps. by etrans. }
      destruct (send_group_effect PROVIDER_TO_CUSTOMER (groups !!! r) s1)
        as (Hribsa & _ & Hka & _).
      fold sa in Hribsa, Hka.
      assert (Hhelda : ∀ b k, valley_reach g o b → rank !! b = Some k →
                              (S r ≤ S k)%nat → is_Some (rib_entry sa b p)).
      { intros b k Hb Hk Hle. unfold rib_entry. rewrite Hribsa.
        by eapply Hheld. }
      assert (Hsenta : ∀ a b ka, valley_reach g o a → down_edge g a b →
                                 rank !! a = Some ka → (r ≤ ka)%nat →
                                 reached p sa b).
      { intros a b ka Ha Hedge Hrank Hle.
        destruct (decide (S r ≤ ka)%nat) as [Hhigh|Hhere].
        { apply reached_send_group. by eapply Hsent. }
        assert (ka = r) as -> by lia.
        destruct (Hheld a r Ha Hrank) as [route Hroute]; [lia|].
        eapply (send_group_reaches g rov anns); [done| |done..|].
        - by eapply ranking_member.
        - apply can_export_down. }
      assert (Hacrossa : ∀ c, across g o c → reached p sa c).
      { intros c Hc. apply reached_send_group. by apply Hacross1. }
      case_decide as Hpos.
      + set (l := groups !!! (r - 1)%nat).
        assert (Hlinkb : rtc link_step sa (foldl process_messages sa l)).
        { apply foldl_link_steps. intros.
          apply process_messages_link_steps. }
        destruct (process_group_effect l sa) as (Hkb & _ & _ & Hkept & _).
        split; [by etrans; [|etrans]|]. split; [|split; [|split]].
        * etrans; [exact Hkb|]. etrans; [exact Hka|done].
        * intros b k Hb Hk Hle.
          destruct (decide (S r ≤ S k)%nat) as [Hhigh|Hnew].
          { apply Hkept. by eapply Hhelda. }
          assert (k = (r - 1)%nat) as -> by lia.
          apply (reached_process_group g rov anns p l sa b);
            [done..| |by eapply ranking_member].
          destruct Hb as (c & Hc & Hdown).
          apply rtc_inv_r in Hdown as [->|(a & Hdown & Hedge)];
            [by apply Hacrossa|].
          destruct (valley_reach_ranked g rank groups o a Hrk Ho)
            as [ka Hka']; [by exists c|].
          pose proof (Hbelow a b ka _ Hedge Hka' Hk).
          eapply (Hsenta a b ka); [by exists c|done..|lia].
        * intros c Hc.
          by apply (reached_process_group g rov anns p l sa c), Hacrossa.
        * intros a b ka Ha Hedge Hrank Hle.
          apply (reached_process_group g rov anns p l sa b); [done..|].
          by eapply Hsenta.
      + assert (r = 0%nat) as -> by lia.
        split; [by etrans|]. split; [by rewrite Hka|].
        split; [|split; [done|]].
        * intros b k Hb Hk _. eapply Hhelda; [done..|lia].
        * intros a b ka Ha Hedge Hrank _. eapply Hsenta; [done..|lia]. }
  destruct Hend as (_ & _ & Hheld & _).
  intros b Hb.
  destruct (valley_reach_ranked g rank groups o b Hrk Ho Hb) as [k Hk].
  eapply Hheld; [done..|lia].
Qed.

(** *** The first iteration reaches every AS behind a valley-free walk *)

Lemma first_iteration_reaches g rov anns o p f s0 b :
  built_graph g → acyclic g → (o, p, f) ∈ anns →
  (∀ a : Announcement, a ∈ anns → a.1.2 = p → a.2 = false) →
  flatten_graph (run_start g rov anns) = Some s0 →
  valley_reach g o b →
  is_Some (rib_entry (run_iteration s0) b p).
Proof.
  intros Hbuilt Hacyclic Hann Hvalid Hfl Hb.
  destruct (first_flatten g rov anns o p f s0 Hbuilt Hacyclic Hann Hfl)
    as (rank & groups & Hrk & Ho & Hstart & Hdrained).
  pose proof (phase_up_climbing g rov anns rank groups o p s0
                Hacyclic Hrk Ho Hvalid Hstart)
    as (Hlink1 & Hranks1 & HD & _ & _ & HA & _).
  assert (Hclimbed : climbed g o p (phase_up s0)).
  { intros a Ha.
    destruct (reach_ranked g rank groups o a Hrk Ho Ha) as [k Hk].
    pose proof (ranking_bound g rank groups a k Hrk Hk) as Hbound.
    destruct (HA a k Ha Hk) as [route Hroute]; [lia|].
    exists route. split; [done|]. by eapply HD. }
  destruct (phase_peer_reaches g rov anns rank groups o p (phase_up s0)
              Hrk Ho Hvalid Hlink1 Hranks1 Hclimbed)
    as (Hlink2 & Hranks2 & Hacross).
  unfold run_iteration, run_iteration_with.
  apply (phase_down_reaches g rov anns rank groups o p); [done..| |done|done].
  apply (phase_peer_drained g rank groups); [done|].
  by apply (phase_up_drained g rank groups).
Qed.

(** X16. Valley-free reachability.  When [propagate] returns on a run over
    a built graph without customer-provider cycles, an AS that holds a
    route for a prefix is at the end of a valley-free walk (up to
    providers, at most once across a peering, down to customers) from the
    origin of an announcement of the prefix; and when every announcement
    of the prefix is valid, every AS at the end of such a walk holds a
    route for the prefix, whatever the ROV set is. *)
Theorem valley_free_reachability (g : ASGraph) (rov : gset Z)
    (anns : list Announcement) (p : string) (b : Z) (res : bool)
    (s : BGPSimulator) :
  built_graph g → acyclic g →
  propagate (run_start g rov anns) = Some (res, s) →
  (is_Some (rib_entry s b p) →
   ∃ o f, (o, p, f) ∈ anns ∧ valley_reach g o b)
  ∧ ((∀ a : Announcement, a ∈ anns → a.1.2 = p → a.2 = false) →
     (∃ o f, (o, p, f) ∈ anns ∧ valley_reach g o b) →
     is_Some (rib_entry s b p)).
Proof.
  intros Hbuilt Hacyclic Hprop. split.
  - intros [route Hroute].
    pose proof (propagate_link_steps _ _ _ Hprop) as Hlink.
    pose proof (link_steps_steps _ _ Hlink) as Hrun.
    destruct (from_announcement_run g rov anns s) as [Hfa _]; [by right|].
    eapply (valley_free_link_steps g rov) in Hlink as (_ & Hvf & _);
      [| |apply valley_free_start];
      [|unfold run_start; by rewrite adjacency_seed_all].
    apply rib_entry_lookup in Hroute as (rib & Hrib & Hq).
    destruct (Hfa b rib p route Hrib Hq)
      as (_ & [[o q] f] & Hann & Hp & Hlast & _).
    destruct (Hvf b rib p route Hrib Hq) as (Hhead & rels & Hhops & Hshape & _).
    simpl in Hp, Hlast. subst q. exists o, f. split; [done|].
    by eapply hops_valley_reach.
  - intros Hvalid (o & f & Hann & Hb).
    unfold propagate, propagate_with in Hprop.
    destruct (flatten_graph (run_start g rov anns)) as [s0|] eqn:Hfl;
      [|done].
    pose proof (first_iteration_reaches g rov anns o p f s0 b
                  Hbuilt Hacyclic Hann Hvalid Hfl Hb) as Hfirst.
    pose proof (propagate_loop_after_iteration 19 0 0 s0) as Hafter.
    unfold propagate_loop in Hafter.
    destruct (propagate_loop_with better_route 20 0 0 s0) as [b1 s2].
    injection Hprop as -> ->. cbn [snd] in Hafter.
    by eapply rib_entry_kept.
Qed.

Lemma valley_free_reachability_witness :
  ∃ s, propagate (run_start valley ∅ [(4, "p", false)]) = Some (true, s)
       ∧ is_Some (rib_entry s 2 "p")
       ∧ (is_Some (rib_entry s 1 "p") →
          ∃ o f, (o, "p", f) ∈ [(4, "p", false)] ∧ valley_reach valley o 1).
Proof.
  assert (Hbuilt : built_graph valley)
    by (repeat apply built_add; apply built_empty).
  assert (Hacyclic : acyclic valley).
  { apply (acyclic_by_level valley
             (λ a, if decide (a = 1) then 1%nat
                   else if decide (a = 3) then 1%nat else 0%nat)).
    apply (bool_decide_unpack _). vm_compute. exact I. }
  assert (Hup : cp_edge valley 4 3) by (vm_compute; repeat constructor).
  assert (Hpeer : peer_edge valley 3 2) by (vm_compute; repeat constructor).
  destruct (propagate (run_start valley ∅ [(4, "p", false)]))
    as [[b s]|] eqn:Hp; [|by vm_compute in Hp].
  assert (b = true) as ->.
  { apply (f_equal (λ r, match r with Some (b, _) => b | None => false end))
      in Hp. by vm_compute in Hp. }
  exists s. split; [reflexivity|].
  split.
  - apply (proj2 (valley_free_reachability valley ∅ [(4, "p", false)] "p" 2
                    true s Hbuilt Hacyclic Hp)).
    + intros a Ha _. apply list_elem_of_singleton in Ha. by subst a.
    + exists 4, false. split; [by left|].
      exists 2. split; [|done]. right. exists 3. split; [|done].
      by apply rtc_once.
  - apply (proj1 (valley_free_reachability valley ∅ [(4, "p", false)] "p" 1
                    true s Hbuilt Hacyclic Hp)).
Defined.

(** ** The rows of [ribs.csv] *)

Lemma ascii_compare_refl a : Ascii.compare a a = Eq.
Proof. unfold Ascii.compare. apply N.compare_refl. Qed.

Lemma ascii_compare_lt_trans a b c :
  Ascii.compare a b = Lt → Ascii.compare b c = Lt → Ascii.compare a c = Lt.
Proof.
  unfold Ascii.compare. rewrite !N.compare_lt_iff. apply N.lt_trans.
Qed.

Lemma string_compare_lt_trans s1 : ∀ s2 s3,
  String.compare s1 s2 = Lt → String.compare s2 s3 = Lt →
  String.compare s1 s3 = Lt.
Proof.
  induction s1 as [|a s1 IH]; intros [|b s2] [|c s3]; simpl; try done.
  destruct (Ascii.compare a b) eqn:Hab; [|
    |done].
  - apply Ascii.compare_eq_iff in Hab as ->.
    destruct (Ascii.compare b c); [apply IH|done..].
  - intros _. destruct (Ascii.compare b c) eqn:Hbc; [| |done].
    + apply Ascii.compare_eq_iff in Hbc as ->. by rewrite Hab.
    + by rewrite (ascii_compare_lt_trans a b c).
Qed.

Lemma ltb_trans s1 s2 s3 :
  String.ltb s1 s2 = true → String.ltb s2 s3 = true →
  String.ltb s1 s3 = true.
Proof.
  unfold String.ltb.
  destruct (String.compare s1 s2) eqn:H12; try done.
  destruct (String.compare s2 s3) eqn:H23; try done.
  by rewrite (string_compare_lt_trans s1 s2 s3 H12 H23).
Qed.

Lemma ltb_asym s1 s2 : String.ltb s1 s2 = true → String.ltb s2 s1 = false.
Proof.
  unfold String.ltb. rewrite (String.compare_antisym s2 s1).
  by destruct (String.compare s1 s2).
Qed.

Lemma ltb_connected s1 s2 :
  String.ltb s1 s2 = false → String.ltb s2 s1 = false → s1 = s2.
Proof.
  unfold String.ltb. rewrite (String.compare_antisym s2 s1).
  destruct (String.compare s1 s2) eqn:H12; try done.
  intros _ _. by apply String.compare_eq_iff.
Qed.

Lemma tuple_ltb_asym x y : tuple_ltb x y = true → tuple_ltb y x = false.
Proof.
  destruct x as [[a p] s], y as [[b q] t]. unfold tuple_ltb. simpl.
  pose proof (ltb_asym p q). pose proof (ltb_asym q p).
  pose proof (ltb_asym s t). pose proof (ltb_asym t s).
  repeat case_bool_decide; simpl; try done; try lia;
    destruct (String.ltb p q), (String.ltb q p),
      (String.ltb s t), (String.ltb t s); simpl; naive_solver.
Qed.

#[global] Instance not_after_total : Total not_after.
Proof.
  intros x y. unfold not_after.
  destruct (tuple_ltb y x) eqn:Hyx; [|by left].
  right. by apply tuple_ltb_asym.
Qed.

Lemma not_after_row_before x y :
  not_after x y → x.1 ≠ y.1 → row_before x y.
Proof.
  destruct x as [[a p] s], y as [[b q] t].
  unfold not_after, tuple_ltb, row_before. simpl. intros Hnot Hkey.
  apply orb_false_iff in Hnot as [Hlt Hrest].
  apply bool_decide_eq_false in Hlt.
  destruct (decide (a < b)) as [?|Hge]; [by left|].
  right. assert (a = b) as -> by lia. split; [done|].
  rewrite bool_decide_eq_false_2 in Hrest by done. simpl in Hrest.
  apply orb_false_iff in Hrest as [Hqp Hrest].
  destruct (String.ltb p q) eqn:Hpq; [done|].
  destruct Hkey. f_equal. by apply ltb_connected.
Qed.

#[global] Instance row_before_trans : Transitive row_before.
Proof.
  intros x y z [Hxy|[Hxy Hpq]] [Hyz|[Hyz Hqr]].
  - left. lia.
  - left. lia.
  - left. lia.
  - right. split; [lia|]. by eapply ltb_trans.
Qed.

Lemma Sorted_row_before l :
  Sorted not_after l → NoDup (l.*1) → Sorted row_before l.
Proof.
  induction 1 as [|x l Hsorted IH Hhd]; intros Hnodup; [constructor|].
  rewrite fmap_cons in Hnodup. apply NoDup_cons in Hnodup as [Hx Hnodup].
  constructor; [by apply IH|].
  destruct Hhd as [|y l Hxy]; constructor.
  apply not_after_row_before; [done|].
  intros Heq. apply Hx. rewrite fmap_cons, Heq. by left.
Qed.

Lemma elem_of_csv_entries (rs : gmap Z (gmap string Route)) asn p str :
  (asn, p, str) ∈ csv_entries rs
  ↔ ∃ rib route, rs !! asn = Some rib ∧ rib !! p = Some route
                 ∧ str = render_path (as_path route).
Proof.
  unfold csv_entries. rewrite list_elem_of_bind. split.
  - intros ([a rib] & Hin & Hrib). simpl in Hin.
    apply list_elem_of_fmap in Hin as ([q route] & Heq & Hroute).
    simpl in Heq. injection Heq as -> -> ->.
    apply elem_of_map_to_list in Hrib, Hroute. by exists rib, route.
  - intros (rib & route & Hrib & Hroute & ->).
    exists (asn, rib). simpl. split; [|by apply elem_of_map_to_list].
    apply list_elem_of_fmap. exists (p, route).
    split; [done|by apply elem_of_map_to_list].
Qed.

Lemma csv_entries_keys (rs : gmap Z (gmap string Route)) :
  (csv_entries rs).*1
  = map_to_list rs ≫= λ asn_entry,
      (λ q : string, (asn_entry.1, q)) <$> (map_to_list asn_entry.2).*1.
Proof.
  unfold csv_entries. induction (map_to_list rs) as [|[asn rib] l IH];
    [done|].
  rewrite !bind_cons, fmap_app, IH. f_equal. simpl.
  rewrite <-!list_fmap_compose. done.
Qed.

Lemma NoDup_csv_entries_keys (rs : gmap Z (gmap string Route)) :
  NoDup ((csv_entries rs).*1).
Proof.
  rewrite csv_entries_keys. apply NoDup_bind.
  - intros [a1 rib1] [a2 rib2] [a p] H1 H2 Hy1 Hy2. simpl in *.
    apply list_elem_of_fmap in Hy1 as (? & [= -> ->] & _).
    apply list_elem_of_fmap in Hy2 as (? & [= -> _] & _).
    apply elem_of_map_to_list in H1, H2. congruence.
  - intros [a rib] _. simpl. apply NoDup_fmap_2; [|apply NoDup_fst_map_to_list].
    by intros ?? [= ->].
  - apply NoDup_map_to_list.
Qed.

Lemma length_csv_entries (rs : gmap Z (gmap string Route)) :
  Z.of_nat (length (csv_entries rs)) = count_routes rs.
Proof.
  unfold csv_entries, count_routes. rewrite map_fold_foldr.
  induction (map_to_list rs) as [|[asn rib] l IH]; [done|].
  rewrite bind_cons, length_app, length_fmap, length_map_to_list.
  simpl. rewrite <-IH. lia.
Qed.

(** X17. The rows that [export_ribs_csv] writes after the header: there is
    exactly one row for every RIB entry, with the ASN, the prefix and the
    path of the entry written as a tuple; their number is
    [get_rib_count]; and they stand in strictly increasing order of ASN
    and, for the same ASN, of prefix as a byte string, so no two rows
    have the same ASN and prefix. *)
Theorem export_rows_sorted_complete (s : BGPSimulator) :
  let rows := sorted_entries (ribs s) in
  (∀ asn p str,
     (asn, p, str) ∈ rows
     ↔ ∃ route, rib_entry s asn p = Some route
                ∧ str = render_path (as_path route))
  ∧ Z.of_nat (length rows) = get_rib_count s
  ∧ StronglySorted row_before rows.
Proof.
  intros rows.
  assert (Hperm : rows ≡ₚ csv_entries (ribs s))
    by apply merge_sort_Permutation.
  split; [|split].
  - intros asn p str. rewrite Hperm, elem_of_csv_entries. split.
    + intros (rib & route & Hrib & Hroute & ->). exists route.
      split; [|done]. apply rib_entry_lookup. by exists rib.
    + intros (route & (rib & Hrib & Hroute)%rib_entry_lookup & ->).
      by exists rib, route.
  - rewrite Hperm. apply length_csv_entries.
  - apply Sorted_StronglySorted; [apply _|].
    apply Sorted_row_before.
    + apply Sorted_merge_sort. apply _.
    + rewrite Hperm. apply NoDup_csv_entries_keys.
Qed.

(** ** The statistics of a graph *)

Lemma count_rel_app rel l1 l2 :
  count_rel rel (l1 ++ l2) = count_rel rel l1 + count_rel rel l2.
Proof. unfold count_rel. rewrite filter_app, length_app. lia. Qed.

Lemma count_rel_singleton rel e :
  count_rel rel [e] = if decide (e.2 = rel) then 1 else 0.
Proof. unfold count_rel. rewrite filter_cons. by case_decide. Qed.

Lemma foldl_tally l : ∀ st,
  foldl tally st l
  = mkStats (stats_asns st)
      (customer_relationships st + count_rel CUSTOMER_TO_PROVIDER l)
      (peer_relationships st + count_rel PEER_TO_PEER l)
      (provider_relationships st + count_rel PROVIDER_TO_CUSTOMER l).
Proof.
  induction l as [|[n rel] l IH]; intros st.
  - destruct st. simpl. unfold count_rel. simpl. f_equal; lia.
  - simpl. rewrite IH.
    change ((n, rel) :: l) with ([(n, rel)] ++ l).
    rewrite !count_rel_app, !count_rel_singleton.
    unfold tally. destruct rel; simpl; f_equal; lia.
Qed.

(** The statistics as sums over the adjacency lists. *)
Lemma print_stats_sums (adj : gmap Z (list (Z * RelationType))) st :
  map_fold (λ _ (neighbors : list (Z * RelationType)) st,
              foldl tally st neighbors) st adj
  = mkStats (stats_asns st)
      (customer_relationships st
       + map_fold (λ _ l acc, acc + count_rel CUSTOMER_TO_PROVIDER l) 0 adj)
      (peer_relationships st
       + map_fold (λ _ l acc, acc + count_rel PEER_TO_PEER l) 0 adj)
      (provider_relationships st
       + map_fold (λ _ l acc, acc + count_rel PROVIDER_TO_CUSTOMER l) 0 adj).
Proof.
  rewrite !map_fold_foldr.
  induction (map_to_list adj) as [|[a l] entries IH].
  - destruct st. simpl. f_equal; lia.
  - simpl. rewrite IH, foldl_tally. simpl. f_equal; lia.
Qed.

Lemma total_rel_insert rel (adj : gmap Z (list (Z * RelationType))) a l :
  map_fold (λ _ l acc, acc + count_rel rel l) 0 (<[a := l]> adj)
  = map_fold (λ _ l acc, acc + count_rel rel l) 0 (delete a adj)
    + count_rel rel l.
Proof.
  rewrite <-insert_delete_eq.
  rewrite map_fold_insert_L; [done| |apply lookup_delete_eq].
  intros. lia.
Qed.

Lemma total_rel_append rel (adj : gmap Z (list (Z * RelationType))) a e :
  map_fold (λ _ l acc, acc + count_rel rel l) 0
           (<[a := (adj !!! a) ++ [e]]> adj)
  = map_fold (λ _ l acc, acc + count_rel rel l) 0 adj
    + (if decide (e.2 = rel) then 1 else 0).
Proof.
  rewrite total_rel_insert, count_rel_app, count_rel_singleton.
  rewrite lookup_total_alt.
  destruct (adj !! a) as [l|] eqn:Hl; simpl.
  - rewrite <-(insert_id adj a l) at 2 by done.
    rewrite total_rel_insert. lia.
  - rewrite delete_id by done. unfold count_rel. simpl. lia.
Qed.

(** X18. The statistics that [print_stats] prints for a graph built by
    [add_relationship]: the number of customer relationships equals the
    number of provider relationships, and the number of peer
    relationships is even, because every relationship is stored once at
    each end; the number of ASNs is the size of [all_asns]. *)
Theorem print_stats_balanced (g : ASGraph) :
  built_graph g →
  customer_relationships (print_stats g)
  = provider_relationships (print_stats g)
  ∧ Z.even (peer_relationships (print_stats g)) = true
  ∧ stats_asns (print_stats g) = size (all_asns g).
Proof.
  intros Hg. unfold print_stats. rewrite print_stats_sums. simpl.
  assert (Hsums :
    map_fold (λ _ l acc, acc + count_rel CUSTOMER_TO_PROVIDER l) 0
             (adjacency g)
    = map_fold (λ _ l acc, acc + count_rel PROVIDER_TO_CUSTOMER l) 0
               (adjacency g)
    ∧ Z.even (map_fold (λ _ l acc, acc + count_rel PEER_TO_PEER l) 0
                       (adjacency g)) = true).
  { induction Hg as [|g asn1 asn2 rel _ [IH1 IH2]|g asn _ IH]; [done| |done].
    unfold add_relationship. simpl.
    rewrite !total_rel_append. simpl. split.
    - rewrite IH1. destruct rel; simpl; lia.
    - destruct rel; simpl; rewrite ?Z.add_0_r; [done| |done].
      rewrite <-Z.add_assoc, Z.even_add, IH2. done. }
  destruct Hsums as [-> Heven]. by rewrite !Z.add_0_l, Heven.
Qed.

Lemma print_stats_balanced_witness :
  customer_relationships (print_stats valley) = 2
  ∧ provider_relationships (print_stats valley) = 2
  ∧ peer_relationships (print_stats valley) = 2.
Proof.
  assert (Hg : built_graph valley)
    by (repeat apply built_add; apply built_empty).
  destruct (print_stats_balanced valley Hg) as (Heq & _ & _).
  assert (Hc : customer_relationships (print_stats valley) = 2)
    by (by vm_compute).
  assert (Hp : peer_relationships (print_stats valley) = 2)
    by (by vm_compute).
  split; [exact Hc|]. split; [|exact Hp]. by rewrite <-Heq.
Defined.

(** ** Numbers that are written are read back *)

Lemma digit_cases d :
  0 ≤ d ≤ 9 →
  d = 0 ∨ d = 1 ∨ d = 2 ∨ d = 3 ∨ d = 4 ∨ d = 5 ∨ d = 6 ∨ d = 7 ∨ d = 8
  ∨ d = 9.
Proof. lia. Qed.

Lemma digit_value_digit_char d :
  0 ≤ d ≤ 9 → digit_value (digit_char d) = Some d.
Proof.
  intros Hd. destruct (digit_cases d Hd)
    as [->|[->|[->|[->|[->|[->|[->|[->|[->| ->]]]]]]]]]; reflexivity.
Qed.

(** A digit is no white space, sign, separator or comment mark. *)
Lemma digit_char_plain d :
  0 ≤ d ≤ 9 →
  is_space (digit_char d) = false ∧ is_blank (digit_char d) = false
  ∧ digit_char d ≠ "-"%char ∧ digit_char d ≠ "+"%char
  ∧ digit_char d ≠ "#"%char ∧ digit_char d ≠ "|"%char
  ∧ digit_char d ≠ ","%char ∧ digit_char d ≠ "010"%char.
Proof.
  intros Hd. destruct (digit_cases d Hd)
    as [->|[->|[->|[->|[->|[->|[->|[->|[->| ->]]]]]]]]];
    repeat split; done.
Qed.

Lemma digits_app fuel : ∀ n acc rest,
  (digits fuel n acc +:+ rest)%string = digits fuel n (acc +:+ rest)%string.
Proof.
  induction fuel as [|fuel IH]; intros n acc rest; [done|].
  simpl. case_bool_decide; [done|]. by rewrite IH.
Qed.

(** The head of the digits of a number is a digit. *)
Lemma digits_head fuel n acc :
  0 ≤ n →
  ∃ d rest, 0 ≤ d ≤ 9 ∧ digits (S fuel) n acc = String (digit_char d) rest.
Proof.
  revert n acc. induction fuel as [|fuel IH]; intros n acc Hn.
  - exists (n mod 10), acc.
    split; [pose proof (Z.mod_pos_bound n 10); lia|].
    simpl. by case_bool_decide.
  - change (digits (S (S fuel)) n acc)
      with (let acc' := String (digit_char (n mod 10)) acc in
            if bool_decide (n < 10) then acc'
            else digits (S fuel) (n / 10) acc').
    cbv zeta. case_bool_decide.
    + exists (n mod 10), acc.
      split; [pose proof (Z.mod_pos_bound n 10); lia|done].
    + apply IH. apply Z.div_pos; lia.
Qed.

Lemma read_digits_digit a d rest :
  0 ≤ d ≤ 9 →
  read_digits a (String (digit_char d) rest) = read_digits (10 * a + d) rest.
Proof.
  intros Hd. cbn [read_digits]. by rewrite digit_value_digit_char.
Qed.

Lemma read_digits_digits fuel : ∀ n acc,
  0 ≤ n → n < 10 ^ Z.of_nat fuel →
  ∃ k, 0 ≤ k ∧ ∀ a, read_digits a (digits fuel n acc)
                    = read_digits (a * 10 ^ k + n) acc.
Proof.
  induction fuel as [|fuel IH]; intros n acc Hn Hlt.
  - change (10 ^ Z.of_nat 0) with 1 in Hlt. assert (n = 0) as -> by lia.
    exists 0. split; [done|]. intros a. cbn [digits]. f_equal.
    change (10 ^ 0) with 1. lia.
  - pose proof (Z.mod_pos_bound n 10 ltac:(lia)) as Hmod.
    pose proof (Z.div_mod n 10 ltac:(lia)) as Hdiv.
    cbn [digits]. case_bool_decide as Hsmall.
    + exists 1. split; [lia|]. intros a.
      rewrite read_digits_digit by lia.
      rewrite Z.mod_small by lia. f_equal. change (10 ^ 1) with 10. lia.
    + destruct (IH (n / 10) (String (digit_char (n mod 10)) acc))
        as (k & Hk & Hread).
      * apply Z.div_pos; lia.
      * apply Z.div_lt_upper_bound; [lia|].
        rewrite Nat2Z.inj_succ, Z.pow_succ_r in Hlt by lia. exact Hlt.
      * exists (k + 1). split; [lia|]. intros a. rewrite Hread.
        rewrite read_digits_digit by lia. f_equal.
        rewrite Z.pow_add_r by lia. change (10 ^ 1) with 10.
        generalize (10 ^ k). intros P.
        replace (a * (P * 10)) with (10 * (a * P)) by ring.
        generalize (a * P). intros X. lia.
Qed.

Lemma digits_fuel n :
  0 ≤ n → n < 10 ^ Z.of_nat (S (Z.to_nat (Z.log2 n))).
Proof.
  intros Hn. destruct (decide (n = 0)) as [->|Hpos]; [done|].
  pose proof (Z.log2_nonneg n) as Hlog.
  rewrite Nat2Z.inj_succ, Z2Nat.id by done.
  destruct (Z.log2_spec n) as [_ Hup]; [lia|].
  eapply Z.lt_le_trans; [exact Hup|].
  apply Z.pow_le_mono_l. lia.
Qed.

(** A text that does not go on with a digit. *)
Lemma read_digits_stop v rest :
  (rest = ""%string ∨ ∃ c t, rest = String c t ∧ digit_value c = None) →
  read_digits v rest = (v, rest).
Proof. intros [->|(c & t & -> & Hc)]; simpl; [done|by rewrite Hc]. Qed.

Lemma append_String c str rest :
  (String c str +:+ rest)%string = String c (str +:+ rest)%string.
Proof. reflexivity. Qed.

Lemma read_integer_digit d tl :
  0 ≤ d ≤ 9 →
  read_integer (String (digit_char d) tl)
  = Some (read_digits 0 (String (digit_char d) tl)).
Proof.
  intros Hd. destruct (digit_cases d Hd)
    as [->|[->|[->|[->|[->|[->|[->|[->|[->| ->]]]]]]]]];
    [change (digit_char 0) with "0"%char|change (digit_char 1) with "1"%char
    |change (digit_char 2) with "2"%char|change (digit_char 3) with "3"%char
    |change (digit_char 4) with "4"%char|change (digit_char 5) with "5"%char
    |change (digit_char 6) with "6"%char|change (digit_char 7) with "7"%char
    |change (digit_char 8) with "8"%char|change (digit_char 9) with "9"%char];
    read_known_head.
Qed.

Lemma read_integer_minus d tl :
  0 ≤ d ≤ 9 →
  read_integer (String "-" (String (digit_char d) tl))
  = Some (- (read_digits 0 (String (digit_char d) tl)).1,
          (read_digits 0 (String (digit_char d) tl)).2).
Proof.
  intros Hd. destruct (digit_cases d Hd)
    as [->|[->|[->|[->|[->|[->|[->|[->|[->| ->]]]]]]]]];
    [change (digit_char 0) with "0"%char|change (digit_char 1) with "1"%char
    |change (digit_char 2) with "2"%char|change (digit_char 3) with "3"%char
    |change (digit_char 4) with "4"%char|change (digit_char 5) with "5"%char
    |change (digit_char 6) with "6"%char|change (digit_char 7) with "7"%char
    |change (digit_char 8) with "8"%char|change (digit_char 9) with "9"%char];
    read_known_head.
Qed.

Lemma digits_head_rest n rest :
  0 ≤ n →
  ∃ d tl, 0 ≤ d ≤ 9
          ∧ digits (S (Z.to_nat (Z.log2 n))) n rest
            = String (digit_char d) tl.
Proof. apply digits_head. Qed.

Lemma read_integer_to_string n rest :
  (rest = ""%string ∨ ∃ c t, rest = String c t ∧ digit_value c = None) →
  read_integer (to_string n +:+ rest) = Some (n, rest).
Proof.
  intros Hrest. unfold to_string. cbv zeta.
  case_bool_decide as Hneg.
  - assert (Hpos : 0 ≤ - n) by lia.
    replace (Z.abs n) with (- n) by lia.
    destruct (digits_head_rest (- n) rest Hpos) as (d & tl & Hd & Hhead).
    destruct (read_digits_digits _ (- n) rest Hpos (digits_fuel _ Hpos))
      as (k & _ & Hread).
    rewrite append_String, digits_app.
    change (""%string +:+ rest)%string with rest.
    rewrite Hhead, read_integer_minus by done.
    rewrite <-Hhead, Hread, read_digits_stop by done.
    cbn [fst snd]. by replace (- (0 * 10 ^ k + - n)) with n by lia.
  - assert (Hpos : 0 ≤ n) by lia.
    replace (Z.abs n) with n by lia.
    destruct (digits_head_rest n rest Hpos) as (d & tl & Hd & Hhead).
    destruct (read_digits_digits _ n rest Hpos (digits_fuel _ Hpos))
      as (k & _ & Hread).
    rewrite digits_app. change (""%string +:+ rest)%string with rest.
    rewrite Hhead, read_integer_digit by done.
    rewrite <-Hhead, Hread, read_digits_stop by done.
    by replace (0 * 10 ^ k + n) with n by lia.
Qed.

Lemma append_nil_r str : (str +:+ "")%string = str.
Proof. induction str as [|c str IH]; [done|]. by rewrite append_String, IH. Qed.

Lemma append_assoc (s1 s2 s3 : string) :
  ((s1 +:+ s2) +:+ s3)%string = (s1 +:+ (s2 +:+ s3))%string.
Proof.
  induction s1 as [|c s1 IH]; [done|]. by rewrite !append_String, IH.
Qed.

Lemma extract_int_to_string n rest :
  int_range n →
  (rest = ""%string ∨ ∃ c t, rest = String c t ∧ digit_value c = None) →
  extract_int (to_string n +:+ rest) = Some (n, rest).
Proof.
  intros Hn Hrest. unfold extract_int.
  rewrite read_integer_to_string by done. by rewrite decide_True.
Qed.

Lemma stoi_to_string n : int_range n → stoi (to_string n) = Returned n.
Proof.
  intros Hn. unfold stoi. rewrite <-(append_nil_r (to_string n)).
  rewrite read_integer_to_string by by left. by rewrite decide_True.
Qed.

Lemma read_integer_space input :
  read_integer (String " " input) = read_integer input.
Proof. reflexivity. Qed.

Lemma extract_int_space input :
  extract_int (" " +:+ input) = extract_int input.
Proof. reflexivity. Qed.

(** The text of a number starts with a digit or with the minus sign. *)
Lemma to_string_head n :
  ∃ c tl, to_string n = String c tl
          ∧ (c = "-"%char ∨ ∃ d, 0 ≤ d ≤ 9 ∧ c = digit_char d).
Proof.
  unfold to_string. cbv zeta. case_bool_decide.
  - eexists _, _. split; [done|by left].
  - destruct (digits_head (Z.to_nat (Z.log2 (Z.abs n))) n "")
      as (d & tl & Hd & ->); [lia|].
    exists (digit_char d), tl. split; [done|]. right. by exists d.
Qed.

Lemma replace_char_app old new (s1 s2 : string) :
  replace_char old new (s1 +:+ s2)
  = (replace_char old new s1 +:+ replace_char old new s2)%string.
Proof.
  induction s1 as [|c s1 IH]; [done|].
  rewrite append_String. cbn [replace_char]. by rewrite IH.
Qed.

Lemma replace_char_digits old new fuel : ∀ n acc,
  0 ≤ n → (∀ d, 0 ≤ d ≤ 9 → digit_char d ≠ old) →
  replace_char old new (digits fuel n acc)
  = digits fuel n (replace_char old new acc).
Proof.
  induction fuel as [|fuel IH]; intros n acc Hn Hold; [done|].
  pose proof (Z.mod_pos_bound n 10 ltac:(lia)) as Hmod.
  cbn [digits]. case_bool_decide.
  - cbn [replace_char]. rewrite decide_False; [done|]. apply Hold. lia.
  - rewrite IH; [|apply Z.div_pos; lia|done].
    cbn [replace_char]. rewrite decide_False; [done|]. apply Hold. lia.
Qed.

Lemma replace_bar_to_string n :
  replace_char "|" " " (to_string n) = to_string n.
Proof.
  assert (Hold : ∀ d, 0 ≤ d ≤ 9 → digit_char d ≠ "|"%char).
  { intros d Hd. by destruct (digit_char_plain d Hd) as (_ & _ & _ & _ & _ & ? & _). }
  unfold to_string. cbv zeta. case_bool_decide.
  - cbn [replace_char]. rewrite decide_False by done.
    by rewrite replace_char_digits by (done || lia).
  - by rewrite replace_char_digits by (done || lia).
Qed.

Lemma load_relationship_line_body g c tl :
  c ≠ "#"%char →
  load_relationship_line g (String c tl)
  = let line := replace_char "|" " " (String c tl) in
    match extract_int line with
    | None => g
    | Some (asn1, rest) =>
        match extract_int rest with
        | None => g
        | Some (asn2, rest) =>
            match extract_int rest with
            | None => g
            | Some (rel_type_int, _) =>
                if decide (rel_type_int = -1) then
                  add_relationship g asn1 asn2 PROVIDER_TO_CUSTOMER
                else if decide (rel_type_int = 0) then
                  add_relationship g asn1 asn2 PEER_TO_PEER
                else g
            end
        end
    end.
Proof.
  intros Hc. unfold load_relationship_line.
  destruct c as [[] [] [] [] [] [] [] []]; done.
Qed.

(** X19. A relationships line in the CAIDA layout is read back: the line
    that holds two ASNs and a relationship code as [int]s are written,
    separated by [|] and followed by nothing or by text that does not
    start with a digit (a fourth field, a carriage return), adds the
    provider→customer relationship for the code -1 and the peering for
    the code 0, and is ignored for every other code. *)
Theorem relationship_line_round_trip (g : ASGraph) (a b code : Z)
    (tail : string) :
  int_range a → int_range b → int_range code →
  (tail = ""%string ∨ ∃ c t, tail = String c t ∧ digit_value c = None) →
  load_relationship_line g
    (to_string a +:+ "|" +:+ to_string b +:+ "|" +:+ to_string code
     +:+ tail)%string
  = if decide (code = -1) then
      add_relationship g a b PROVIDER_TO_CUSTOMER
    else if decide (code = 0) then add_relationship g a b PEER_TO_PEER
    else g.
Proof.
  intros Ha Hb Hcode Htail.
  assert (Htail' : replace_char "|" " " tail = ""%string
                   ∨ ∃ c t, replace_char "|" " " tail = String c t
                            ∧ digit_value c = None).
  { destruct Htail as [->|(c & t & -> & Hc)]; [by left|]. right.
    cbn [replace_char]. eexists _, _. split; [done|].
    case_decide; [done|exact Hc]. }
  destruct (to_string_head a) as (c & tl & Hhead & Hc).
  assert (Hnot : c ≠ "#"%char).
  { destruct Hc as [->|(d & Hd & ->)]; [done|].
    by destruct (digit_char_plain d Hd) as (_ & _ & _ & _ & ? & _). }
  rewrite Hhead, append_String, load_relationship_line_body by done.
  rewrite <-append_String, <-Hhead. cbv zeta.
  rewrite !replace_char_app, !replace_bar_to_string.
  change (replace_char "|" " " "|") with " "%string.
  rewrite extract_int_to_string; [|done|right; by eexists _, _].
  rewrite extract_int_space.
  rewrite extract_int_to_string; [|done|right; by eexists _, _].
  rewrite extract_int_space.
  by rewrite extract_int_to_string.
Qed.

Lemma relationship_line_round_trip_witness :
  load_relationship_line empty_graph "701|7018|-1|bgp"
  = add_relationship empty_graph 701 7018 PROVIDER_TO_CUSTOMER.
Proof.
  assert (Hline : (to_string 701 +:+ "|" +:+ to_string 7018 +:+ "|"
                   +:+ to_string (-1) +:+ "|bgp")%string
                  = "701|7018|-1|bgp"%string) by (by vm_compute).
  rewrite <-Hline.
  apply (relationship_line_round_trip empty_graph 701 7018 (-1) "|bgp").
  - unfold int_range. lia.
  - unfold int_range. lia.
  - unfold int_range. lia.
  - right. by eexists _, _.
Defined.

(** *** Rows of the announcements file and lines of the ROV file *)

Lemma contains_char_cons d c rest :
  contains (String d "") (String c rest)
  = bool_decide (d = c) || contains (String d "") rest.
Proof.
  cbn [contains String.prefix].
  destruct (ascii_dec d c) as [->|Hne].
  - rewrite bool_decide_eq_true_2 by done. by destruct rest.
  - by rewrite bool_decide_eq_false_2.
Qed.

Lemma read_until_free delim s1 s2 :
  contains (String delim "") s1 = false →
  read_until delim (s1 +:+ String delim s2) = (s1, s2).
Proof.
  induction s1 as [|c s1 IH]; intros Hfree.
  - change (""%string +:+ String delim s2)%string with (String delim s2).
    cbn [read_until]. by rewrite decide_True.
  - rewrite contains_char_cons in Hfree.
    apply orb_false_iff in Hfree as [Hc Hfree].
    apply bool_decide_eq_false in Hc.
    rewrite append_String. cbn [read_until].
    rewrite decide_False by done. by rewrite IH.
Qed.

Lemma read_until_all delim str :
  contains (String delim "") str = false →
  read_until delim str = (str, ""%string).
Proof.
  induction str as [|c str IH]; intros Hfree; [done|].
  rewrite contains_char_cons in Hfree.
  apply orb_false_iff in Hfree as [Hc Hfree].
  apply bool_decide_eq_false in Hc.
  cbn [read_until]. rewrite decide_False by done. by rewrite IH.
Qed.

Lemma contains_char_digits delim fuel : ∀ n acc,
  0 ≤ n → (∀ d, 0 ≤ d ≤ 9 → digit_char d ≠ delim) →
  contains (String delim "") (digits fuel n acc)
  = contains (String delim "") acc.
Proof.
  induction fuel as [|fuel IH]; intros n acc Hn Hdelim; [done|].
  pose proof (Z.mod_pos_bound n 10 ltac:(lia)) as Hmod.
  assert (Hne : delim ≠ digit_char (n mod 10))
    by (intros ->; by eapply (Hdelim (n mod 10)); [lia|]).
  cbn [digits]. case_bool_decide.
  - by rewrite contains_char_cons, bool_decide_eq_false_2.
  - rewrite IH; [|apply Z.div_pos; lia|done].
    by rewrite contains_char_cons, bool_decide_eq_false_2.
Qed.

Lemma to_string_no_comma n : contains "," (to_string n) = false.
Proof.
  assert (Hdelim : ∀ d, 0 ≤ d ≤ 9 → digit_char d ≠ ","%char).
  { intros d Hd.
    by destruct (digit_char_plain d Hd) as (_ & _ & _ & _ & _ & _ & ? & _). }
  unfold to_string. cbv zeta. case_bool_decide.
  - rewrite contains_char_cons, bool_decide_eq_false_2 by done.
    by rewrite contains_char_digits by (done || lia).
  - by rewrite contains_char_digits by (done || lia).
Qed.

Lemma getline_nonempty delim c tl :
  getline delim (String c tl) = Some (read_until delim (String c tl)).
Proof. reflexivity. Qed.

(** X20. A row of the announcements file is read back: the row that
    holds an ASN as an [int] is written, a prefix without a comma and a
    non-empty flag text without a line break, separated by commas, seeds
    that prefix at that ASN; the announcement is invalid exactly when the
    flag text contains [True], [true] or [1] anywhere. *)
Theorem announcement_row_round_trip (sim : BGPSimulator) (asn : Z)
    (p flag : string) :
  int_range asn → contains "," p = false →
  flag ≠ ""%string → contains (String "010" "") flag = false →
  load_announcement_line sim (to_string asn +:+ "," +:+ p +:+ "," +:+ flag)
  = Returned (seed_announcement sim asn p
                (contains "True" flag || contains "true" flag
                 || contains "1" flag)).
Proof.
  intros Hasn Hp Hflag Hline. unfold load_announcement_line.
  destruct (to_string_head asn) as (c & tl & Hhead & _).
  assert (Hfirst : getline "," (to_string asn +:+ "," +:+ p +:+ "," +:+ flag)
                   = Some (to_string asn, (p +:+ "," +:+ flag)%string)).
  { rewrite Hhead at 1. rewrite append_String, getline_nonempty.
    rewrite <-append_String, <-Hhead.
    change ("," +:+ ?x)%string with (String "," x).
    by rewrite read_until_free by apply to_string_no_comma. }
  rewrite Hfirst.
  assert (Hsecond : getline "," (p +:+ "," +:+ flag) = Some (p, flag)).
  { change ("," +:+ flag)%string with (String "," flag).
    rewrite <-(read_until_free "," p flag Hp).
    by destruct p. }
  rewrite Hsecond.
  destruct flag as [|f flag]; [done|].
  rewrite getline_nonempty, read_until_all by done.
  by rewrite stoi_to_string.
Qed.

Lemma announcement_row_round_trip_witness :
  load_announcement_line (new_simulator pair) "65001,10.0.0.0/24,True"
  = Returned (seed_announcement (new_simulator pair) 65001 "10.0.0.0/24"
                                true).
Proof.
  assert (Hrow : (to_string 65001 +:+ "," +:+ "10.0.0.0/24" +:+ ","
                  +:+ "True")%string
                 = "65001,10.0.0.0/24,True"%string) by (by vm_compute).
  rewrite <-Hrow.
  apply (announcement_row_round_trip (new_simulator pair) 65001
           "10.0.0.0/24" "True").
  - unfold int_range. lia.
  - reflexivity.
  - discriminate.
  - reflexivity.
Defined.

Lemma trim_right_cons c str :
  is_blank c = false → trim_right (String c str) = String c (trim_right str).
Proof.
  intros Hc. cbn [trim_right]. rewrite Hc. by destruct (trim_right str).
Qed.

Lemma trim_right_digits fuel : ∀ n acc,
  0 ≤ n → trim_right (digits fuel n acc) = digits fuel n (trim_right acc).
Proof.
  induction fuel as [|fuel IH]; intros n acc Hn; [done|].
  pose proof (Z.mod_pos_bound n 10 ltac:(lia)) as Hmod.
  assert (Hblank : is_blank (digit_char (n mod 10)) = false)
    by (by destruct (digit_char_plain (n mod 10)) as (_ & ? & _); [lia|]).
  cbn [digits]. case_bool_decide.
  - by rewrite trim_right_cons.
  - rewrite IH by (apply Z.div_pos; lia). by rewrite trim_right_cons.
Qed.

Lemma trim_right_to_string n : trim_right (to_string n) = to_string n.
Proof.
  unfold to_string. cbv zeta. case_bool_decide.
  - rewrite trim_right_cons by done.
    by rewrite trim_right_digits by lia.
  - by rewrite trim_right_digits by lia.
Qed.

Lemma trim_right_app_blank str pad :
  trim_right pad = ""%string → trim_right (str +:+ pad) = trim_right str.
Proof.
  intros Hpad. induction str as [|c str IH]; [done|].
  rewrite append_String. cbn [trim_right]. by rewrite IH.
Qed.

Lemma trim_left_app_blank pad str :
  trim_left pad = ""%string → trim_left (pad +:+ str) = trim_left str.
Proof.
  induction pad as [|c pad IH]; intros Hpad; [done|].
  rewrite append_String. cbn [trim_left] in *.
  destruct (is_blank c); [by apply IH|done].
Qed.

Lemma load_rov_asn_line_trimmed rov line c tl :
  trim_right (trim_left line) = String c tl → c ≠ "#"%char →
  load_rov_asn_line rov line
  = match stoi (String c tl) with
    | Returned asn => {[asn]} ∪ rov
    | Thrown _ => rov
    end.
Proof.
  intros Hline Hc. unfold load_rov_asn_line. rewrite Hline.
  destruct c as [[] [] [] [] [] [] [] []]; done.
Qed.

(** X21. A line of the ROV file is read back: the line that holds an ASN
    as an [int] is written, with any blanks, tabs, carriage returns or
    line feeds before and after it, adds that ASN to the ROV set. *)
Theorem rov_line_round_trip (rov : gset Z) (asn : Z) (before after : string) :
  int_range asn →
  trim_left before = ""%string → trim_right after = ""%string →
  load_rov_asn_line rov (before +:+ to_string asn +:+ after)
  = {[asn]} ∪ rov.
Proof.
  intros Hasn Hbefore Hafter.
  destruct (to_string_head asn) as (c & tl & Hhead & Hc).
  assert (Hplain : is_blank c = false ∧ c ≠ "#"%char).
  { destruct Hc as [->|(d & Hd & ->)]; [done|].
    by destruct (digit_char_plain d Hd) as (_ & ? & _ & _ & ? & _). }
  destruct Hplain as [Hblank Hnot].
  assert (Hline : trim_right (trim_left (before +:+ to_string asn +:+ after))
                  = String c tl).
  { rewrite trim_left_app_blank by done.
    rewrite Hhead at 1. rewrite append_String. cbn [trim_left].
    rewrite Hblank, <-append_String, <-Hhead.
    by rewrite trim_right_app_blank, trim_right_to_string. }
  rewrite (load_rov_asn_line_trimmed rov _ c tl Hline Hnot).
  by rewrite <-Hhead, stoi_to_string.
Qed.

Lemma rov_line_round_trip_witness :
  load_rov_asn_line ∅ (String " " (String " " "64512")
                       +:+ String "013" "")
  = {[64512]} ∪ ∅.
Proof.
  assert (Htext : to_string 64512 = "64512"%string) by (by vm_compute).
  rewrite <-Htext.
  apply (rov_line_round_trip ∅ 64512 (String " " (String " " ""))
           (String "013" "")).
  - unfold int_range. lia.
  - reflexivity.
  - reflexivity.
Defined.

(** ** The read outside the rank vector *)

Lemma initial_queue_empty g :
  initial_queue (count_customers g) = []
  ↔ ∀ a, a ∈ all_asns g → ∃ c, customer_of g c a.
Proof.
  split.
  - intros Hempty a Ha.
    destruct (unranked_customers_pos g ∅ a) as (c & Hc & _); [|by exists c].
    intros Hzero.
    assert (Hin : a ∈ initial_queue (count_customers g)).
    { apply elem_of_initial_queue. rewrite count_customers_lookup.
      by rewrite decide_True, Hzero. }
    rewrite Hempty in Hin. by apply elem_of_nil in Hin.
  - intros Hall.
    destruct (initial_queue (count_customers g)) as [|a l] eqn:Hq; [done|].
    assert (Hin : a ∈ initial_queue (count_customers g))
      by (rewrite Hq; by left).
    apply elem_of_initial_queue in Hin.
    rewrite count_customers_lookup in Hin.
    case_decide as Ha; [|done]. injection Hin as Hzero.
    destruct (Hall a Ha) as [c Hc].
    destruct (unranked_customers_zero g ∅ a c Hzero Hc) as [k Hk].
    by rewrite lookup_empty in Hk.
Qed.

Lemma flatten_graph_None s :
  built_graph (graph s) →
  flatten_graph s = None ↔ initial_queue (count_customers (graph s)) = [].
Proof.
  intros Hbuilt. pose proof (wf_graph_built _ Hbuilt) as Hwf.
  destruct (flatten_ranks_inv _ Hwf) as (_ & _ & _ & Hnonempty).
  unfold flatten_graph. cbv zeta. split.
  - intros Hnone.
    destruct (initial_queue (count_customers (graph s))) as [|a l] eqn:Hq;
      [done|].
    destruct (fl_rank_to_asns (flatten_ranks (graph s))); [|done].
    by destruct Hnonempty.
  - intros Hq. unfold flatten_ranks.
    by rewrite flatten_loop_empty.
Qed.

Lemma flatten_graph_None_customers s :
  built_graph (graph s) →
  flatten_graph s = None
  ↔ ∀ a, a ∈ all_asns (graph s) → ∃ c, customer_of (graph s) c a.
Proof. intros Hbuilt. by rewrite flatten_graph_None, initial_queue_empty. Qed.

Lemma flatten_graph_None_no_asns s :
  built_graph (graph s) → acyclic (graph s) →
  flatten_graph s = None ↔ all_asns (graph s) = ∅.
Proof.
  intros Hbuilt Hacyclic. split.
  - intros Hnone. apply set_eq. intros a.
    split; [|by intros ?%not_elem_of_empty].
    intros Ha. exfalso.
    pose proof (wf_graph_built _ Hbuilt) as Hwf.
    destruct (flatten_ranks_inv _ Hwf) as (Hq & Hinv & Hgroups & _).
    destruct (all_ranked _ _ Hwf Hacyclic Hq Hinv a Ha) as [k Hk].
    apply Hgroups in Hk as (l & Hl & _).
    unfold flatten_graph in Hnone. cbv zeta in Hnone.
    destruct (fl_rank_to_asns (flatten_ranks (graph s))); done.
  - intros Hempty. apply flatten_graph_None_customers; [done|].
    intros a Ha. rewrite Hempty in Ha. by apply not_elem_of_empty in Ha.
Qed.

(** X22. The closing report of [flatten_graph] reads [rank_to_asns[0]]
    outside the vector exactly when no AS of the graph is without a
    customer; on a graph without customer-provider cycles that is
    exactly when the graph has no AS at all. *)
Theorem flatten_graph_out_of_range (s : BGPSimulator) :
  built_graph (graph s) →
  (flatten_graph s = None
   ↔ ∀ a, a ∈ all_asns (graph s) → ∃ c, customer_of (graph s) c a)
  ∧ (acyclic (graph s) →
     flatten_graph s = None ↔ all_asns (graph s) = ∅).
Proof.
  intros Hbuilt. split.
  - by apply flatten_graph_None_customers.
  - intros Hacyclic. by apply flatten_graph_None_no_asns.
Qed.

Lemma flatten_graph_out_of_range_witness :
  flatten_graph (new_simulator ring3) = None
  ∧ flatten_graph (new_simulator empty_graph) = None.
Proof.
  assert (Hring : built_graph (graph (new_simulator ring3)))
    by (repeat apply built_add; apply built_empty).
  assert (Hempty : built_graph (graph (new_simulator empty_graph)))
    by apply built_empty.
  split.
  - apply (proj1 (flatten_graph_out_of_range (new_simulator ring3) Hring)).
    intros a Ha.
    assert (Hcases : a = 1 ∨ a = 2 ∨ a = 3).
    { revert Ha. simpl. rewrite !elem_of_union, !elem_of_singleton.
      intros H. repeat destruct H as [H|H]; auto.
      by apply not_elem_of_empty in H. }
    destruct Hcases as [->|[->| ->]];
      [exists 2|exists 3|exists 1]; vm_compute; repeat constructor.
  - apply (proj2 (flatten_graph_out_of_range (new_simulator empty_graph)
                    Hempty)); [|done].
    intros a Ha. inversion Ha as [? ? Hedge|? ? ? Hedge _];
      by apply elem_of_nil in Hedge.
Defined.

Lemma seed_all_no_asns s anns :
  all_asns (graph (seed_all s anns)) = ∅ →
  anns = [] ∧ all_asns (graph s) = ∅.
Proof.
  intros Hempty. destruct anns as [|[[o p] f] anns]; [done|].
  exfalso. eapply (not_elem_of_empty (C := gset Z) o).
  rewrite <-Hempty. eapply origin_in_graph. by left.
Qed.

Lemma adjacency_nonempty g :
  built_graph g → ∀ a, adjacency g !! a ≠ Some [].
Proof.
  induction 1 as [|g asn1 asn2 rel _ IH|g asn _ IH]; intros a; simpl;
    [by rewrite lookup_empty| |done].
  destruct (decide (a = asn2)) as [->|Hne2].
  - rewrite lookup_insert_eq. intros [= Happ].
    by apply app_nil in Happ as [_ ?].
  - rewrite lookup_insert_ne by done.
    destruct (decide (a = asn1)) as [->|Hne1].
    + rewrite lookup_insert_eq. intros [= Happ].
      by apply app_nil in Happ as [_ ?].
    + rewrite lookup_insert_ne by done. apply IH.
Qed.

(** X23. The program reaches the read outside the rank vector only when
    its input defines no AS at all: the relationships file opened and
    gave no relationship, the graph is empty, and the announcements file
    seeded nothing. *)
Theorem main_out_of_range (fs : Files) (opts : Options) :
  main fs opts = Some OutOfRange →
  relationships_of fs opts = Some empty_graph
  ∧ ∃ rov, load_announcements fs (set_rov_asns (new_simulator empty_graph) rov)
             (announcements_file opts)
           = Returned (set_rov_asns (new_simulator empty_graph) rov).
Proof.
  unfold main. destruct (_ || _); [done|].
  destruct (load_from_file fs empty_graph (relationships_file opts))
    as [g|e] eqn:Hload; [|done].
  assert (Hg : built_graph g)
    by (eapply built_graph_load; [apply built_empty|done]).
  destruct (has_customer_provider_cycle g) as [[]|] eqn:Hcycle; [done| |done].
  pose proof (has_cycle_spec g false (wf_graph_built g Hg) Hcycle) as Hacyc.
  set (rov := if negb (bool_decide (rov_asns_file opts = ""%string))
              then load_rov_asns fs (rov_asns_file opts) else ∅).
  assert (Hsim : (if negb (bool_decide (rov_asns_file opts = ""%string))
                  then set_rov_asns (new_simulator g)
                         (load_rov_asns fs (rov_asns_file opts))
                  else new_simulator g)
                 = set_rov_asns (new_simulator g) rov).
  { unfold rov. by destruct (negb _). }
  rewrite Hsim.
  destruct (load_announcements fs _ (announcements_file opts))
    as [sim|e] eqn:Hanns; [|done].
  destruct (load_announcements_run _ _ _ _ _ Hanns) as [anns ->].
  destruct (propagate (run_start g rov anns)) as [[[] s]|] eqn:Hprop;
    [by destruct (can_create _ _)|done|].
  intros _.
  assert (Hfl : flatten_graph (run_start g rov anns) = None).
  { unfold propagate, propagate_with in Hprop.
    by destruct (flatten_graph (run_start g rov anns)). }
  destruct (run_start_ready g rov anns Hg Hacyc) as (Hbuilt' & Hacyc' & _).
  apply flatten_graph_None_no_asns in Hfl; [|done..].
  apply seed_all_no_asns in Hfl as [-> Hasns]. simpl in Hasns.
  assert (g = empty_graph) as ->.
  { destruct g as [adj asns]. simpl in Hasns. subst asns.
    unfold empty_graph. f_equal. apply map_eq. intros a.
    rewrite lookup_empty.
    destruct (adj !! a) as [l|] eqn:Hl; [|done]. exfalso.
    destruct (wf_graph_built _ Hg) as [Hends _].
    destruct l as [|[nb rel] l].
    - by apply (adjacency_nonempty _ Hg a).
    - destruct (Hends a nb rel) as [Ha _].
      + unfold get_neighbors. simpl. rewrite Hl. by left.
      + simpl in Ha. by apply not_elem_of_empty in Ha. }
  split; [by apply relationships_of_load|]. by exists rov.
Qed.

Lemma main_out_of_range_witness :
  main empty_files (example_options "") = Some OutOfRange
  ∧ relationships_of empty_files (example_options "") = Some empty_graph.
Proof.
  assert (Hmain : main empty_files (example_options "") = Some OutOfRange)
    by (by vm_compute).
  split; [exact Hmain|].
  exact (proj1 (main_out_of_range empty_files (example_options "") Hmain)).
Defined.

(** ** Convergence *)

Lemma held_from_announcement g rov anns s b p :
  rtc link_step (run_start g rov anns) s →
  is_Some (rib_entry s b p) →
  ∃ o f, (o, p, f) ∈ anns ∧ valley_reach g o b.
Proof.
  intros Hlink [route Hroute].
  pose proof (link_steps_steps _ _ Hlink) as Hrun.
  destruct (from_announcement_run g rov anns s) as [Hfa _]; [by right|].
  eapply (valley_free_link_steps g rov) in Hlink as (_ & Hvf & _);
    [| |apply valley_free_start];
    [|unfold run_start; by rewrite adjacency_seed_all].
  apply rib_entry_lookup in Hroute as (rib & Hrib & Hq).
  destruct (Hfa b rib p route Hrib Hq)
    as (_ & [[o q] f] & Hann & Hp & Hlast & _).
  destruct (Hvf b rib p route Hrib Hq) as (Hhead & rels & Hhops & Hshape & _).
  simpl in Hp, Hlast. subst q. exists o, f. split; [done|].
  by eapply hops_valley_reach.
Qed.

Lemma elem_of_csv_entries_keys (s : BGPSimulator) a p :
  (a, p) ∈ (csv_entries (ribs s)).*1 ↔ is_Some (rib_entry s a p).
Proof.
  rewrite list_elem_of_fmap. split.
  - intros ([[a' p'] str] & [= -> ->] & Hin).
    apply elem_of_csv_entries in Hin as (rib & route & Hrib & Hroute & _).
    exists route. apply rib_entry_lookup. by exists rib.
  - intros [route Hroute].
    apply rib_entry_lookup in Hroute as (rib & Hrib & Hroute).
    exists (a, p, render_path (as_path route)). split; [done|].
    apply elem_of_csv_entries. by exists rib, route.
Qed.

Lemma count_routes_same_entries (s s' : BGPSimulator) :
  (∀ a p, is_Some (rib_entry s a p) ↔ is_Some (rib_entry s' a p)) →
  count_routes (ribs s) = count_routes (ribs s').
Proof.
  intros Hsame. rewrite <-!length_csv_entries. f_equal.
  rewrite <-(length_fmap fst (csv_entries (ribs s))),
          <-(length_fmap fst (csv_entries (ribs s'))).
  apply Permutation_length, NoDup_Permutation;
    [apply NoDup_csv_entries_keys..|].
  intros [a p]. by rewrite !elem_of_csv_entries_keys.
Qed.

(** X24. When no announcement is ROV-invalid, propagation over a graph
    without customer-provider cycles never gives up: if [propagate]
    returns, it returns [true], and it stops after the first iteration
    (no route at all) or the second. The second iteration adds no RIB
    entry to those of the first. *)
Theorem propagate_converges (g : ASGraph) (rov : gset Z)
    (anns : list Announcement) (res : bool) (s : BGPSimulator) :
  built_graph g → acyclic g →
  (∀ a : Announcement, a ∈ anns → a.2 = false) →
  propagate (run_start g rov anns) = Some (res, s) →
  res = true
  ∧ ∃ s0, flatten_graph (run_start g rov anns) = Some s0
          ∧ (s = run_iteration s0 ∨ s = run_iteration (run_iteration s0))
          ∧ get_rib_count s = get_rib_count (run_iteration s0).
Proof.
  intros Hbuilt Hacyclic Hvalid.
  unfold propagate, propagate_with.
  destruct (flatten_graph (run_start g rov anns)) as [s0|] eqn:Hfl; [|done].
  assert (Hlink0 : rtc link_step (run_start g rov anns) s0)
    by (eapply rtc_l; [by apply link_flatten|done]).
  set (s1 := run_iteration s0). set (s2 := run_iteration s1).
  assert (Hsame : count_routes (ribs s2) = count_routes (ribs s1)).
  { apply count_routes_same_entries. intros a p. split.
    - intros Hheld.
      destruct (held_from_announcement g rov anns s2 a p) as (o & f & Hann & Hr);
        [|done|].
      { etrans; [exact Hlink0|].
        etrans; apply run_iteration_link_steps. }
      eapply (first_iteration_reaches g rov anns o p f s0 a); try done.
      intros ann Hin _. by apply Hvalid.
    - apply rib_entry_kept, run_iteration_steps. }
  change (propagate_loop_with better_route 20 0 0 s0)
    with (propagate_loop 20 0 0 s0).
  unfold propagate_loop.
  change (propagate_loop_with better_route 20 0 0 s0)
    with (let total_routes := count_routes (ribs s1) in
          if bool_decide (total_routes = 0) then (true, s1)
          else if bool_decide (0 + 1 >= 20) then (false, s1)
          else propagate_loop_with better_route 19 (0 + 1) total_routes s1).
  cbv zeta. case_bool_decide as Hzero.
  { intros [= <- <-]. split; [done|]. exists s0. split; [done|].
    split; [by left|done]. }
  rewrite bool_decide_eq_false_2 by lia.
  change (propagate_loop_with better_route 19 (0 + 1)
            (count_routes (ribs s1)) s1)
    with (let total_routes := count_routes (ribs s2) in
          if bool_decide (total_routes = count_routes (ribs s1))
          then (true, s2)
          else if bool_decide (0 + 1 + 1 >= 20) then (false, s2)
          else propagate_loop_with better_route 18 (0 + 1 + 1)
                 total_routes s2).
  cbv zeta. rewrite bool_decide_eq_true_2 by done.
  intros [= <- <-]. split; [done|]. exists s0. split; [done|].
  split; [by right|done].
Qed.

Lemma propagate_converges_witness :
  ∃ s, propagate (run_start diamond ∅ [(40, "p", false)]) = Some (true, s).
Proof.
  assert (Hbuilt : built_graph diamond)
    by (repeat apply built_add; apply built_empty).
  assert (Hacyclic : acyclic diamond).
  { apply (acyclic_by_level diamond diamond_level).
    apply (bool_decide_unpack _). vm_compute. exact I. }
  destruct (propagate (run_start diamond ∅ [(40, "p", false)]))
    as [[b s]|] eqn:Hp; [|by vm_compute in Hp].
  assert (Hvalid : ∀ a : Announcement, a ∈ [(40, "p", false)] → a.2 = false).
  { intros a Ha. apply list_elem_of_singleton in Ha. by subst a. }
  destruct (propagate_converges diamond ∅ [(40, "p", false)] b s
              Hbuilt Hacyclic Hvalid Hp) as [-> _].
  by exists s.
Defined.

(** ** Invalid routes and ROV-enabled ASes *)

Lemma rov_avoided_run g rov anns s :
  run_state g rov anns s →
  ribs_all (rov_avoided rov) s ∧ queues_all (rov_avoided_before rov) s.
Proof.
  intros Hrun.
  eapply (run_invariant_run rov (rov_avoided rov) (rov_avoided_before rov))
    in Hrun.
  - by destruct Hrun as (_ & ? & ?).
  - intros a nbr q route rel Hclean _ _ Hinv.
    destruct (Hclean Hinv) as (l & o & Hpath & Hl).
    exists l, o. simpl. by rewrite Hpath.
  - intros a q route Hclean Hkeep Hinv.
    destruct (Hclean Hinv) as (l & o & Hpath & Hl).
    exists (a :: l), o. split; [done|].
    intros x Hx. apply elem_of_cons in Hx as [->|Hx]; [|by apply Hl].
    rewrite Hinv, andb_true_r in Hkeep.
    by apply bool_decide_eq_false in Hkeep.
  - intros a Ha _. exists [], a.1.1. split; [done|].
    intros x Hx. by apply elem_of_nil in Hx.
Qed.

Lemma owner_is_head_run g rov anns s :
  run_state g rov anns s → ribs_all owner_is_head s.
Proof.
  intros Hrun.
  eapply (run_invariant_run rov owner_is_head owner_is_head) in Hrun;
    [by destruct Hrun as (_ & ? & _)|done..].
Qed.

(** X25. An invalid route never crosses an ROV-enabled AS: in every state
    of a run, a RIB route that is [rov_invalid] ends in the origin of an
    announcement of its prefix that was seeded as invalid, and no other AS
    of its path is ROV-enabled.  So the only invalid route that an
    ROV-enabled AS can hold is the one it seeded itself. *)
Theorem invalid_routes_avoid_rov (g : ASGraph) (rov : gset Z)
    (anns : list Announcement) (s : BGPSimulator) (a : Z) (p : string)
    (r : Route) :
  run_state g rov anns s →
  rib_entry s a p = Some r → rov_invalid r = true →
  (∃ l o, as_path r = l ++ [o] ∧ (∀ x, x ∈ l → x ∉ rov)
          ∧ (o, p, true) ∈ anns)
  ∧ (a ∈ rov → as_path r = [a]).
Proof.
  intros Hrun Hr Hinv.
  apply rib_entry_lookup in Hr as (rib & Hrib & Hr).
  destruct (rov_avoided_run g rov anns s Hrun) as [Hclean _].
  destruct (Hclean a rib p r Hrib Hr Hinv) as (l & o & Hpath & Hl).
  pose proof (owner_is_head_run g rov anns s Hrun a rib p r Hrib Hr) as Hhead.
  destruct (from_announcement_run g rov anns s Hrun) as [Hfa _].
  destruct (Hfa a rib p r Hrib Hr) as (_ & [[o' p'] f] & Hann & Hp & Hlast & Hf).
  simpl in Hp, Hlast, Hf. subst p'.
  rewrite Hpath, last_snoc in Hlast. injection Hlast as <-.
  rewrite Hinv in Hf. subst f.
  split; [by exists l, o|].
  intros Ha. unfold owner_is_head in Hhead. rewrite Hpath in Hhead |- *.
  destruct l as [|x l]; simpl in Hhead; injection Hhead as ->; [done|].
  destruct (Hl a); [by left|done].
Qed.

Lemma invalid_routes_avoid_rov_witness :
  ∃ s r, propagate (run_start valley {[2]} [(4, "p", true)]) = Some (true, s)
         ∧ rib_entry s 3 "p" = Some r
         ∧ rib_entry s 2 "p" = None
         ∧ ∃ l o, as_path r = l ++ [o] ∧ (∀ x, x ∈ l → x ∉ ({[2]} : gset Z))
                  ∧ (o, "p"%string, true) ∈ [(4, "p"%string, true)].
Proof.
  destruct (propagate (run_start valley {[2]} [(4, "p", true)]))
    as [[b s]|] eqn:Hp; [|by vm_compute in Hp].
  assert (b = true) as ->.
  { apply (f_equal (λ r, match r with Some (b, _) => b | None => false end))
      in Hp. by vm_compute in Hp. }
  assert (He : rib_entry s 3 "p"
               = Some (mkRoute "p" [3; 4] LEARNED_FROM_CUSTOMER true)).
  { change (rib_entry s 3 "p")
      with ((λ r : option (bool * BGPSimulator),
               match r with
               | Some (_, s) => rib_entry s 3 "p"
               | None => None
               end) (Some (true, s))).
    rewrite <-Hp. by vm_compute. }
  assert (Hn : rib_entry s 2 "p" = None).
  { change (rib_entry s 2 "p")
      with ((λ r : option (bool * BGPSimulator),
               match r with
               | Some (_, s) => rib_entry s 2 "p"
               | None => None
               end) (Some (true, s))).
    rewrite <-Hp. by vm_compute. }
  exists s, (mkRoute "p" [3; 4] LEARNED_FROM_CUSTOMER true).
  split; [reflexivity|]. split; [exact He|]. split; [exact Hn|].
  exact (proj1 (invalid_routes_avoid_rov valley {[2]} [(4, "p", true)] s 3 "p"
                  (mkRoute "p" [3; 4] LEARNED_FROM_CUSTOMER true)
                  (run_state_propagate _ _ _ _ _ Hp) He eq_refl)).
Defined.
